(** * Attack graph and remediation engine of cloud_attack_analysis

    A shallow embedding of [attack_engine.py] and [fix_engine.py] together
    with the parts of Python, [json] and networkx 3.2.1 they rely on:
    Python values and exceptions, string methods, [json.loads], and the
    DiGraph operations, [shortest_path] and [all_simple_paths]. *)

From Stdlib Require Import String Ascii List Bool Arith Lia NArith.
Import ListNotations.
Local Open Scope list_scope.
Local Open Scope string_scope.
Set Warnings "-register-all".

(* ================================================================= *)
(** ** Python values and exceptions *)

Module Py.

(** Values as they come out of the parsers and [json.loads]: [None], bools,
    numbers (kept as their JSON lexeme), strings, lists and dicts (association
    lists in insertion order, one entry per key). *)
Inductive value : Type :=
| VNone
| VBool (b : bool)
| VNum (lexeme : string)
| VStr (s : string)
| VList (l : list value)
| VDict (kv : list (string * value)).

(** The exceptions the modelled code can raise. *)
Inductive exn : Type :=
| IndexError
| AttributeError
| TypeError.

Inductive result (A : Type) : Type :=
| Ok (a : A)
| Raise (e : exn).
Arguments Ok {A} a.
Arguments Raise {A} e.

Definition bind {A B} (m : result A) (k : A -> result B) : result B :=
  match m with
  | Ok a => k a
  | Raise e => Raise e
  end.

Notation "x <- m ;; k" := (bind m (fun x => k))
  (at level 61, m at next level, right associativity).

(** [d.get(k, default)] on a dict. *)
Fixpoint dict_get (kv : list (string * value)) (k : string) (default : value) : value :=
  match kv with
  | [] => default
  | (k', v) :: rest => if String.eqb k' k then v else dict_get rest k default
  end.

(** [k in d] *)
Definition dict_has (kv : list (string * value)) (k : string) : bool :=
  existsb (fun p => String.eqb (fst p) k) kv.

(** [d[k] = v]: overwrite in place, or append a new key. *)
Fixpoint dict_set (kv : list (string * value)) (k : string) (v : value)
  : list (string * value) :=
  match kv with
  | [] => [(k, v)]
  | (k', v') :: rest =>
      if String.eqb k' k then (k', v) :: rest else (k', v') :: dict_set rest k v
  end.

(** [v == s] for a string literal [s]: only a [str] equal to [s] compares equal. *)
Definition is_str (v : value) (s : string) : bool :=
  match v with
  | VStr s' => String.eqb s' s
  | _ => false
  end.

(** [s in l] for a string [s] and a Python list [l]. *)
Definition list_has_str (l : list value) (s : string) : bool :=
  existsb (fun v => is_str v s) l.

(** ASCII character classes. *)
Definition code (c : ascii) : nat := nat_of_ascii c.
Definition is_digit (c : ascii) : bool := Nat.leb 48 (code c) && Nat.leb (code c) 57.
Definition is_digit19 (c : ascii) : bool := Nat.leb 49 (code c) && Nat.leb (code c) 57.

(** Truthiness of a JSON number lexeme: zero iff it has a digit and every digit
    of its mantissa (before [e]/[E]) is [0]; [NaN] and [Infinity] are true. *)
Fixpoint mantissa_digits (s : string) : list ascii :=
  match s with
  | EmptyString => []
  | String c rest =>
      if (Ascii.eqb c "e" || Ascii.eqb c "E")%bool then []
      else if is_digit c then c :: mantissa_digits rest else mantissa_digits rest
  end.

Definition num_is_zero (lexeme : string) : bool :=
  match mantissa_digits lexeme with
  | [] => false
  | ds => forallb (fun c => Ascii.eqb c "0") ds
  end.

(** [bool(v)] *)
Definition truthy (v : value) : bool :=
  match v with
  | VNone => false
  | VBool b => b
  | VNum lexeme => negb (num_is_zero lexeme)
  | VStr s => negb (String.eqb s "")
  | VList l => match l with [] => false | _ => true end
  | VDict kv => match kv with [] => false | _ => true end
  end.

(** [for x in v]: lists give their elements, strings their characters, dicts
    their keys; [None], bools and numbers are not iterable.  (Characters are
    bytes here; every consumer only asks whether an item is a dict.) *)
Fixpoint str_chars (s : string) : list value :=
  match s with
  | EmptyString => []
  | String c rest => VStr (String c EmptyString) :: str_chars rest
  end.

Definition py_iter (v : value) : result (list value) :=
  match v with
  | VList l => Ok l
  | VStr s => Ok (str_chars s)
  | VDict kv => Ok (map (fun p => VStr (fst p)) kv)
  | _ => Raise TypeError
  end.

(** [l[i]] on a list of strings. *)
Definition index {A} (l : list A) (i : nat) : result A :=
  match nth_error l i with
  | Some a => Ok a
  | None => Raise IndexError
  end.

End Py.

(* ================================================================= *)
(** ** Python string methods *)

Module PyStr.
Import Py.

(** Whitespace of [str.strip()] (the ASCII part of [str.isspace]). *)
Definition is_space (c : ascii) : bool :=
  let n := code c in
  Nat.eqb n 32 || (Nat.leb 9 n && Nat.leb n 13) || (Nat.leb 28 n && Nat.leb n 31).

Fixpoint lstrip (s : string) : string :=
  match s with
  | EmptyString => EmptyString
  | String c rest => if is_space c then lstrip rest else s
  end.

Fixpoint rev_str (s : string) (acc : string) : string :=
  match s with
  | EmptyString => acc
  | String c rest => rev_str rest (String c acc)
  end.

(** [s.strip()] *)
Definition strip (s : string) : string :=
  rev_str (lstrip (rev_str (lstrip s) EmptyString)) EmptyString.

(** [s.startswith(p)] *)
Definition startswith (s p : string) : bool := String.prefix p s.

(** [s.endswith(p)] for a one-character suffix. *)
Fixpoint endswith_char (s : string) (c : ascii) : bool :=
  match s with
  | EmptyString => false
  | String c' EmptyString => Ascii.eqb c' c
  | String _ rest => endswith_char rest c
  end.

(** [s.rstrip(c)] for one character [c]. *)
Definition rstrip_char (s : string) (c : ascii) : string :=
  let fix drop (r : string) : string :=
    match r with
    | String c' rest => if Ascii.eqb c' c then drop rest else r
    | EmptyString => EmptyString
    end in
  rev_str (drop (rev_str s EmptyString)) EmptyString.

(** [s.split(sep)] for a non-empty [sep]: [skip] counts the characters of a
    separator occurrence still to be passed over, [cur] is the piece being
    read. *)
Fixpoint split_go (sep : string) (skip : nat) (s cur : string) : list string :=
  match s with
  | EmptyString => [cur]
  | String c rest =>
      match skip with
      | S k => split_go sep k rest cur
      | O =>
          if String.prefix sep s
          then cur :: split_go sep (String.length sep - 1) rest EmptyString
          else split_go sep 0 rest (cur ++ String c EmptyString)
      end
  end.

Definition split (s sep : string) : list string := split_go sep 0 s EmptyString.

(** [s.replace(old, new)] for a non-empty [old]. *)
Fixpoint replace_go (old new : string) (skip : nat) (s : string) : string :=
  match s with
  | EmptyString => EmptyString
  | String c rest =>
      match skip with
      | S k => replace_go old new k rest
      | O =>
          if String.prefix old s
          then new ++ replace_go old new (String.length old - 1) rest
          else String c (replace_go old new 0 rest)
      end
  end.

Definition replace (s old new : string) : string := replace_go old new 0 s.

(** [sub in s] for strings. *)
Fixpoint contains (s sub : string) : bool :=
  String.prefix sub s ||
  match s with
  | EmptyString => false
  | String _ rest => contains rest sub
  end.

(** [s.lower()] and [s.upper()] on ASCII letters. *)
Definition lower_char (c : ascii) : ascii :=
  let n := code c in
  if Nat.leb 65 n && Nat.leb n 90 then ascii_of_nat (n + 32) else c.
Definition upper_char (c : ascii) : ascii :=
  let n := code c in
  if Nat.leb 97 n && Nat.leb n 122 then ascii_of_nat (n - 32) else c.

Fixpoint map_str (f : ascii -> ascii) (s : string) : string :=
  match s with
  | EmptyString => EmptyString
  | String c rest => String (f c) (map_str f rest)
  end.

Definition lower (s : string) : string := map_str lower_char s.
Definition upper (s : string) : string := map_str upper_char s.

(** [repr] and [str] of values, as [str(resources)] and
    [str(map_public_ip_on_launch)] use them.  Strings are quoted with ['],
    or with ["] when they contain ['] and no ["]; numbers print as their
    lexeme. *)
Definition hex_digit (n : nat) : ascii :=
  if Nat.ltb n 10 then ascii_of_nat (48 + n) else ascii_of_nat (87 + n).

Definition escape_char (q : ascii) (c : ascii) : string :=
  let n := code c in
  if Ascii.eqb c "\" then "\\"
  else if Ascii.eqb c q then String "\" (String q EmptyString)
  else if Nat.eqb n 9 then "\t"
  else if Nat.eqb n 10 then "\n"
  else if Nat.eqb n 13 then "\r"
  else if Nat.ltb n 32 || Nat.eqb n 127
  then String "\" (String "x" (String (hex_digit (n / 16)) (String (hex_digit (n mod 16)) EmptyString)))
  else String c EmptyString.

Fixpoint escape_str (q : ascii) (s : string) : string :=
  match s with
  | EmptyString => EmptyString
  | String c rest => escape_char q c ++ escape_str q rest
  end.

Definition dq : ascii := ascii_of_nat 34.

Definition repr_str (s : string) : string :=
  let q := if contains s "'" && negb (contains s (String dq EmptyString)) then dq else "'"%char in
  String q (escape_str q s ++ String q EmptyString).

Fixpoint join (sep : string) (l : list string) : string :=
  match l with
  | [] => EmptyString
  | [x] => x
  | x :: rest => x ++ sep ++ join sep rest
  end.

Fixpoint repr (v : value) : string :=
  match v with
  | VNone => "None"
  | VBool true => "True"
  | VBool false => "False"
  | VNum lexeme => lexeme
  | VStr s => repr_str s
  | VList l => "[" ++ join ", " (map repr l) ++ "]"
  | VDict kv =>
      "{" ++ join ", " (map (fun p => (repr_str (fst p) ++ ": " ++ repr (snd p))%string) kv) ++ "}"
  end.

Definition str (v : value) : string :=
  match v with
  | VStr s => s
  | _ => repr v
  end.

End PyStr.

(* ================================================================= *)
(** ** [json.loads] (CPython's C scanner, strict mode) *)

Module Json.
Import Py PyStr.

Definition is_ws (c : ascii) : bool :=
  let n := code c in Nat.eqb n 32 || Nat.eqb n 9 || Nat.eqb n 10 || Nat.eqb n 13.

Fixpoint skip_ws (s : string) : string :=
  match s with
  | EmptyString => EmptyString
  | String c rest => if is_ws c then skip_ws rest else s
  end.

Fixpoint drop (n : nat) (s : string) : string :=
  match n, s with
  | O, _ => s
  | S k, String _ rest => drop k rest
  | S _, EmptyString => EmptyString
  end.

Definition hex_val (c : ascii) : option N :=
  let n := code c in
  if is_digit c then Some (N.of_nat (n - 48))
  else if Nat.leb 97 n && Nat.leb n 102 then Some (N.of_nat (n - 87))
  else if Nat.leb 65 n && Nat.leb n 70 then Some (N.of_nat (n - 55))
  else None.

Definition hex4 (s : string) : option (N * string) :=
  match s with
  | String a (String b (String c (String d rest))) =>
      match hex_val a, hex_val b, hex_val c, hex_val d with
      | Some x, Some y, Some z, Some w =>
          Some ((x * 4096 + y * 256 + z * 16 + w)%N, rest)
      | _, _, _, _ => None
      end
  | _ => None
  end.

(** A code point as UTF-8 bytes (lone surrogates as three bytes). *)
Definition utf8 (cp : N) : string :=
  let b (n : N) := String (ascii_of_N n) EmptyString in
  if (cp <? 128)%N then b cp
  else if (cp <? 2048)%N then b (192 + cp / 64)%N ++ b (128 + cp mod 64)%N
  else if (cp <? 65536)%N
  then b (224 + cp / 4096)%N ++ b (128 + (cp / 64) mod 64)%N ++ b (128 + cp mod 64)%N
  else b (240 + cp / 262144)%N ++ b (128 + (cp / 4096) mod 64)%N
       ++ b (128 + (cp / 64) mod 64)%N ++ b (128 + cp mod 64)%N.

(** The [\uXXXX] escape, read after its [\u]; a high surrogate followed by
    an escaped low surrogate is joined with it. *)
Definition unicode_escape (s : string) : option (string * string) :=
  match hex4 s with
  | None => None
  | Some (c, rest) =>
      if ((55296 <=? c) && (c <=? 56319))%N then
        match rest with
        | String bs (String u rest2) =>
            if Ascii.eqb bs "\" && Ascii.eqb u "u" then
              match hex4 rest2 with
              | None => None
              | Some (c2, rest3) =>
                  if ((56320 <=? c2) && (c2 <=? 57343))%N
                  then Some (utf8 (65536 + (c - 55296) * 1024 + (c2 - 56320))%N, rest3)
                  else Some (utf8 c, rest)
              end
            else Some (utf8 c, rest)
        | _ => Some (utf8 c, rest)
        end
      else Some (utf8 c, rest)
  end.

Definition simple_escape (e : ascii) : option ascii :=
  if Ascii.eqb e dq then Some dq
  else if Ascii.eqb e "\" then Some "\"%char
  else if Ascii.eqb e "/" then Some "/"%char
  else if Ascii.eqb e "b" then Some (ascii_of_nat 8)
  else if Ascii.eqb e "f" then Some (ascii_of_nat 12)
  else if Ascii.eqb e "n" then Some (ascii_of_nat 10)
  else if Ascii.eqb e "r" then Some (ascii_of_nat 13)
  else if Ascii.eqb e "t" then Some (ascii_of_nat 9)
  else None.

(** The body of a string literal, after its opening quote. *)
Fixpoint scan_string (fuel : nat) (s : string) : option (string * string) :=
  match fuel with
  | O => None
  | S f =>
      match s with
      | EmptyString => None
      | String c rest =>
          if Ascii.eqb c dq then Some (EmptyString, rest)
          else if Ascii.eqb c "\" then
            match rest with
            | EmptyString => None
            | String e rest' =>
                match simple_escape e with
                | Some ch =>
                    match scan_string f rest' with
                    | Some (str, r) => Some (String ch str, r)
                    | None => None
                    end
                | None =>
                    if Ascii.eqb e "u" then
                      match unicode_escape rest' with
                      | Some (u, r1) =>
                          match scan_string f r1 with
                          | Some (str, r) => Some (u ++ str, r)
                          | None => None
                          end
                      | None => None
                      end
                    else None
                end
            end
          else if Nat.ltb (code c) 32 then None
          else
            match scan_string f rest with
            | Some (str, r) => Some (String c str, r)
            | None => None
            end
      end
  end.

Fixpoint digits (s : string) : string * string :=
  match s with
  | String c rest =>
      if is_digit c then let (ds, r) := digits rest in (String c ds, r) else (EmptyString, s)
  | EmptyString => (EmptyString, EmptyString)
  end.

(** A JSON number: an optional minus, [0] or a non-zero digit and more
    digits, an optional fraction, an optional exponent; returns the lexeme. *)
Definition match_number (s : string) : option (string * string) :=
  let '(sign, s1) :=
    match s with
    | String c r => if Ascii.eqb c "-" then ("-", r) else (EmptyString, s)
    | EmptyString => (EmptyString, s)
    end in
  let int_part :=
    match s1 with
    | String c r =>
        if Ascii.eqb c "0" then Some ("0", r)
        else if is_digit19 c then let (ds, r') := digits r in Some (String c ds, r')
        else None
    | EmptyString => None
    end in
  match int_part with
  | None => None
  | Some (ip, r1) =>
      let '(fp, r2) :=
        match r1 with
        | String p (String d r) =>
            if Ascii.eqb p "." && is_digit d
            then let (ds, r') := digits r in (String p (String d ds), r')
            else (EmptyString, r1)
        | _ => (EmptyString, r1)
        end in
      let '(ep, r3) :=
        match r2 with
        | String e r =>
            if Ascii.eqb e "e" || Ascii.eqb e "E" then
              let '(sg, r') :=
                match r with
                | String c r'' =>
                    if Ascii.eqb c "+" || Ascii.eqb c "-" then (String c EmptyString, r'')
                    else (EmptyString, r)
                | EmptyString => (EmptyString, r)
                end in
              let (ds, r'') := digits r' in
              if String.eqb ds EmptyString then (EmptyString, r2)
              else (String e (sg ++ ds), r'')
            else (EmptyString, r2)
        | EmptyString => (EmptyString, r2)
        end in
      Some (sign ++ ip ++ fp ++ ep, r3)
  end.

(** Values; objects after their [{] and whitespace, arrays after their [[]
    and whitespace.  Every call reads at least one character, so a fuel of
    the input's length plus one is never exhausted. *)
Fixpoint parse_value (fuel : nat) (s : string) {struct fuel} : option (value * string) :=
  match fuel with
  | O => None
  | S f =>
      match s with
      | EmptyString => None
      | String c rest =>
          if Ascii.eqb c dq then
            match scan_string (S (String.length rest)) rest with
            | Some (str, r) => Some (VStr str, r)
            | None => None
            end
          else if Ascii.eqb c "{" then
            match skip_ws rest with
            | String c' r => if Ascii.eqb c' "}" then Some (VDict [], r)
                             else parse_members f (skip_ws rest) []
            | EmptyString => None
            end
          else if Ascii.eqb c "[" then
            match skip_ws rest with
            | String c' r => if Ascii.eqb c' "]" then Some (VList [], r)
                             else parse_elems f (skip_ws rest) []
            | EmptyString => None
            end
          else if String.prefix "null" s then Some (VNone, drop 4 s)
          else if String.prefix "true" s then Some (VBool true, drop 4 s)
          else if String.prefix "false" s then Some (VBool false, drop 5 s)
          else if String.prefix "NaN" s then Some (VNum "NaN", drop 3 s)
          else if String.prefix "Infinity" s then Some (VNum "Infinity", drop 8 s)
          else if String.prefix "-Infinity" s then Some (VNum "-Infinity", drop 9 s)
          else
            match match_number s with
            | Some (lexeme, r) => Some (VNum lexeme, r)
            | None => None
            end
      end
  end
with parse_members (fuel : nat) (s : string) (acc : list (string * value)) {struct fuel}
  : option (value * string) :=
  match fuel with
  | O => None
  | S f =>
      match s with
      | String c rest =>
          if Ascii.eqb c dq then
            match scan_string (S (String.length rest)) rest with
            | Some (k, r1) =>
                match skip_ws r1 with
                | String colon r2 =>
                    if Ascii.eqb colon ":" then
                      match parse_value f (skip_ws r2) with
                      | Some (v, r3) =>
                          let acc' := dict_set acc k v in
                          match skip_ws r3 with
                          | String d r4 =>
                              if Ascii.eqb d "}" then Some (VDict acc', r4)
                              else if Ascii.eqb d "," then parse_members f (skip_ws r4) acc'
                              else None
                          | EmptyString => None
                          end
                      | None => None
                      end
                    else None
                | EmptyString => None
                end
            | None => None
            end
          else None
      | EmptyString => None
      end
  end
with parse_elems (fuel : nat) (s : string) (acc : list value) {struct fuel}
  : option (value * string) :=
  match fuel with
  | O => None
  | S f =>
      match parse_value f s with
      | Some (v, r1) =>
          let acc' := (acc ++ [v])%list in
          match skip_ws r1 with
          | String d r2 =>
              if Ascii.eqb d "]" then Some (VList acc', r2)
              else if Ascii.eqb d "," then parse_elems f (skip_ws r2) acc'
              else None
          | EmptyString => None
          end
      | None => None
      end
  end.

(** [json.loads(s)]: [None] stands for [JSONDecodeError]. *)
Definition loads (s : string) : option value :=
  match parse_value (S (String.length s)) (skip_ws s) with
  | Some (v, r) => if String.eqb (skip_ws r) EmptyString then Some v else None
  | None => None
  end.

End Json.

(* ================================================================= *)
(** ** Data model ([models.py]) and the networkx graphs *)

Module Model.
Import Py PyStr.

(** [models.Resource] *)
Record Resource : Type := mkResource {
  id : string;
  type : string;
  name : string;
  attributes : list (string * value)
}.

Definition is_ai_service (r : Resource) : bool :=
  existsb (String.eqb (type r))
    ["aws_sagemaker_endpoint"; "aws_bedrock_model_invocation_logging_configuration";
     "aws_bedrock_agent"].

Definition is_vector_store (r : Resource) : bool :=
  contains (type r) "opensearch" || contains (type r) "vector".

(** [models.RuleResult] *)
Record RuleResult : Type := mkRuleResult {
  rule_id : string;
  resource_id : string;
  is_compliant : bool;
  description : string;
  severity : string;
  remediation : string
}.

(** [models.AttackNode] and [models.AttackPath] *)
Record AttackNode : Type := mkAttackNode { node_id : string; node_type : string }.
Record AttackPath : Type := mkAttackPath {
  steps : list AttackNode;
  risk_score : nat;
  path_severity : string
}.

(** The resource graph, an [nx.DiGraph] built by [GraphBuilder]: nodes in
    insertion order with their ['resource'] attribute, and for each node its
    successors in insertion order with the edge's ['relationship'] attribute
    ([None] for an edge without one). *)
Record graph : Type := mkGraph {
  nodes : list (string * option Resource);
  succ : list (string * list (string * option string))
}.

(** [n in G] *)
Definition has_node (g : graph) (n : string) : bool :=
  existsb (fun p => String.eqb (fst p) n) (nodes g).

(** [G.nodes[n].get('resource')]; a node that only an edge created carries
    no data. *)
Definition node_resource (g : graph) (n : string) : option Resource :=
  match find (fun p => String.eqb (fst p) n) (nodes g) with
  | Some (_, r) => r
  | None => None
  end.

Definition adj (g : graph) (u : string) : list (string * option string) :=
  match find (fun p => String.eqb (fst p) u) (succ g) with
  | Some (_, l) => l
  | None => []
  end.

(** [G.successors(u)] *)
Definition successors (g : graph) (u : string) : list string := map fst (adj g u).

(** [G.get_edge_data(u, v)]: [None] when there is no edge, [Some rel] with
    the edge's relationship otherwise. *)
Definition get_edge_data (g : graph) (u v : string) : option (option string) :=
  match find (fun p => String.eqb (fst p) v) (adj g u) with
  | Some (_, rel) => Some rel
  | None => None
  end.

(** [G.edges(data=True)]: by source in node order, then by insertion. *)
Definition edges (g : graph) : list (string * string * option string) :=
  flat_map (fun p => map (fun q => (fst p, fst q, snd q)) (adj g (fst p))) (nodes g).

Definition rel_is (rel : option string) (tag : string) : bool :=
  match rel with
  | Some r => String.eqb r tag
  | None => false
  end.

(** The attack graph, an [nx.DiGraph] whose edges carry [method] and [risk]:
    its nodes, and its edges in insertion order (one entry per ordered pair).
    The successors of a node are the targets of its entries in this order,
    its predecessors the sources. *)
Record edge : Type := mkEdge { src : string; dst : string; method : string; risk : string }.

Record agraph : Type := mkAgraph { anodes : list string; aedges : list edge }.

Definition is_edge (u v : string) (e : edge) : bool :=
  String.eqb (src e) u && String.eqb (dst e) v.

Definition amem (ag : agraph) (n : string) : bool := existsb (String.eqb n) (anodes ag).

Definition add_node (ag : agraph) (n : string) : agraph :=
  if amem ag n then ag else mkAgraph (anodes ag ++ [n])%list (aedges ag).

(** [G.add_edge(u, v, method=m, risk=r)]: an existing edge keeps its place
    and gets the new attributes. *)
Definition add_edge (ag : agraph) (e : edge) : agraph :=
  let ag1 := add_node (add_node ag (src e)) (dst e) in
  if existsb (is_edge (src e) (dst e)) (aedges ag1)
  then mkAgraph (anodes ag1)
         (map (fun e' => if is_edge (src e) (dst e) e' then e else e') (aedges ag1))
  else mkAgraph (anodes ag1) (aedges ag1 ++ [e])%list.

(** [G.remove_edge(u, v)] (the fix loop only removes edges it read off an
    enumerated path, which are present). *)
Definition remove_edge (ag : agraph) (u v : string) : agraph :=
  mkAgraph (anodes ag) (filter (fun e => negb (is_edge u v e)) (aedges ag)).

Definition asucc (ag : agraph) (u : string) : list string :=
  map dst (filter (fun e => String.eqb (src e) u) (aedges ag)).

Definition apred (ag : agraph) (v : string) : list string :=
  map src (filter (fun e => String.eqb (dst e) v) (aedges ag)).

(** [G.get_edge_data(u, v)] on the attack graph: [(method, risk)]. *)
Definition edge_data (ag : agraph) (u v : string) : option (string * string) :=
  match find (is_edge u v) (aedges ag) with
  | Some e => Some (method e, risk e)
  | None => None
  end.

End Model.

(* ================================================================= *)
(** ** [AttackEngine]: the policy evaluator *)

Module Policy.
Import Py PyStr Model.

(** [_normalize_policy]: [json.loads] failing gives [{}]. *)
Definition _normalize_policy (pol_ref : value) : value :=
  match pol_ref with
  | VDict _ => pol_ref
  | VStr s =>
      let clean := strip s in
      let clean :=
        if startswith clean "<<EOF" then replace (hd EmptyString (split clean "EOF")) "<<EOF" ""
        else if startswith clean "<<-EOF" then replace (hd EmptyString (split clean "EOF")) "<<-EOF" ""
        else clean in
      match Json.loads clean with
      | Some v => v
      | None => VDict []
      end
  | _ => VDict []
  end.

(** [_to_list] *)
Definition _to_list (v : value) : list value :=
  match v with
  | VList l => l
  | VStr s => [VStr s]
  | _ => []
  end.

(** [_check_action_match]: [act.endswith] raises on a non-string action. *)
Fixpoint _check_action_match (actions : list value) (targets : list string) : result bool :=
  match actions with
  | [] => Ok false
  | act :: rest =>
      if existsb (is_str act) targets then Ok true
      else
        match act with
        | VStr a =>
            if endswith_char a "*" then
              let prefix := rstrip_char a "*" in
              if existsb (fun t => startswith t prefix) targets then Ok true
              else _check_action_match rest targets
            else _check_action_match rest targets
        | _ => Raise AttributeError
        end
  end.

(** The body of the statement loop of [_check_permission] for one
    statement: [Ok (Some c)] returns [c], [Ok None] goes on to the next
    statement.  (The [NotAction] block computes a list it never uses.) *)
Definition statement_capability (target_service : string) (target : Resource) (stmt : value)
  : result (option string) :=
  match stmt with
  | VDict kv =>
      let effect := dict_get kv "Effect" (VStr "Allow") in
      if negb (is_str effect "Allow") then Ok None else
      let actions := _to_list (dict_get kv "Action" VNone) in
      let resources := _to_list (dict_get kv "Resource" VNone) in
      if list_has_str actions "*" && list_has_str resources "*" then Ok (Some "Full Admin Access")
      else if existsb (fun act => is_str act (target_service ++ ":*") && list_has_str resources "*") actions
      then Ok (Some ("Full " ++ upper target_service ++ " Access"))
      else
        s3 <- (if String.eqb (type target) "aws_s3_bucket" then
                 m <- _check_action_match actions ["s3:GetObject"; "s3:PutObject"; "s3:*"] ;;
                 if m && (list_has_str resources "*" || contains (str (VList resources)) (name target))
                 then Ok (Some "S3 Data Access") else Ok None
               else Ok None) ;;
        match s3 with
        | Some c => Ok (Some c)
        | None =>
            if is_ai_service target then
              m1 <- _check_action_match actions ["bedrock:InvokeAgent"] ;;
              if m1 then Ok (Some "Agent Invocation") else
              m2 <- _check_action_match actions ["bedrock:InvokeModel"; "sagemaker:InvokeEndpoint"] ;;
              if m2 then Ok (Some "Model Invocation") else Ok None
            else Ok None
        end
  | _ => Ok None
  end.

Fixpoint check_statements (target_service : string) (target : Resource) (stmts : list value)
  : result (option string) :=
  match stmts with
  | [] => Ok None
  | stmt :: rest =>
      r <- statement_capability target_service target stmt ;;
      match r with
      | Some c => Ok (Some c)
      | None => check_statements target_service target rest
      end
  end.

(** The loop over policies: [policy_doc.get] raises on a truthy non-dict
    document, iterating a [Statement] that is no list, string or dict raises. *)
Fixpoint check_policies (target_service : string) (target : Resource) (policies : list value)
  : result (option string) :=
  match policies with
  | [] => Ok None
  | pol :: rest =>
      let policy_doc := _normalize_policy pol in
      if negb (truthy policy_doc) then check_policies target_service target rest else
      statements <- (match policy_doc with
                     | VDict kv => Ok (dict_get kv "Statement" (VList []))
                     | _ => Raise AttributeError
                     end) ;;
      let statements := match statements with VDict _ => VList [statements] | _ => statements end in
      stmts <- py_iter statements ;;
      r <- check_statements target_service target stmts ;;
      match r with
      | Some c => Ok (Some c)
      | None => check_policies target_service target rest
      end
  end.

(** [_check_permission]: [target.type.split("_")[1]] raises [IndexError]
    on a type without an underscore. *)
Definition _check_permission (policies : list value) (target : Resource) : result (option string) :=
  target_service <- index (split (type target) "_") 1 ;;
  check_policies target_service target policies.

End Policy.

(* ================================================================= *)
(** ** [AttackEngine]: the attack graph constructor *)

Module Attack.
Import Py PyStr Model Policy.

Definition _check_cidrs (cidrs : value) : bool :=
  if negb (truthy cidrs) then false else
  match cidrs with
  | VList l =>
      existsb (fun c => match c with
                        | VList l' => list_has_str l' "0.0.0.0/0"
                        | _ => is_str c "0.0.0.0/0"
                        end) l
  | _ => false
  end.

Definition _is_sg_public (res : Resource) : bool :=
  let ingresses := dict_get (attributes res) "ingress" (VList []) in
  let ingresses := match ingresses with VList l => l | v => [v] end in
  existsb (fun rule =>
             match rule with
             | VList subs =>
                 existsb (fun sub => match sub with
                                     | VDict kv => _check_cidrs (dict_get kv "cidr_blocks" (VList []))
                                     | _ => false
                                     end) subs
             | VDict kv => _check_cidrs (dict_get kv "cidr_blocks" (VList []))
             | _ => false
             end) ingresses.

(** The subnet test of the first loop: a [located_in] successor whose
    [map_public_ip_on_launch] prints as [false] in any case. *)
Definition private_subnet (g : graph) (rid s : string) : bool :=
  match get_edge_data g rid s with
  | Some rel =>
      rel_is rel "located_in" &&
      match node_resource g s with
      | Some subnet_res =>
          String.eqb (lower (str (dict_get (attributes subnet_res) "map_public_ip_on_launch" (VBool true))))
                     "false"
      | None => false
      end
  | None => false
  end.

(** The test of the second loop: a [protected_by] successor that is a public
    security group. *)
Definition public_sg (g : graph) (rid s : string) : bool :=
  match get_edge_data g rid s with
  | Some rel =>
      rel_is rel "protected_by" &&
      match node_resource g s with
      | Some sg_node => _is_sg_public sg_node
      | None => false
      end
  | None => false
  end.

(** [_is_instance_publicly_exposed]: the first loop returns [False] at the
    first private subnet, the second returns [True] at the first public
    security group. *)
Definition _is_instance_publicly_exposed (g : graph) (res : Resource) : bool :=
  if has_node g (id res) then
    if existsb (private_subnet g (id res)) (successors g (id res)) then false
    else existsb (public_sg g (id res)) (successors g (id res))
  else false.

Definition _is_bucket_public (res : Resource) : bool :=
  let acl := dict_get (attributes res) "acl" (VStr "") in
  let acl := match acl with VList (a :: _) => a | _ => acl end in
  is_str acl "public-read" || is_str acl "public-read-write".

Definition _is_vector_store_exposed (res : Resource) : bool := true.

Definition _get_attached_policies (g : graph) (role_id : string) : list value :=
  if has_node g role_id then
    flat_map (fun s =>
                match get_edge_data g role_id s with
                | Some rel =>
                    if rel_is rel "has_policy" then
                      match node_resource g s with
                      | Some policy_res =>
                          let raw_policy := dict_get (attributes policy_res) "policy" VNone in
                          if truthy raw_policy then [raw_policy] else []
                      | None => []
                      end
                    else []
                | None => []
                end) (successors g role_id)
  else [].

(** Phase 1, for one node. *)
Definition ingress_edges (node : string) (data : option Resource) (g : graph) : list edge :=
  match data with
  | None => []
  | Some res =>
      ((if String.eqb (type res) "aws_instance" && _is_instance_publicly_exposed g res
        then [mkEdge "Internet" node "Network Reachability" "Exploit Public Service (SSRF/RCE)"]
        else [])
       ++ (if String.eqb (type res) "aws_s3_bucket" && _is_bucket_public res
           then [mkEdge "Internet" node "Public ACL/Policy" "Data Leakage"] else [])
       ++ (if is_vector_store res && _is_vector_store_exposed res
           then [mkEdge "Internet" node "Public Endpoint" "Knowledge Base Theft"] else []))%list
  end.

Definition phase1 (g : graph) : list edge :=
  flat_map (fun p => ingress_edges (fst p) (snd p) g) (nodes g).

(** Phase 2, for one resource-graph edge. *)
Definition identity_edges (u v : string) (rel : option string) : list edge :=
  ((if rel_is rel "assumes_role" then [mkEdge u v "IMDS/Credential Access" "Lateral Movement"] else [])
   ++ (if rel_is rel "uses_identity"
       then [mkEdge u v "Prompt Injection / Tool Abuse" "Indirect Privilege Escalation"] else [])
   ++ (if rel_is rel "linked_role" then [mkEdge u v "Identity Link" "Lateral Movement"] else []))%list.

Definition phase2 (g : graph) : list edge :=
  flat_map (fun e => match e with (u, v, rel) => identity_edges u v rel end) (edges g).

(** Phase 3: for each role, each other node with a resource. *)
Fixpoint permission_edges (role_id : string) (policies : list value)
         (targets : list (string * option Resource)) : result (list edge) :=
  match targets with
  | [] => Ok []
  | (target_id, target_data) :: rest =>
      match target_data with
      | None => permission_edges role_id policies rest
      | Some target_res =>
          if String.eqb target_id role_id then permission_edges role_id policies rest else
          capability <- _check_permission policies target_res ;;
          later <- permission_edges role_id policies rest ;;
          match capability with
          | Some c =>
              if negb (String.eqb c "")
              then Ok (mkEdge role_id target_id "IAM Permission allow" c :: later)
              else Ok later
          | None => Ok later
          end
      end
  end.

Definition roles (g : graph) : list string :=
  map fst (filter (fun p => match snd p with
                            | Some r => String.eqb (type r) "aws_iam_role"
                            | None => false
                            end) (nodes g)).

Fixpoint phase3_roles (g : graph) (rs : list string) : result (list edge) :=
  match rs with
  | [] => Ok []
  | role_id :: rest =>
      here <- permission_edges role_id (_get_attached_policies g role_id) (nodes g) ;;
      later <- phase3_roles g rest ;;
      Ok (here ++ later)%list
  end.

Definition phase4 (g : graph) : list edge :=
  flat_map (fun e => match e with
                     | (u, v, rel) =>
                         if rel_is rel "logs_to"
                         then [mkEdge u v "Data Flow" "Log Poisoning / Indirect Write"] else []
                     end) (edges g).

(** [_build_attack_overlay]: the graph starts with the node [Internet]; the
    phases add their edges in order (no phase reads the attack graph, so the
    additions are collected first and applied in the same order). *)
Definition _build_attack_overlay (g : graph) : result agraph :=
  p3 <- phase3_roles g (roles g) ;;
  Ok (fold_left add_edge (phase1 g ++ phase2 g ++ p3 ++ phase4 g)%list
                (mkAgraph ["Internet"] [])).

(** [AttackEngine(resource_graph, rule_results)] *)
Record AttackEngine : Type := mkEngine {
  engine_graph : graph;
  rules : list RuleResult;
  attack_graph : agraph
}.

Definition new_engine (resource_graph : graph) (rule_results : list RuleResult) : result AttackEngine :=
  ag <- _build_attack_overlay resource_graph ;;
  Ok (mkEngine resource_graph rule_results ag).

End Attack.

(* ================================================================= *)
(** ** networkx 3.2.1: [shortest_path] and [all_simple_paths] *)

Module NX.
Import Py Model.

Definition parents := list (string * option string).

Definition has_key (m : parents) (k : string) : bool := existsb (fun p => String.eqb (fst p) k) m.

Definition parent (m : parents) (k : string) : option string :=
  match find (fun p => String.eqb (fst p) k) m with
  | Some (_, v) => v
  | None => None
  end.

(** One forward level of [_bidirectional_pred_succ]: the pairs [(v, w)] for
    [v] in the fringe and [w] in [G.succ[v]], in order; stops at the first
    [w] already reached backwards. *)
Fixpoint forward_scan (pairs : list (string * string)) (pred succ : parents) (fringe : list string)
  : parents * list string * option string :=
  match pairs with
  | [] => (pred, fringe, None)
  | (v, w) :: rest =>
      let '(pred', fringe') :=
        if has_key pred w then (pred, fringe) else ((pred ++ [(w, Some v)])%list, (fringe ++ [w])%list) in
      if has_key succ w then (pred', fringe', Some w) else forward_scan rest pred' succ fringe'
  end.

Fixpoint reverse_scan (pairs : list (string * string)) (pred succ : parents) (fringe : list string)
  : parents * list string * option string :=
  match pairs with
  | [] => (succ, fringe, None)
  | (v, w) :: rest =>
      let '(succ', fringe') :=
        if has_key succ w then (succ, fringe) else ((succ ++ [(w, Some v)])%list, (fringe ++ [w])%list) in
      if has_key pred w then (succ', fringe', Some w) else reverse_scan rest pred succ' fringe'
  end.

(** The [while forward_fringe and reverse_fringe] loop; each round adds a
    node to [pred] or [succ] or ends, so twice the node count plus two rounds
    suffice. *)
Fixpoint bidirectional (fuel : nat) (ag : agraph) (pred succ : parents) (ff rf : list string)
  : option (parents * parents * string) :=
  match fuel with
  | O => None
  | S f =>
      match ff, rf with
      | [], _ | _, [] => None
      | _, _ =>
          if Nat.leb (length ff) (length rf) then
            let '(pred', ff', meet) :=
              forward_scan (flat_map (fun v => map (pair v) (asucc ag v)) ff) pred succ [] in
            match meet with
            | Some w => Some (pred', succ, w)
            | None => bidirectional f ag pred' succ ff' rf
            end
          else
            let '(succ', rf', meet) :=
              reverse_scan (flat_map (fun v => map (pair v) (apred ag v)) rf) pred succ [] in
            match meet with
            | Some w => Some (pred, succ', w)
            | None => bidirectional f ag pred succ' ff rf'
            end
      end
  end.

Fixpoint walk (fuel : nat) (m : parents) (w : string) : list string :=
  match fuel with
  | O => []
  | S f => w :: match parent m w with Some w' => walk f m w' | None => [] end
  end.

(** [nx.shortest_path(G, source, target)] (unweighted: bidirectional BFS);
    [None] for [NetworkXNoPath] and [NodeNotFound]. *)
Definition shortest_path (ag : agraph) (source target : string) : option (list string) :=
  if negb (amem ag source && amem ag target) then None else
  let res :=
    if String.eqb source target then Some ([(target, None)], [(source, None)], source)
    else bidirectional (2 * length (anodes ag) + 2) ag [(source, None)] [(target, None)]
                       [source] [target] in
  match res with
  | None => None
  | Some (pred, succ, w) =>
      Some (rev (walk (S (length pred)) pred w) ++ tl (walk (S (length succ)) succ w))%list
  end.

(** [_all_simple_paths_graph] for one target: the suffixes after [x] of the
    simple paths to [target]; [fuel] is the cutoff minus the number of nodes
    already on the path, and only a path that may still grow is extended. *)
Fixpoint paths_from (ag : agraph) (target : string) (fuel : nat) (visited : list string) (x : string)
  : list (list string) :=
  flat_map (fun c =>
              if existsb (String.eqb c) visited then []
              else if String.eqb c target then [[c]]
              else match fuel with
                   | O => []
                   | S f => map (cons c) (paths_from ag target f (c :: visited) c)
                   end) (asucc ag x).

(** [nx.all_simple_paths(G, source, target, cutoff)], with the
    [NodeNotFound] cases giving no path.  networkx 3.2.1 reads a target that
    is not a node as the set of its characters; no node of an attack graph
    ([Internet] or a resource id [type.name]) is a single character, so such a
    target has no path either. *)
Definition all_simple_paths (ag : agraph) (source target : string) (cutoff : nat) : list (list string) :=
  if negb (amem ag source) then [] else
  if negb (amem ag target) then [] else
  if String.eqb source target then [] else
  match cutoff with
  | O => []
  | S c => map (cons source) (paths_from ag target c [source] source)
  end.

End NX.

(* ================================================================= *)
(** ** [AttackEngine.find_critical_path] and [FixEngine] *)

Module Engine.
Import Py PyStr Model Attack.

(** The sinks: targets of [logs_to] edges in edge order (repeats kept),
    then the buckets not yet listed, in node order. *)
Definition logs_to_targets (g : graph) : list string :=
  flat_map (fun e => match e with (u, v, rel) => if rel_is rel "logs_to" then [v] else [] end) (edges g).

Definition sinks (g : graph) : list string :=
  fold_left (fun targets p =>
               match snd p with
               | Some res =>
                   if String.eqb (type res) "aws_s3_bucket" && negb (existsb (String.eqb (fst p)) targets)
                   then (targets ++ [fst p])%list else targets
               | None => targets
               end) (nodes g) (logs_to_targets g).

Definition attack_node (g : graph) (pid : string) : AttackNode :=
  let node_type :=
    if has_node g pid then
      match node_resource g pid with Some res => type res | None => "External" end
    else "External" in
  mkAttackNode pid node_type.

(** The path found for one sink, if any. *)
Definition path_to (g : graph) (ag : agraph) (target : string) : option (list string) :=
  if negb (amem ag target) then None else NX.shortest_path ag "Internet" target.

(** [AttackPath(steps=nodes, risk_score=len(nodes) * 20, severity="Critical")] *)
Definition attack_path (g : graph) (path_ids : list string) : AttackPath :=
  let ns := map (attack_node g) path_ids in
  mkAttackPath ns (length ns * 20) "Critical".

(** The loop over the sinks: a path replaces the one kept so far only when it
    has strictly fewer steps. *)
Fixpoint select_path (g : graph) (ag : agraph) (targets : list string) (shortest : option AttackPath)
  : option AttackPath :=
  match targets with
  | [] => shortest
  | target :: rest =>
      match path_to g ag target with
      | None => select_path g ag rest shortest
      | Some path_ids =>
          let path := attack_path g path_ids in
          let shortest' :=
            match shortest with
            | None => Some path
            | Some sp => if Nat.ltb (length (steps path)) (length (steps sp)) then Some path else shortest
            end in
          select_path g ag rest shortest'
      end
  end.

Definition find_critical_path (eng : AttackEngine) : option AttackPath :=
  let targets := sinks (engine_graph eng) in
  match targets with
  | [] => None
  | _ => select_path (engine_graph eng) (attack_graph eng) targets None
  end.

(** [fix_engine.Remediation] *)
Record Remediation : Type := mkRemediation {
  rem_id : string;
  rem_description : string;
  paths_blocked : nat;
  edge_source : string;
  edge_target : string;
  risk_type : string
}.

(** [FixEngine(attack_graph, targets)] *)
Record FixEngine : Type := mkFixEngine {
  original_graph : agraph;
  fix_targets : list string
}.

Definition internet_node : string := "Internet".

(** [_find_all_paths] *)
Definition _find_all_paths (targets : list string) (ag : agraph) : list (list string) :=
  flat_map (fun target => NX.all_simple_paths ag internet_node target 10) targets.

Fixpoint path_edges (p : list string) : list (string * string) :=
  match p with
  | u :: ((v :: _) as rest) => (u, v) :: path_edges rest
  | _ => []
  end.

Definition edge_eqb (e1 e2 : string * string) : bool :=
  String.eqb (fst e1) (fst e2) && String.eqb (snd e1) (snd e2).

(** [edge_counts[edge] = edge_counts.get(edge, 0) + 1] on an insertion-ordered dict. *)
Fixpoint incr (counts : list ((string * string) * nat)) (e : string * string)
  : list ((string * string) * nat) :=
  match counts with
  | [] => [(e, 1)]
  | (e', n) :: rest => if edge_eqb e' e then (e', S n) :: rest else (e', n) :: incr rest e
  end.

Definition edge_counts (all_paths : list (list string)) : list ((string * string) * nat) :=
  fold_left incr (flat_map path_edges all_paths) [].

(** [max(edge_counts, key=edge_counts.get)]: the first key of largest count. *)
Definition max_by_count (counts : list ((string * string) * nat)) : option ((string * string) * nat) :=
  match counts with
  | [] => None
  | first :: rest =>
      Some (fold_left (fun best kv => if Nat.ltb (snd best) (snd kv) then kv else best) rest first)
  end.

Definition _get_fix_description (method source target : string) : string :=
  if String.eqb method "Network Reachability" then "Restrict Security Group on " ++ target ++ " (Remove 0.0.0.0/0)"
  else if String.eqb method "Public ACL/Policy" then "Make S3 Bucket " ++ target ++ " Private (Block Public Access)"
  else if String.eqb method "IMDS/Credential Access" then "Enforce IMDSv2 on " ++ source ++ " to prevent credential theft"
  else if String.eqb method "IAM Permission allow" then "Scope down IAM Policy on " ++ source ++ " to deny access to " ++ target
  else if String.eqb method "Prompt Injection / Tool Abuse" then "Implement Input Guardrails on Agent " ++ source ++ " or restrict Role " ++ target
  else if String.eqb method "Data Flow" then "Encrypt Logs or Restrict Write Access from " ++ source ++ " to " ++ target
  else if String.eqb method "Public Endpoint" then "Enable VPC Access Policy for Vector Store " ++ target
  else "Break relationship between " ++ source ++ " and " ++ target.

(** [f"{n:03d}"] *)
Fixpoint decimal (fuel n : nat) : string :=
  match fuel with
  | O => EmptyString
  | S f =>
      let d := String (ascii_of_nat (48 + n mod 10)) EmptyString in
      if Nat.ltb n 10 then d else decimal f (n / 10) ++ d
  end.

Definition pad3 (n : nat) : string :=
  let s := decimal (S n) n in
  if Nat.ltb (String.length s) 3 then
    match 3 - String.length s with
    | 1 => "0" ++ s
    | 2 => "00" ++ s
    | _ => s
    end
  else s.

(** One round of the [while True] loop of [calculate_fix_order]: [None]
    when it breaks, otherwise the remediation and the graph without its
    edge. *)
Definition fix_step (targets : list string) (current_graph : agraph) (done_ : nat)
  : option (Remediation * agraph) :=
  let all_paths := _find_all_paths targets current_graph in
  match all_paths with
  | [] => None
  | _ =>
      match max_by_count (edge_counts all_paths) with
      | None => None
      | Some ((u, v), count) =>
          let '(method, risk_type) :=
            match edge_data current_graph u v with
            | Some mr => mr
            | None => ("Unknown Method", "Unknown Risk")
            end in
          let rem := mkRemediation ("FIX-" ++ pad3 (done_ + 1)) (_get_fix_description method u v)
                                   count u v risk_type in
          Some (rem, remove_edge current_graph u v)
      end
  end.

Fixpoint fix_loop (fuel : nat) (targets : list string) (current_graph : agraph)
         (remediations : list Remediation) : option (list Remediation * agraph) :=
  match fuel with
  | O => None
  | S f =>
      match fix_step targets current_graph (length remediations) with
      | None => Some (remediations, current_graph)
      | Some (rem, g') => fix_loop f targets g' (remediations ++ [rem])%list
      end
  end.

(** [calculate_fix_order]: the loop runs on a copy of the graph; every round
    removes at least one enumerated path (lemma [fix_step_decreases] below),
    so one round more than the initial number of paths lets it reach its
    [break]. *)
Definition calculate_fix_order (fe : FixEngine) : option (list Remediation) :=
  let g := original_graph fe in
  match fix_loop (S (length (_find_all_paths (fix_targets fe) g))) (fix_targets fe) g [] with
  | Some (rems, _) => Some rems
  | None => None
  end.

End Engine.

(* ================================================================= *)
(** ** [RulesEngine] ([rules_engine.py]) *)

Module Rules.
Import Py PyStr Model.

(** [item in container] for a string [item]: dict keys, list elements,
    substrings; [None], bools and numbers are not containers. *)
Definition py_contains (container : value) (item : string) : result bool :=
  match container with
  | VDict kv => Ok (dict_has kv item)
  | VList l => Ok (list_has_str l item)
  | VStr s => Ok (contains s item)
  | _ => Raise TypeError
  end.

(** The loop over the sub-blocks of a list ingress rule:
    [cidrs.extend(sub.get("cidr_blocks", []))] for each dict [sub]
    ([extend] takes any iterable and raises on the others). *)
Fixpoint extend_cidrs (subs : list value) (cidrs : list value) : result (list value) :=
  match subs with
  | [] => Ok cidrs
  | VDict kv :: rest =>
      items <- py_iter (dict_get kv "cidr_blocks" (VList [])) ;;
      extend_cidrs rest (cidrs ++ items)%list
  | _ :: rest => extend_cidrs rest cidrs
  end.

(** [cidrs] for one ingress rule. *)
Definition rule_cidrs (rule : value) : result value :=
  match rule with
  | VList subs => l <- extend_cidrs subs [] ;; Ok (VList l)
  | VDict kv => Ok (dict_get kv "cidr_blocks" (VList []))
  | _ => Ok (VList [])
  end.

Definition net_001 (res : Resource) : RuleResult :=
  mkRuleResult "NET-001" (id res) false "Security Group allows 0.0.0.0/0 ingress" "High"
               "Restrict ingress to specific IPs.".

(** The loop over the ingress rules: one [NET-001] per rule whose [cidrs]
    is a list holding the string [0.0.0.0/0]. *)
Fixpoint sg_findings (res : Resource) (ingresses : list value) : result (list RuleResult) :=
  match ingresses with
  | [] => Ok []
  | rule :: rest =>
      cidrs <- rule_cidrs rule ;;
      later <- sg_findings res rest ;;
      Ok ((match cidrs with
           | VList l => if list_has_str l "0.0.0.0/0" then [net_001 res] else []
           | _ => []
           end) ++ later)%list
  end.

Definition _check_sg_public_exposure (res : Resource) : result (list RuleResult) :=
  let ingresses := dict_get (attributes res) "ingress" (VList []) in
  let ingresses := match ingresses with VList l => l | v => [v] end in
  sg_findings res ingresses.

Definition _check_s3_public (res : Resource) : list RuleResult :=
  let acl := dict_get (attributes res) "acl" (VStr "") in
  let acl := match acl with VList (a :: _) => a | _ => acl end in
  if is_str acl "public-read" || is_str acl "public-read-write"
  then [mkRuleResult "STO-001" (id res) false ("S3 Bucket " ++ name res ++ " is public") "Critical"
                     "Set ACL to private and enable Block Public Access."]
  else [].

(** [s] in double quotes. *)
Definition quoted (s : string) : string := String dq (s ++ String dq EmptyString).

Definition _check_iam_permissive (res : Resource) : list RuleResult :=
  let doc := dict_get (attributes res) "policy" (VStr "") in
  let doc := match doc with VList (d :: _) => d | _ => doc end in
  let doc_str := str doc in
  if contains doc_str (quoted "Effect" ++ ": " ++ quoted "Allow") &&
     (contains doc_str (quoted "Resource" ++ ": " ++ quoted "*") ||
      contains doc_str (quoted "Action" ++ ": " ++ quoted "*"))
  then [mkRuleResult "IAM-001" (id res) false "IAM Policy allows overly permissive access (*)" "High"
                     "Scope permissions to least privilege."]
  else [].

(** [in] raises [TypeError] on a [logging_config] that is no container. *)
Definition _check_ai_logging_plaintext (res : Resource) : result (list RuleResult) :=
  let logging_config := dict_get (attributes res) "logging_config" (VDict []) in
  let logging_config := match logging_config with VList (c :: _) => c | _ => logging_config end in
  has <- py_contains logging_config "s3_config" ;;
  if has
  then Ok [mkRuleResult "AI-001" (id res) false
                        "AI Model Invocation Logs stored in S3 (Sensitive Data Risk)" "Medium"
                        "Ensure target S3 bucket is encrypted and private."]
  else Ok [].

Definition check_resource (res : Resource) : result (list RuleResult) :=
  if String.eqb (type res) "aws_security_group" then _check_sg_public_exposure res
  else if String.eqb (type res) "aws_s3_bucket" then Ok (_check_s3_public res)
  else if String.eqb (type res) "aws_iam_policy" then Ok (_check_iam_permissive res)
  else if String.eqb (type res) "aws_bedrock_model_invocation_logging_configuration"
  then _check_ai_logging_plaintext res
  else Ok [].

(** [RulesEngine.run] *)
Fixpoint run (resources : list Resource) : result (list RuleResult) :=
  match resources with
  | [] => Ok []
  | res :: rest =>
      here <- check_resource res ;;
      later <- run rest ;;
      Ok (here ++ later)%list
  end.

End Rules.

(* ================================================================= *)
(** ** [GraphBuilder] ([graph_builder.py]) *)

Module Builder.
Import Py PyStr Model.

(** One entry of [RELATIONSHIP_REGISTRY]; [is_list] is [rule.get("list")]. *)
Record rel_rule : Type := mkRule {
  attr : string;
  target_type : string;
  rel : string;
  is_list : bool
}.

Definition RELATIONSHIP_REGISTRY (t : string) : list rel_rule :=
  if String.eqb t "aws_instance" then
    [mkRule "vpc_security_group_ids" "aws_security_group" "protected_by" true;
     mkRule "iam_instance_profile" "aws_iam_instance_profile" "assumes_role" false;
     mkRule "subnet_id" "aws_subnet" "located_in" false]
  else if String.eqb t "aws_bedrock_agent" then
    [mkRule "agent_resource_role_arn" "aws_iam_role" "uses_identity" false]
  else if String.eqb t "aws_iam_instance_profile" then
    [mkRule "role" "aws_iam_role" "linked_role" false]
  else [].

(** The DiGraph operations [build] uses.  [G.add_node(n, resource=res)]
    adds [n] with its resource, or sets the resource of an existing node in
    place. *)
Definition nx_add_node (g : graph) (n : string) (res : Resource) : graph :=
  if has_node g n
  then mkGraph (map (fun p => if String.eqb (fst p) n then (fst p, Some res) else p) (nodes g))
               (succ g)
  else mkGraph (nodes g ++ [(n, Some res)])%list (succ g ++ [(n, [])])%list.

(** The implicit [add_node] of [add_edge]: a new node gets no data. *)
Definition ensure_node (g : graph) (n : string) : graph :=
  if has_node g n then g
  else mkGraph (nodes g ++ [(n, None)])%list (succ g ++ [(n, [])])%list.

(** [G.succ[u][v] = {..., "relationship": rel}]: an existing edge keeps its
    place and gets the new relationship. *)
Definition set_edge (l : list (string * option string)) (v rel : string)
  : list (string * option string) :=
  if existsb (fun q => String.eqb (fst q) v) l
  then map (fun q => if String.eqb (fst q) v then (fst q, Some rel) else q) l
  else (l ++ [(v, Some rel)])%list.

Definition nx_add_edge (g : graph) (u v rel : string) : graph :=
  let g1 := ensure_node (ensure_node g u) v in
  mkGraph (nodes g1)
          (map (fun p => if String.eqb (fst p) u then (fst p, set_edge (snd p) v rel) else p) (succ g1)).

Section Builder.

(** Python's [==] between two hashable values that are not strings
    ([None], bools and numbers): the keys of [bucket_index] compare with it.
    A string equals only an equal string. *)
Variable num_eq : value -> value -> bool.

Definition key_eq (a b : value) : bool :=
  match a, b with
  | VStr x, VStr y => String.eqb x y
  | VStr _, _ => false
  | _, VStr _ => false
  | _, _ => num_eq a b
  end.

(** Lists and dicts are unhashable: a tuple holding one cannot key a dict. *)
Definition hashable (v : value) : bool :=
  match v with
  | VList _ | VDict _ => false
  | _ => true
  end.

(** [d[k] = v] on [name_index] (keys [(type, name)]) and on [bucket_index]
    (keys [(type, bucket)]): an equal key keeps its place and gets [v]. *)
Fixpoint name_set (ix : list ((string * string) * string)) (k : string * string) (v : string)
  : list ((string * string) * string) :=
  match ix with
  | [] => [(k, v)]
  | (k', v') :: rest =>
      if String.eqb (fst k') (fst k) && String.eqb (snd k') (snd k)
      then (k', v) :: rest else (k', v') :: name_set rest k v
  end.

Fixpoint bucket_set (ix : list ((string * value) * string)) (k : string * value) (v : string)
  : list ((string * value) * string) :=
  match ix with
  | [] => [(k, v)]
  | (k', v') :: rest =>
      if String.eqb (fst k') (fst k) && key_eq (snd k') (snd k)
      then (k', v) :: rest else (k', v') :: bucket_set rest k v
  end.

(** [GraphBuilder] after [__init__]: [resource_map] is [{r.id: r}], whose
    keys are the ids of [resources]. *)
Record GraphBuilder : Type := mkBuilder {
  resources : list Resource;
  name_index : list ((string * string) * string);
  bucket_index : list ((string * value) * string)
}.

Definition in_resource_map (self : GraphBuilder) (k : string) : bool :=
  existsb (fun r => String.eqb (id r) k) (resources self).

(** [_build_indices], from the indices built so far. *)
Fixpoint build_indices (rs : list Resource) (ni : list ((string * string) * string))
         (bi : list ((string * value) * string))
  : result (list ((string * string) * string) * list ((string * value) * string)) :=
  match rs with
  | [] => Ok (ni, bi)
  | r :: rest =>
      let ni := name_set ni (type r, name r) (id r) in
      let bucket_val := dict_get (attributes r) "bucket" VNone in
      bi <- (if truthy bucket_val then
               if hashable bucket_val then Ok (bucket_set bi (type r, bucket_val) (id r))
               else Raise TypeError
             else Ok bi) ;;
      build_indices rest ni bi
  end.

(** [GraphBuilder(resources)] *)
Definition new_builder (rs : list Resource) : result GraphBuilder :=
  ix <- build_indices rs [] [] ;;
  Ok (mkBuilder rs (fst ix) (snd ix)).

(** [_find_resource_by_name]: the bucket index first, then the name index. *)
Definition _find_resource_by_name (self : GraphBuilder) (type_name : string) (resource_name : value)
  : result (option string) :=
  if negb (hashable resource_name) then Raise TypeError else
  match find (fun p => String.eqb (fst (fst p)) type_name && key_eq (snd (fst p)) resource_name)
             (bucket_index self) with
  | Some (_, rid) => Ok (Some rid)
  | None =>
      match find (fun p => String.eqb (fst (fst p)) type_name && is_str resource_name (snd (fst p)))
                 (name_index self) with
      | Some (_, rid) => Ok (Some rid)
      | None => Ok None
      end
  end.

(** [_resolve_reference] *)
Definition _resolve_reference (self : GraphBuilder) (ref_string : value) : option string :=
  match ref_string with
  | VStr s =>
      match split (replace (replace s "${" "") "}" "") "." with
      | p0 :: p1 :: rest =>
          if String.eqb p0 "data" then
            match rest with
            | p2 :: _ =>
                let candidate := "data." ++ p1 ++ "." ++ p2 in
                if in_resource_map self candidate then Some candidate else None
            | [] => None
            end
          else
            let candidate := p0 ++ "." ++ p1 in
            if in_resource_map self candidate then Some candidate else None
      | _ => None
      end
  | _ => None
  end.

(** [bool(target_id)] *)
Definition id_truthy (t : option string) : bool :=
  match t with
  | Some s => negb (String.eqb s "")
  | None => false
  end.

(** The loop of [_process_rule] over the references, with the fallback by
    role name. *)
Fixpoint process_targets (self : GraphBuilder) (res : Resource) (rule : rel_rule)
         (targets : list value) (g : graph) : result graph :=
  match targets with
  | [] => Ok g
  | ref :: rest =>
      let resolved := _resolve_reference self ref in
      target_id <- (if negb (id_truthy resolved) && String.eqb (target_type rule) "aws_iam_role"
                       && contains (str ref) "/"
                    then _find_resource_by_name self "aws_iam_role" (VStr (last (split (str ref) "/") ""))
                    else Ok resolved) ;;
      let g := match target_id with
               | Some t => if id_truthy target_id then nx_add_edge g (id res) t (rel rule) else g
               | None => g
               end in
      process_targets self res rule rest g
  end.

Definition _process_rule (self : GraphBuilder) (res : Resource) (attrs : list (string * value))
           (rule : rel_rule) (g : graph) : result graph :=
  let raw_val := dict_get attrs (attr rule) VNone in
  if negb (truthy raw_val) then Ok g else
  let targets := match raw_val with
                 | VList l => if is_list rule then l else [raw_val]
                 | _ => [raw_val]
                 end in
  process_targets self res rule targets g.

Fixpoint process_rules (self : GraphBuilder) (res : Resource) (attrs : list (string * value))
         (rules : list rel_rule) (g : graph) : result graph :=
  match rules with
  | [] => Ok g
  | rule :: rest => g <- _process_rule self res attrs rule g ;; process_rules self res attrs rest g
  end.

(** [_process_bedrock_logging]: [log_config.get] raises when the first
    element of a list [logging_config] is no dict. *)
Definition _process_bedrock_logging (self : GraphBuilder) (res : Resource)
           (attrs : list (string * value)) (g : graph) : result graph :=
  let log_config := dict_get attrs "logging_config" (VList []) in
  let log_config := match log_config with
                    | VList (c :: _) => c
                    | VDict _ => log_config
                    | _ => VDict []
                    end in
  s3_config <- (match log_config with
                | VDict kv => Ok (dict_get kv "s3_config" (VList []))
                | _ => Raise AttributeError
                end) ;;
  let s3_config := match s3_config with VList (c :: _) => c | _ => s3_config end in
  let bucket_name := match s3_config with
                     | VDict kv => dict_get kv "bucket_name" (VStr "")
                     | _ => VStr ""
                     end in
  if negb (truthy bucket_name) then Ok g else
  bucket_id <- _find_resource_by_name self "aws_s3_bucket" bucket_name ;;
  match bucket_id with
  | Some b => if id_truthy bucket_id then Ok (nx_add_edge g (id res) b "logs_to") else Ok g
  | None => Ok g
  end.

Definition _connect_related_resources (self : GraphBuilder) (res : Resource) (g : graph) : result graph :=
  let attrs := attributes res in
  g <- process_rules self res attrs (RELATIONSHIP_REGISTRY (type res)) g ;;
  let g :=
    if String.eqb (type res) "aws_iam_role_policy_attachment" then
      let role := _resolve_reference self (dict_get attrs "role" (VStr "")) in
      let policy := _resolve_reference self (dict_get attrs "policy_arn" (VStr "")) in
      match role, policy with
      | Some r, Some p => if id_truthy role && id_truthy policy then nx_add_edge g r p "has_policy" else g
      | _, _ => g
      end
    else g in
  if String.eqb (type res) "aws_bedrock_model_invocation_logging_configuration"
  then _process_bedrock_logging self res attrs g
  else Ok g.

Fixpoint connect_all (self : GraphBuilder) (rs : list Resource) (g : graph) : result graph :=
  match rs with
  | [] => Ok g
  | res :: rest => g <- _connect_related_resources self res g ;; connect_all self rest g
  end.

(** [build]: every resource becomes a node, then the edges are added. *)
Definition build (self : GraphBuilder) : result graph :=
  let g := fold_left (fun g res => nx_add_node g (id res) res) (resources self) (mkGraph [] []) in
  connect_all self (resources self) g.

(** [GraphBuilder(resources).build()] *)
Definition build_graph (rs : list Resource) : result graph :=
  self <- new_builder rs ;; build self.

End Builder.

End Builder.

(* ================================================================= *)
(** ** Readings of the specification, and concrete inputs *)

Module SpecSide.
Import Py PyStr Model Policy Attack Engine.

(** The statements one attached policy contributes: none for a policy that
    normalises to a falsy document, those of its [Statement] otherwise (a
    single dict statement counting as a one-element list); a truthy
    non-dict document or a non-iterable [Statement] raises. *)
Definition policy_statements (pol : value) : result (list value) :=
  let d := _normalize_policy pol in
  if negb (truthy d) then Ok [] else
  match d with
  | VDict kv =>
      let st := dict_get kv "Statement" (VList []) in
      py_iter (match st with VDict _ => VList [st] | _ => st end)
  | _ => Raise AttributeError
  end.

(** All statements of a list of policies, in document order. *)
Fixpoint all_statements (ps : list value) : result (list value) :=
  match ps with
  | [] => Ok []
  | p :: rest => a <- policy_statements p ;; b <- all_statements rest ;; Ok (a ++ b)%list
  end.

(** The objects an ingress attribute denotes: one object, the objects of a
    sequence, or the objects of a sequence of sequences. *)
Inductive ingress_rule : value -> list (string * value) -> Prop :=
| ir_object kv : ingress_rule (VDict kv) kv
| ir_seq l kv : In (VDict kv) l -> ingress_rule (VList l) kv
| ir_seq_seq l l' kv : In (VList l') l -> In (VDict kv) l' -> ingress_rule (VList l) kv.

(** [cidr_blocks] holding ["0.0.0.0/0"], directly or one level nested. *)
Inductive open_cidr_blocks : value -> Prop :=
| oc_direct l : In (VStr "0.0.0.0/0") l -> open_cidr_blocks (VList l)
| oc_nested l l' : In (VList l') l -> In (VStr "0.0.0.0/0") l' -> open_cidr_blocks (VList l).

Definition sg_open (sg : Resource) : Prop :=
  exists kv, ingress_rule (dict_get (attributes sg) "ingress" (VList [])) kv
             /\ open_cidr_blocks (dict_get kv "cidr_blocks" (VList [])).

(** (i) of "publicly exposed" fails: a [located_in] edge to a resource whose
    [map_public_ip_on_launch] (default [True]) prints as [false]. *)
Definition located_in_private (g : graph) (n : string) : Prop :=
  exists s sub, In s (successors g n) /\ get_edge_data g n s = Some (Some "located_in")
                /\ node_resource g s = Some sub
                /\ lower (str (dict_get (attributes sub) "map_public_ip_on_launch" (VBool true))) = "false".

(** (ii): a [protected_by] edge to an open security group. *)
Definition protected_by_open (g : graph) (n : string) : Prop :=
  exists s sg, In s (successors g n) /\ get_edge_data g n s = Some (Some "protected_by")
               /\ node_resource g s = Some sg /\ sg_open sg.

(** The paths [find_critical_path] obtains, one per sink that has one, in
    sink order. *)
Definition candidates (g : graph) (ag : agraph) (targets : list string) : list (list string) :=
  flat_map (fun t => match path_to g ag t with Some ids => [ids] | None => [] end) targets.

(** How many of the enumerated paths an edge lies on. *)
Definition participation (e : string * string) (paths : list (list string)) : nat :=
  length (filter (fun p => existsb (edge_eqb e) (path_edges p)) paths).

(** [edge_counts.get(e, 0)], and how often [e] occurs in a list of edges. *)
Definition count_of (e : string * string) (counts : list ((string * string) * nat)) : nat :=
  match find (fun kv => edge_eqb (fst kv) e) counts with
  | Some (_, n) => n
  | None => 0
  end.

Definition occurrences (e : string * string) (es : list (string * string)) : nat :=
  length (filter (edge_eqb e) es).

(** Lexicographic order on strings and on node-id sequences. *)
Fixpoint str_lt (a b : string) : bool :=
  match a, b with
  | EmptyString, String _ _ => true
  | String c a', String d b' =>
      Nat.ltb (code c) (code d) || (Nat.eqb (code c) (code d) && str_lt a' b')
  | _, _ => false
  end.

Fixpoint seq_lt (a b : list string) : bool :=
  match a, b with
  | [], _ :: _ => true
  | x :: a', y :: b' => str_lt x y || (String.eqb x y && seq_lt a' b')
  | _, _ => false
  end.

(** [u :: q] follows edges of the attack graph: [q] lists the nodes after
    [u], so [length q] is the number of edges. *)
Fixpoint walk_from (ag : agraph) (u : string) (q : list string) : bool :=
  match q with
  | [] => true
  | v :: r => existsb (is_edge u v) (aedges ag) && walk_from ag v r
  end.

(** A walk from [u] to [v]. *)
Definition walk_to (ag : agraph) (u v : string) (q : list string) : Prop :=
  walk_from ag u q = true /\ last (u :: q) u = v.

(** The nodes at most [k] edges away from [u] (with repetitions). *)
Fixpoint within (ag : agraph) (k : nat) (u : string) : list string :=
  u :: match k with
       | 0 => []
       | S k' => flat_map (within ag k') (asucc ag u)
       end.

End SpecSide.

Module Scenarios.
Import Py PyStr Model Attack Engine.

Definition res (t n : string) (attrs : list (string * value)) : Resource :=
  mkResource (t ++ "." ++ n) t n attrs.

(** JSON text written with [`] for the double quote. *)
Definition json_text (s : string) : string :=
  map_str (fun c => if Ascii.eqb c "`" then dq else c) s.

Definition nl : string := String (ascii_of_nat 10) EmptyString.

Definition admin_json : string :=
  json_text "{`Version`: `2012-10-17`, `Statement`: [{`Effect`: `Allow`, `Action`: `*`, `Resource`: `*`}]}".

(** A Terraform heredoc policy. *)
Definition heredoc_admin : string := "<<EOF" ++ nl ++ admin_json ++ nl ++ "EOF".

Definition bucket_data : Resource := res "aws_s3_bucket" "data" [].

(** A resource whose type has no underscore. *)
Definition other_res : Resource := mkResource "Other.x" "Other" "x" [].

(** [data "http" "ip" {}]: the parser gives it the type [http]. *)
Definition http_ip : Resource := mkResource "data.http.ip" "http" "ip" [].

Definition admin_stmt : value :=
  VDict [("Effect", VStr "Allow"); ("Action", VStr "*"); ("Resource", VStr "*")].

Definition s3_read_stmt : value :=
  VDict [("Effect", VStr "Allow"); ("Action", VStr "s3:GetObject");
         ("Resource", VStr "arn:aws:s3:::data/*")].

Definition admin_stmt_no_effect : value :=
  VDict [("Action", VStr "*"); ("Resource", VStr "*")].

Definition doc (stmts : list value) : value := VDict [("Statement", VList stmts)].

(** A JSON policy whose [Statement] is a single object granting
    [s3:GetObject] on [data]. *)
Definition s3_dict_json : string :=
  json_text "{`Version`: `2012-10-17`, `Statement`: {`Effect`: `Allow`, `Action`: `s3:GetObject`, `Resource`: `arn:aws:s3:::data/*`}}".

Definition deny_admin_stmt : value :=
  VDict [("Effect", VStr "Deny"); ("Action", VStr "*"); ("Resource", VStr "*")].

(** Two public buckets, [zeta] listed first. *)
Definition two_buckets : graph :=
  mkGraph [("aws_s3_bucket.zeta", Some (res "aws_s3_bucket" "zeta" [("acl", VStr "public-read")]));
           ("aws_s3_bucket.alpha", Some (res "aws_s3_bucket" "alpha" [("acl", VStr "public-read")]))]
          [].

(** An instance behind a security group open to the world. *)
Definition web_exposed : graph :=
  mkGraph [("aws_instance.web", Some (res "aws_instance" "web" []));
           ("aws_security_group.open",
             Some (res "aws_security_group" "open"
                     [("ingress", VList [VList [VDict [("cidr_blocks", VList [VStr "0.0.0.0/0"])]]])]))]
          [("aws_instance.web", [("aws_security_group.open", Some "protected_by")])].

Definition overlay_of (g : graph) : agraph :=
  match _build_attack_overlay g with
  | Ok ag => ag
  | Raise _ => mkAgraph [] []
  end.

(** The first round of the fix loop. *)
Definition first_fix (targets : list string) (ag : agraph) : Remediation * agraph :=
  match fix_step targets ag 0 with
  | Some x => x
  | None => (mkRemediation "" "" 0 "" "" "", ag)
  end.

Definition bucket_targets : list string := ["aws_s3_bucket.zeta"; "aws_s3_bucket.alpha"].

Definition digit (i : nat) : string := String (ascii_of_nat (48 + i)) EmptyString.
Definition role (i : nat) : string := "aws_iam_role.r" ++ digit i.

(** An instance behind an open security group, its instance profile, roles
    [r1] .. [r9] linked in a row, and [r9] logging to a bucket: the attack
    graph is one chain of 12 edges. *)
Definition chain : graph :=
  mkGraph
    ([("aws_instance.web", Some (res "aws_instance" "web" []));
      ("aws_security_group.open",
        Some (res "aws_security_group" "open"
                [("ingress", VList [VDict [("cidr_blocks", VList [VStr "0.0.0.0/0"])]])]));
      ("aws_iam_instance_profile.p", Some (res "aws_iam_instance_profile" "p" []))]
     ++ map (fun i => (role i, Some (res "aws_iam_role" ("r" ++ digit i) []))) (seq 1 9)
     ++ [("aws_s3_bucket.logs", Some (res "aws_s3_bucket" "logs" []))])%list
    ([("aws_instance.web", [("aws_security_group.open", Some "protected_by");
                            ("aws_iam_instance_profile.p", Some "assumes_role")]);
      ("aws_iam_instance_profile.p", [(role 1, Some "linked_role")])]
     ++ map (fun i => (role i, [(role (S i), Some "linked_role")])) (seq 1 8)
     ++ [(role 9, [("aws_s3_bucket.logs", Some "logs_to")])])%list.

Definition engine_of (g : graph) : AttackEngine :=
  match new_engine g [] with
  | Ok e => e
  | Raise _ => mkEngine g [] (mkAgraph [] [])
  end.

End Scenarios.

(* ================================================================= *)
(** ** Readings of the builder, rules and fix engine behaviour *)

Module SpecExtra.
Import Py PyStr Model Attack Engine Rules Builder.

(** [c] occurs in [s]. *)
Fixpoint has_char (c : ascii) (s : string) : bool :=
  match s with
  | EmptyString => false
  | String c' rest => Ascii.eqb c' c || has_char c rest
  end.

(** A value none of whose strings (keys, strings, number lexemes) holds a
    quote character. *)
Definition clean_str (s : string) : bool :=
  negb (has_char "'" s) && negb (has_char dq s).

Fixpoint quote_free (v : value) : bool :=
  match v with
  | VNum lexeme => clean_str lexeme
  | VStr s => clean_str s
  | VList l => forallb quote_free l
  | VDict kv => forallb (fun p => clean_str (fst p) && quote_free (snd p)) kv
  | _ => true
  end.

(** A security group whose [cidr_blocks] are flat lists (no list inside). *)
Definition no_nested (l : list value) : bool :=
  forallb (fun c => match c with VList _ => false | _ => true end) l.

Definition flat_rule (rule : value) : bool :=
  match rule with
  | VList subs =>
      forallb (fun sub => match sub with
                          | VDict kv => match dict_get kv "cidr_blocks" (VList []) with
                                        | VList l => no_nested l
                                        | _ => false
                                        end
                          | _ => true
                          end) subs
  | VDict kv => match dict_get kv "cidr_blocks" (VList []) with
                | VList l => no_nested l
                | _ => true
                end
  | _ => true
  end.

Definition flat_cidrs (res : Resource) : bool :=
  forallb flat_rule (match dict_get (attributes res) "ingress" (VList []) with
                     | VList l => l
                     | v => [v]
                     end).

(** The last resource of a list satisfying [p]. *)
Definition last_with (p : Resource -> bool) (rs : list Resource) : option Resource :=
  fold_left (fun acc r => if p r then Some r else acc) rs None.

(** Lookup by name: the last resource of type [t] whose [bucket] attribute
    is the non-empty string [x], else the last one of type [t] named [x]. *)
Definition by_bucket (t x : string) (r : Resource) : bool :=
  String.eqb (type r) t && negb (String.eqb x "") && is_str (dict_get (attributes r) "bucket" VNone) x.

Definition by_name (t x : string) (r : Resource) : bool :=
  String.eqb (type r) t && String.eqb (name r) x.

Definition lookup_spec (rs : list Resource) (t x : string) : option string :=
  match last_with (by_bucket t x) rs with
  | Some r => Some (id r)
  | None => option_map id (last_with (by_name t x) rs)
  end.

(** A segment of a reference: no [.], [$] or [}]. *)
Definition plain_segment (s : string) : bool :=
  negb (has_char "." s) && negb (has_char "$" s) && negb (has_char "}" s).

(** The relationships [GraphBuilder] puts on edges. *)
Definition rel_tags : list string :=
  ["protected_by"; "assumes_role"; "located_in"; "uses_identity"; "linked_role";
   "has_policy"; "logs_to"].

(** The rule each resource type is checked against. *)
Definition finding_kinds : list (string * string) :=
  [("aws_security_group", "NET-001"); ("aws_s3_bucket", "STO-001");
   ("aws_iam_policy", "IAM-001");
   ("aws_bedrock_model_invocation_logging_configuration", "AI-001")].

Definition fix_id (i : nat) : string := "FIX-" ++ pad3 i.

Definition fix_edge (r : Remediation) : string * string := (edge_source r, edge_target r).

(** The rest of a reference after its first segments: empty, or a [.] and
    then text with no [$] or [}]. *)
Definition ref_tail (a : string) : bool :=
  match a with
  | EmptyString => true
  | String c r => Ascii.eqb c "." && negb (has_char "$" r) && negb (has_char "}" r)
  end.

(** Every successor entry of [g] points at one of [ids] and carries one
    of the relationships of [rel_tags]. *)
Definition succ_ok (ids : list string) (g : graph) : Prop :=
  forall k l v rel, In (k, l) (succ g) -> In (v, rel) l ->
  In v ids /\ exists tag, rel = Some tag /\ In tag rel_tags.

(** A reference written bare or in interpolation syntax [${...}]. *)
Definition tf_ref (wrapped : bool) (body : string) : string :=
  if wrapped then "${" ++ body ++ "}" else body.

End SpecExtra.

(* ================================================================= *)
(** * Sample inputs for the builder and the rules engine *)

Module Samples.
Import Py PyStr Model Builder Scenarios.

Definition sg_open : Resource :=
  res "aws_security_group" "open" [("ingress", VList [VDict [("cidr_blocks", VList [VStr "0.0.0.0/0"])]])].

Definition bucket_pub : Resource :=
  res "aws_s3_bucket" "data" [("acl", VStr "public-read"); ("bucket", VStr "corp-data")].

(** A policy written as an HCL object. *)
Definition policy_obj : Resource :=
  res "aws_iam_policy" "p" [("policy", VDict [("Effect", VStr "Allow"); ("Action", VStr "*")])].

Definition logging_scalar : Resource :=
  res "aws_bedrock_model_invocation_logging_configuration" "l" [("logging_config", VBool true)].

Definition logging_ok : Resource :=
  res "aws_bedrock_model_invocation_logging_configuration" "main"
      [("logging_config", VDict [("s3_config", VDict [("bucket_name", VStr "corp-data")])])].

Definition instance_web : Resource :=
  res "aws_instance" "web" [("vpc_security_group_ids", VList [VStr "${aws_security_group.open.id}"])].

(** A bucket whose [bucket] attribute is a list. *)
Definition bucket_listed : Resource :=
  res "aws_s3_bucket" "odd" [("bucket", VList [VStr "a"])].

Definition sample_rs : list Resource := [sg_open; bucket_pub; policy_obj; instance_web; logging_ok].

(** [==] on non-string keys; the samples have none. *)
Definition no_num_eq (a b : value) : bool := false.

Definition sample_builder : GraphBuilder :=
  match new_builder no_num_eq sample_rs with
  | Ok b => b
  | Raise _ => mkBuilder [] [] []
  end.

Definition sample_graph : graph :=
  match build_graph no_num_eq sample_rs with
  | Ok g => g
  | Raise _ => mkGraph [] []
  end.

End Samples.

(* ================================================================= *)
(** ** Lemmas *)

Module Facts.
Import Py PyStr Model Policy Attack NX Engine SpecSide.

Lemma prefix_app (p s : string) : String.prefix p s = true -> exists r, s = p ++ r.
Proof.
  revert s; induction p as [|a p IH]; intros s H.
  - exists s; reflexivity.
  - destruct s as [|b s]; simpl in H; [discriminate|].
    destruct (ascii_dec a b) as [->|]; [|discriminate].
    destruct (IH s H) as [r ->]. exists r; reflexivity.
Qed.

(** A heredoc string always normalises to the empty document. *)
Lemma normalize_heredoc (s : string) :
  startswith (strip s) "<<EOF" = true \/ startswith (strip s) "<<-EOF" = true ->
  _normalize_policy (VStr s) = VDict [].
Proof.
  intros H. unfold _normalize_policy.
  destruct H as [H|H]; destruct (prefix_app _ _ H) as [r Hr]; rewrite Hr;
    destruct r; reflexivity.
Qed.

Lemma check_statements_app ts t l1 l2 :
  check_statements ts t (l1 ++ l2) =
  bind (check_statements ts t l1)
       (fun r => match r with Some c => Ok (Some c) | None => check_statements ts t l2 end).
Proof.
  induction l1 as [|s l1 IH]; simpl; [reflexivity|].
  destruct (statement_capability ts t s) as [[c|]|e]; simpl; auto.
Qed.

(** Documents of the form [{"Statement": [...]}] behave as the concatenation
    of their statements. *)
Lemma check_policies_docs ts t docs :
  check_policies ts t (map Scenarios.doc docs) = check_statements ts t (concat docs).
Proof.
  induction docs as [|d docs IH]; simpl; [reflexivity|].
  rewrite check_statements_app, IH. reflexivity.
Qed.

Lemma check_statements_first ts t pre s post c :
  Forall (fun s' => statement_capability ts t s' = Ok None) pre ->
  statement_capability ts t s = Ok (Some c) ->
  check_statements ts t (pre ++ s :: post) = Ok (Some c).
Proof.
  intros Hpre Hs. induction Hpre as [|s' pre Hs' _ IH]; simpl.
  - rewrite Hs. reflexivity.
  - rewrite Hs'. simpl. exact IH.
Qed.

Lemma check_policies_cons ts t p rest :
  check_policies ts t (p :: rest) =
  bind (policy_statements p)
       (fun a => bind (check_statements ts t a)
                   (fun r => match r with Some c => Ok (Some c) | None => check_policies ts t rest end)).
Proof.
  unfold policy_statements. cbn [check_policies].
  destruct (truthy (_normalize_policy p)); cbn [negb]; [|reflexivity].
  destruct (_normalize_policy p); reflexivity.
Qed.

(** Policies whose statements are [L] behave as [L] tried in order, then
    the remaining policies. *)
Lemma check_policies_all_statements ts t ps rest L :
  all_statements ps = Ok L ->
  check_policies ts t (ps ++ rest) =
  bind (check_statements ts t L)
       (fun r => match r with Some c => Ok (Some c) | None => check_policies ts t rest end).
Proof.
  revert L; induction ps as [|p ps IH]; intros L H.
  - cbn in H. injection H as <-. reflexivity.
  - cbn [all_statements] in H. rewrite <- app_comm_cons, check_policies_cons.
    destruct (policy_statements p) as [a|e]; cbn [bind] in H |- *; [|discriminate].
    destruct (all_statements ps) as [b|e]; cbn [bind] in H; [|discriminate].
    injection H as <-. rewrite check_statements_app.
    destruct (check_statements ts t a) as [[c|]|e]; cbn [bind]; [reflexivity| |reflexivity].
    apply IH. reflexivity.
Qed.

Lemma dict_get_absent kv k d : dict_has kv k = false -> dict_get kv k d = d.
Proof.
  induction kv as [|[k' v] kv IH]; simpl; [reflexivity|].
  destruct (String.eqb k' k); simpl; [discriminate|exact IH].
Qed.

Lemma dict_get_present kv k d1 d2 : dict_has kv k = true -> dict_get kv k d1 = dict_get kv k d2.
Proof.
  induction kv as [|[k' v] kv IH]; simpl; [discriminate|].
  destruct (String.eqb k' k); simpl; [reflexivity|exact IH].
Qed.

(** *** The attack graph's edge data after a sequence of [add_edge] *)

Lemma aedges_add_node ag n : aedges (add_node ag n) = aedges ag.
Proof. unfold add_node. destruct (amem ag n); reflexivity. Qed.

Lemma is_edge_refl e : is_edge (src e) (dst e) e = true.
Proof. unfold is_edge. rewrite !String.eqb_refl. reflexivity. Qed.

Lemma is_edge_same u v e e' : is_edge (src e) (dst e) e' = true -> is_edge u v e' = is_edge u v e.
Proof.
  unfold is_edge. intros H. apply andb_prop in H as [H1 H2].
  apply String.eqb_eq in H1, H2. rewrite H1, H2. reflexivity.
Qed.

Lemma find_app_last (P : edge -> bool) e l :
  find P (l ++ [e])%list = match find P l with Some x => Some x | None => if P e then Some e else None end.
Proof. induction l as [|a l IH]; simpl; [reflexivity|]. destruct (P a); [reflexivity|exact IH]. Qed.

Lemma find_map_replace (P Q : edge -> bool) e l :
  (forall e', Q e' = true -> P e' = P e) -> P e = false ->
  find P (map (fun e' => if Q e' then e else e') l) = find P l.
Proof.
  intros HQ HP. induction l as [|a l IH]; simpl; [reflexivity|].
  destruct (Q a) eqn:Ha; simpl.
  - rewrite HP, (HQ a Ha), HP. exact IH.
  - destruct (P a); [reflexivity|exact IH].
Qed.

Lemma find_map_replace_hit (Q : edge -> bool) e l :
  Q e = true -> existsb Q l = true ->
  find Q (map (fun e' => if Q e' then e else e') l) = Some e.
Proof.
  intros He. induction l as [|a l IH]; simpl; [discriminate|].
  destruct (Q a) eqn:Ha; simpl; [rewrite He; reflexivity|rewrite Ha; exact IH].
Qed.

Lemma edge_data_add_edge ag e u v :
  edge_data (add_edge ag e) u v =
  if is_edge u v e then Some (method e, risk e) else edge_data ag u v.
Proof.
  unfold add_edge, edge_data. rewrite !aedges_add_node.
  destruct (is_edge u v e) eqn:Huv.
  - unfold is_edge in Huv. apply andb_prop in Huv as [H1 H2].
    apply String.eqb_eq in H1, H2. subst u v.
    destruct (existsb (is_edge (src e) (dst e)) (aedges ag)) eqn:Hex; simpl.
    + rewrite (find_map_replace_hit _ e _ (is_edge_refl e) Hex). reflexivity.
    + rewrite find_app_last, is_edge_refl.
      destruct (find (is_edge (src e) (dst e)) (aedges ag)) eqn:Hf; [|reflexivity].
      apply find_some in Hf as [Hin Hx].
      assert (existsb (is_edge (src e) (dst e)) (aedges ag) = true)
        by (apply existsb_exists; eauto).
      congruence.
  - destruct (existsb (is_edge (src e) (dst e)) (aedges ag)); simpl.
    + rewrite (find_map_replace _ _ e _ (is_edge_same u v e) Huv). reflexivity.
    + rewrite find_app_last, Huv. destruct (find (is_edge u v) (aedges ag)); reflexivity.
Qed.

Lemma find_hd_filter {A} (P : A -> bool) l : find P l = hd_error (filter P l).
Proof. induction l as [|a l IH]; simpl; [reflexivity|]. destruct (P a); [reflexivity|exact IH]. Qed.

(** The edge data of [(u, v)] is that of the last edge for [(u, v)] added. *)
Lemma edge_data_fold es ag u v :
  edge_data (fold_left add_edge es ag) u v =
  match hd_error (rev (filter (is_edge u v) es)) with
  | Some e => Some (method e, risk e)
  | None => edge_data ag u v
  end.
Proof.
  induction es as [|e es IH] using rev_ind; simpl; [reflexivity|].
  rewrite fold_left_app, filter_app. simpl. rewrite edge_data_add_edge.
  destruct (is_edge u v e); simpl.
  - rewrite rev_app_distr. reflexivity.
  - rewrite app_nil_r. exact IH.
Qed.

(** *** Where the edges of each phase start *)

Lemma edges_src g u v rel : In (u, v, rel) (edges g) -> In u (map fst (nodes g)).
Proof.
  unfold edges. rewrite in_flat_map. intros [p [Hp Hin]].
  apply in_map_iff in Hin as [q [Heq _]]. inversion Heq; subst. apply in_map. exact Hp.
Qed.

Lemma phase2_src g e : In e (phase2 g) -> In (src e) (map fst (nodes g)).
Proof.
  unfold phase2. rewrite in_flat_map. intros [[[u v] rel] [Hin He]].
  unfold identity_edges in He. rewrite !in_app_iff in He.
  destruct (rel_is rel "assumes_role"), (rel_is rel "uses_identity"), (rel_is rel "linked_role");
    simpl in He; intuition subst; simpl; eapply edges_src; eauto.
Qed.

Lemma phase4_src g e : In e (phase4 g) -> In (src e) (map fst (nodes g)).
Proof.
  unfold phase4. rewrite in_flat_map. intros [[[u v] rel] [Hin He]].
  destruct (rel_is rel "logs_to"); simpl in He; intuition subst; simpl; eapply edges_src; eauto.
Qed.

Lemma permission_edges_src role pol ts es :
  permission_edges role pol ts = Ok es -> forall e, In e es -> src e = role.
Proof.
  revert es. induction ts as [|[tid [r|]] ts IH]; intros es H; simpl in H.
  - inversion H; subst. intros e [].
  - destruct (String.eqb tid role); [exact (IH es H)|].
    destruct (_check_permission pol r) as [cap|]; simpl in H; [|discriminate].
    destruct (permission_edges role pol ts) as [later|] eqn:Hl; simpl in H; [|discriminate].
    specialize (IH later eq_refl).
    destruct cap as [c|]; [destruct (negb (String.eqb c ""))|];
      inversion H; subst; simpl; intuition subst; auto.
  - exact (IH es H).
Qed.

Lemma phase3_roles_src g rs es :
  phase3_roles g rs = Ok es -> forall e, In e es -> In (src e) rs.
Proof.
  revert es. induction rs as [|r rs IH]; intros es H; simpl in H.
  - inversion H; subst. intros e [].
  - destruct (permission_edges r (_get_attached_policies g r) (nodes g)) as [here|] eqn:Hh;
      simpl in H; [|discriminate].
    destruct (phase3_roles g rs) as [later|]; simpl in H; [|discriminate].
    inversion H; subst. intros e He. apply in_app_iff in He as [He|He].
    + left. symmetry. exact (permission_edges_src _ _ _ _ Hh e He).
    + right. exact (IH later eq_refl e He).
Qed.

Lemma roles_in g x : In x (roles g) -> In x (map fst (nodes g)).
Proof.
  unfold roles. intros H. apply in_map_iff in H as [p [<- Hp]].
  apply filter_In in Hp as [Hp _]. apply in_map. exact Hp.
Qed.

Lemma filter_not_from (l : list edge) u v :
  (forall e, In e l -> src e <> u) -> filter (is_edge u v) l = [].
Proof.
  induction l as [|a l IH]; intros H; simpl; [reflexivity|].
  unfold is_edge at 1. destruct (String.eqb_spec (src a) u) as [E|E].
  - exfalso. exact (H a (or_introl eq_refl) E).
  - simpl. apply IH. intros e He. apply H. right. exact He.
Qed.

Lemma filter_flat_map {A B} (P : B -> bool) (f : A -> list B) l :
  filter P (flat_map f l) = flat_map (fun x => filter P (f x)) l.
Proof. induction l as [|a l IH]; simpl; [reflexivity|]. rewrite filter_app, IH. reflexivity. Qed.

Lemma flat_map_nil {A B} (f : A -> list B) l : (forall c, In c l -> f c = []) -> flat_map f l = [].
Proof.
  induction l as [|a l IH]; intros H; simpl; [reflexivity|].
  rewrite (H a (or_introl eq_refl)). apply IH. intros c Hc. apply H. right. exact Hc.
Qed.

(** Only the entry with the given key contributes to a [flat_map] over a
    list of distinct keys. *)
Lemma flat_map_single {A B} (key : A -> string) (f : A -> list B) l a :
  NoDup (map key l) -> In a l -> (forall b, In b l -> key b <> key a -> f b = []) ->
  flat_map f l = f a.
Proof.
  induction l as [|b l IH]; intros Hnd Ha Hf; [destruct Ha|].
  simpl in Hnd. inversion Hnd as [|? ? Hnotin Hnd']; subst.
  assert (Hrest : forall c, In c l -> key c <> key b).
  { intros c Hc E. apply Hnotin. rewrite <- E. apply in_map. exact Hc. }
  simpl. destruct Ha as [<-|Ha].
  - rewrite (flat_map_nil f l); [apply app_nil_r|].
    intros c Hc. apply Hf; [right; exact Hc|exact (Hrest c Hc)].
  - rewrite (Hf b (or_introl eq_refl)).
    + simpl. apply IH; auto. intros c Hc Hne. apply Hf; [right; exact Hc|exact Hne].
    + intros E. apply (Hrest a Ha). symmetry. exact E.
Qed.

(** *** The exposure predicates against their readings *)

Lemma is_str_true v s : is_str v s = true <-> v = VStr s.
Proof.
  destruct v; simpl; split; intros H; try discriminate; try (inversion H; fail).
  - apply String.eqb_eq in H. subst. reflexivity.
  - inversion H. apply String.eqb_refl.
Qed.

Lemma list_has_str_true l s : list_has_str l s = true <-> In (VStr s) l.
Proof.
  unfold list_has_str. rewrite existsb_exists. split.
  - intros [x [Hx Hs]]. apply is_str_true in Hs. subst. exact Hx.
  - intros H. exists (VStr s). split; [exact H|apply is_str_true; reflexivity].
Qed.

Lemma check_cidrs_spec v : _check_cidrs v = true <-> open_cidr_blocks v.
Proof.
  split.
  - destruct v as [| | | |l|]; intros H;
      try (unfold _check_cidrs in H; destruct (negb (truthy _)); simpl in H; discriminate).
    assert (Hl : existsb (fun c => match c with
                                            | VList l' => list_has_str l' "0.0.0.0/0"
                                            | _ => is_str c "0.0.0.0/0"
                                            end) l = true) by (destruct l; [discriminate|exact H]).
    apply existsb_exists in Hl as [c [Hc Hok]].
    destruct c; try (apply is_str_true in Hok; discriminate).
    + apply is_str_true in Hok. inversion Hok; subst. apply oc_direct. exact Hc.
    + apply list_has_str_true in Hok. eapply oc_nested; eauto.
  - intros H. destruct H as [l Hin|l l' Hin Hin'];
      (destruct l as [|x l]; [destruct Hin|]); unfold _check_cidrs; simpl negb; cbv iota beta;
      apply existsb_exists.
    + exists (VStr "0.0.0.0/0"). split; [exact Hin|apply is_str_true; reflexivity].
    + exists (VList l'). split; [exact Hin|apply list_has_str_true; exact Hin'].
Qed.

Lemma sg_public_spec sg : _is_sg_public sg = true <-> sg_open sg.
Proof.
  unfold _is_sg_public, sg_open.
  destruct (dict_get (attributes sg) "ingress" (VList [])) as [| | | |l|kv0]; simpl;
    try (split; [discriminate|intros [kv [Hr _]]; inversion Hr]).
  - split.
    + intros H. apply existsb_exists in H as [rule [Hin Hok]].
      destruct rule as [| | | |subs|kv]; try discriminate.
      * apply existsb_exists in Hok as [sub [Hsub Hok]].
        destruct sub as [| | | | |kv]; try discriminate.
        exists kv. split; [eapply ir_seq_seq; eauto|apply check_cidrs_spec; exact Hok].
      * exists kv. split; [apply ir_seq; exact Hin|apply check_cidrs_spec; exact Hok].
    + intros [kv [Hr Ho]]. apply check_cidrs_spec in Ho. apply existsb_exists.
      inversion Hr as [|? ? Hin|? l' ? Hin Hin']; subst.
      * exists (VDict kv). split; [exact Hin|exact Ho].
      * exists (VList l'). split; [exact Hin|]. apply existsb_exists.
        exists (VDict kv). split; [exact Hin'|exact Ho].
  - rewrite orb_false_r. split.
    + intros H. exists kv0. split; [constructor|apply check_cidrs_spec; exact H].
    + intros [kv [Hr Ho]]. inversion Hr; subst. apply check_cidrs_spec. exact Ho.
Qed.

Lemma rel_is_true rel tag : rel_is rel tag = true <-> rel = Some tag.
Proof.
  destruct rel; simpl; split; intros H; try discriminate.
  - apply String.eqb_eq in H. subst. reflexivity.
  - inversion H. apply String.eqb_refl.
Qed.

Lemma private_spec g n : existsb (private_subnet g n) (successors g n) = true <-> located_in_private g n.
Proof.
  rewrite existsb_exists. unfold private_subnet, located_in_private. split.
  - intros [s [Hs H]]. destruct (get_edge_data g n s) as [rel|] eqn:He; [|discriminate].
    apply andb_prop in H as [Hr H]. apply rel_is_true in Hr. subst.
    destruct (node_resource g s) as [sub|] eqn:Hn; [|discriminate].
    apply String.eqb_eq in H. exists s, sub. auto.
  - intros [s [sub [Hs [He [Hn Hf]]]]]. exists s. split; [exact Hs|].
    rewrite He, Hn, Hf. reflexivity.
Qed.

Lemma public_spec g n : existsb (public_sg g n) (successors g n) = true <-> protected_by_open g n.
Proof.
  rewrite existsb_exists. unfold public_sg, protected_by_open. split.
  - intros [s [Hs H]]. destruct (get_edge_data g n s) as [rel|] eqn:He; [|discriminate].
    apply andb_prop in H as [Hr H]. apply rel_is_true in Hr. subst.
    destruct (node_resource g s) as [sg|] eqn:Hn; [|discriminate].
    apply sg_public_spec in H. exists s, sg. auto.
  - intros [s [sg [Hs [He [Hn Ho]]]]]. exists s. split; [exact Hs|].
    rewrite He, Hn. apply sg_public_spec in Ho. rewrite Ho. reflexivity.
Qed.

Lemma exposed_spec g r :
  has_node g (id r) = true ->
  _is_instance_publicly_exposed g r = true <->
  ~ located_in_private g (id r) /\ protected_by_open g (id r).
Proof.
  intros H. unfold _is_instance_publicly_exposed. rewrite H.
  destruct (existsb (private_subnet g (id r)) (successors g (id r))) eqn:Hp.
  - split; [discriminate|]. intros [Hn _]. exfalso. apply Hn, private_spec, Hp.
  - rewrite public_spec. split; [|tauto]. intros Ho. split; [|exact Ho].
    intros Hl. apply private_spec in Hl. congruence.
Qed.

Lemma filter_not_to (l : list edge) u v :
  (forall e, In e l -> dst e <> v) -> filter (is_edge u v) l = [].
Proof.
  induction l as [|a l IH]; intros H; simpl; [reflexivity|].
  unfold is_edge at 1. destruct (String.eqb_spec (dst a) v) as [E|E].
  - exfalso. exact (H a (or_introl eq_refl) E).
  - rewrite andb_false_r. apply IH. intros e He. apply H. right. exact He.
Qed.

Lemma ingress_dst node d g e : In e (ingress_edges node d g) -> dst e = node.
Proof.
  destruct d as [r|]; simpl; [|intros []]. rewrite !in_app_iff.
  destruct (String.eqb (type r) "aws_instance" && _is_instance_publicly_exposed g r),
           (String.eqb (type r) "aws_s3_bucket" && _is_bucket_public r),
           (is_vector_store r && _is_vector_store_exposed r);
    simpl; intuition subst; reflexivity.
Qed.

(** Phase 1 adds at most one edge [Internet -> n] for an instance [n]. *)
Lemma phase1_filter g n r :
  NoDup (map fst (nodes g)) -> In (n, Some r) (nodes g) -> type r = "aws_instance" ->
  filter (is_edge "Internet" n) (phase1 g) =
  if _is_instance_publicly_exposed g r
  then [mkEdge "Internet" n "Network Reachability" "Exploit Public Service (SSRF/RCE)"] else [].
Proof.
  intros Hnd Hin Ht. unfold phase1. rewrite filter_flat_map.
  rewrite (flat_map_single fst _ _ (n, Some r) Hnd Hin).
  - simpl. unfold ingress_edges, is_vector_store. rewrite Ht.
    destruct (_is_instance_publicly_exposed g r); simpl;
      [unfold is_edge; simpl; rewrite String.eqb_refl|]; reflexivity.
  - intros b Hb Hne. apply filter_not_to. intros e He. rewrite (ingress_dst _ _ _ _ He). exact Hne.
Qed.

Lemma has_node_in g n r : In (n, r) (nodes g) -> has_node g n = true.
Proof.
  intros H. unfold has_node. apply existsb_exists. exists (n, r). split; [exact H|apply String.eqb_refl].
Qed.

(** *** [find_critical_path] keeps the first of the shortest paths found *)

Lemma candidates_cons g ag t ts :
  candidates g ag (t :: ts) =
  ((match path_to g ag t with Some ids => [ids] | None => [] end) ++ candidates g ag ts)%list.
Proof. reflexivity. Qed.

Lemma attack_path_length g ids : length (steps (attack_path g ids)) = length ids.
Proof. unfold attack_path. simpl. apply length_map. Qed.

Lemma select_none g ag ts acc :
  select_path g ag ts acc = None -> acc = None /\ candidates g ag ts = [].
Proof.
  revert acc. induction ts as [|t ts IH]; intros acc H; simpl in H; [split; auto|].
  rewrite candidates_cons. destruct (path_to g ag t) as [ids0|].
  - exfalso. destruct acc as [sp|];
      [destruct (Nat.ltb _ _)|]; apply IH in H; destruct H; discriminate.
  - apply IH in H. exact H.
Qed.

Lemma select_some g ag ts acc p :
  select_path g ag ts acc = Some p ->
  (acc = Some p /\ Forall (fun q => length (steps p) <= length q) (candidates g ag ts)) \/
  (exists pre ids post,
      candidates g ag ts = (pre ++ ids :: post)%list /\ p = attack_path g ids /\
      Forall (fun q => length ids < length q) pre /\
      Forall (fun q => length ids <= length q) post /\
      match acc with Some sp => length ids < length (steps sp) | None => True end).
Proof.
  revert acc. induction ts as [|t ts IH]; intros acc H; simpl in H.
  - left. split; [exact H|constructor].
  - rewrite candidates_cons. destruct (path_to g ag t) as [ids0|]; [|exact (IH acc H)].
    simpl app.
    assert (Hnew : forall acc0,
               match acc0 with Some sp => length ids0 < length (steps sp) | None => True end ->
               select_path g ag ts (Some (attack_path g ids0)) = Some p ->
               exists pre ids post,
                 (ids0 :: candidates g ag ts = pre ++ ids :: post)%list /\ p = attack_path g ids /\
                 Forall (fun q => length ids < length q) pre /\
                 Forall (fun q => length ids <= length q) post /\
                 match acc0 with Some sp => length ids < length (steps sp) | None => True end).
    { intros acc0 Hacc H'. destruct (IH _ H') as [[E Hall]|[pre [ids [post [Hc [Hp [Hpre [Hpost Hl]]]]]]]].
      - inversion E; subst p. exists [], ids0, (candidates g ag ts).
        rewrite attack_path_length in Hall. repeat split; auto.
      - rewrite attack_path_length in Hl. exists (ids0 :: pre), ids, post.
        rewrite Hc. repeat split; auto.
        destruct acc0; [lia|exact I]. }
    destruct acc as [sp|].
    + destruct (Nat.ltb (length (map (attack_node g) ids0)) (length (steps sp))) eqn:Hlt.
      * right. apply Nat.ltb_lt in Hlt. rewrite length_map in Hlt.
        exact (Hnew (Some sp) Hlt H).
      * apply Nat.ltb_ge in Hlt. rewrite length_map in Hlt.
        destruct (IH _ H) as [[E Hall]|[pre [ids [post [Hc [Hp [Hpre [Hpost Hl]]]]]]]].
        -- left. inversion E; subst sp. split; [reflexivity|]. constructor; [exact Hlt|exact Hall].
        -- right. exists (ids0 :: pre), ids, post. rewrite Hc. repeat split; auto.
           constructor; [lia|exact Hpre].
    + right. exact (Hnew None I H).
Qed.

(** *** Simple paths after removing an edge *)

Ltac str_cases :=
  repeat match goal with
         | |- context [String.eqb ?a ?b] =>
             destruct (String.eqb_spec a b); try subst; simpl
         end.

Lemma asucc_remove ag u v x :
  asucc (remove_edge ag u v) x =
  filter (fun c => negb (String.eqb x u && String.eqb c v)) (asucc ag x).
Proof.
  unfold asucc, remove_edge, is_edge. simpl. induction (aedges ag) as [|e l IH]; simpl; [reflexivity|].
  destruct e as [s d m r]. simpl. str_cases; simpl in IH; try rewrite IH;
    try reflexivity; try congruence.
Qed.

Lemma flat_map_filter {A B} (f : A -> list B) (P : A -> bool) l :
  flat_map f (filter P l) = flat_map (fun c => if P c then f c else []) l.
Proof. induction l as [|a l IH]; simpl; [reflexivity|]. destruct (P a); simpl; rewrite IH; reflexivity. Qed.

Lemma filter_map_cons {A} (P : list A -> bool) c L :
  filter P (map (cons c) L) = map (cons c) (filter (fun s => P (c :: s)) L).
Proof. induction L as [|s L IH]; simpl; [reflexivity|]. destruct (P (c :: s)); simpl; rewrite IH; reflexivity. Qed.

(** The simple paths of the graph without [(u, v)] are those not using it. *)
Lemma paths_from_remove ag u v t f :
  forall vis x,
  paths_from (remove_edge ag u v) t f vis x =
  filter (fun s => negb (existsb (edge_eqb (u, v)) (path_edges (x :: s)))) (paths_from ag t f vis x).
Proof.
  induction f as [|f IH]; intros vis x; cbn [paths_from];
    rewrite asucc_remove, filter_flat_map, flat_map_filter; apply flat_map_ext; intros c;
    unfold edge_eqb; simpl fst; simpl snd.
  - destruct (existsb (String.eqb c) vis); [destruct (negb _); reflexivity|].
    destruct (String.eqb c t); [|destruct (negb _); reflexivity].
    simpl. rewrite (String.eqb_sym u x), (String.eqb_sym v c).
    destruct (String.eqb x u && String.eqb c v); reflexivity.
  - destruct (existsb (String.eqb c) vis); [destruct (negb _); reflexivity|].
    destruct (String.eqb c t).
    + simpl. rewrite (String.eqb_sym u x), (String.eqb_sym v c).
      destruct (String.eqb x u && String.eqb c v); reflexivity.
    + rewrite IH, filter_map_cons. simpl.
      rewrite (String.eqb_sym u x), (String.eqb_sym v c).
      destruct (String.eqb x u && String.eqb c v); simpl.
      * symmetry. clear. induction (paths_from ag t f (c :: vis) c) as [|s L IHL]; simpl; [reflexivity|].
        exact IHL.
      * reflexivity.
Qed.

Lemma all_simple_paths_remove ag u v s t c :
  NX.all_simple_paths (remove_edge ag u v) s t c =
  filter (fun p => negb (existsb (edge_eqb (u, v)) (path_edges p))) (NX.all_simple_paths ag s t c).
Proof.
  unfold NX.all_simple_paths. change (amem (remove_edge ag u v)) with (amem ag).
  destruct (amem ag s), (amem ag t), (String.eqb s t), c as [|c]; simpl; try reflexivity.
  rewrite paths_from_remove, filter_map_cons. reflexivity.
Qed.

Lemma find_all_paths_remove ts ag u v :
  _find_all_paths ts (remove_edge ag u v) =
  filter (fun p => negb (existsb (edge_eqb (u, v)) (path_edges p))) (_find_all_paths ts ag).
Proof.
  unfold _find_all_paths. rewrite filter_flat_map. apply flat_map_ext. intros t.
  apply all_simple_paths_remove.
Qed.

(** *** The enumerated paths are simple and respect the cutoff *)

Lemma existsb_eqb_false c vis : existsb (String.eqb c) vis = false -> ~ In c vis.
Proof.
  intros H Hin. assert (existsb (String.eqb c) vis = true) by
    (apply existsb_exists; exists c; split; [exact Hin|apply String.eqb_refl]).
  congruence.
Qed.

Lemma paths_from_simple ag t f :
  forall vis x s, In s (paths_from ag t f vis x) ->
  s <> [] /\ NoDup s /\ length s <= S f /\ (forall y, In y s -> ~ In y vis).
Proof.
  induction f as [|f IH]; intros vis x s Hs; cbn [paths_from] in Hs;
    apply in_flat_map in Hs as [c [_ Hs]];
    destruct (existsb (String.eqb c) vis) eqn:Hv; try destruct Hs;
    apply existsb_eqb_false in Hv;
    (destruct (String.eqb c t);
     [destruct Hs as [<-|[]]; repeat split; simpl;
      first [discriminate|lia|constructor; [intros []|constructor]|intros y [<-|[]]; exact Hv]|]).
  - destruct Hs.
  - apply in_map_iff in Hs as [s' [<- Hs']]. destruct (IH _ _ _ Hs') as [_ [Hnd [Hlen Hnot]]].
    repeat split; simpl.
    + discriminate.
    + constructor; [|exact Hnd]. intros Hc. apply (Hnot c Hc). left. reflexivity.
    + lia.
    + intros y [<-|Hy]; [exact Hv|]. intros Hin. apply (Hnot y Hy). right. exact Hin.
Qed.

Lemma find_all_paths_simple ts ag p :
  In p (_find_all_paths ts ag) -> NoDup p /\ 2 <= length p <= 11.
Proof.
  unfold _find_all_paths, NX.all_simple_paths. intros H. apply in_flat_map in H as [t [_ H]].
  destruct (amem ag internet_node), (amem ag t), (String.eqb internet_node t);
    cbn -[paths_from] in H; try destruct H.
  apply in_map_iff in H as [s [<- Hs]].
  destruct (paths_from_simple _ _ _ _ _ _ Hs) as [Hne [Hnd [Hlen Hnot]]].
  split.
  - constructor; [|exact Hnd]. intros Hin. apply (Hnot _ Hin). left. reflexivity.
  - destruct s; [congruence|]. simpl in *. lia.
Qed.

(** *** Edge counts *)

Lemma edge_eqb_true e1 e2 : edge_eqb e1 e2 = true <-> e1 = e2.
Proof.
  destruct e1 as [a b], e2 as [c d]. unfold edge_eqb. simpl. rewrite andb_true_iff, !String.eqb_eq.
  split; [intros [-> ->]; reflexivity|intros H; inversion H; auto].
Qed.

Lemma edge_eqb_refl e : edge_eqb e e = true.
Proof. apply edge_eqb_true. reflexivity. Qed.

Lemma edge_eqb_sym e1 e2 : edge_eqb e1 e2 = edge_eqb e2 e1.
Proof.
  destruct (edge_eqb e1 e2) eqn:H1, (edge_eqb e2 e1) eqn:H2; auto.
  - apply edge_eqb_true in H1. subst. rewrite edge_eqb_refl in H2. discriminate.
  - apply edge_eqb_true in H2. subst. rewrite edge_eqb_refl in H1. discriminate.
Qed.

Lemma edge_eqb_trans_false e1 e2 k : edge_eqb e1 e2 = true -> edge_eqb e1 k = edge_eqb e2 k.
Proof. intros H. apply edge_eqb_true in H. subst. reflexivity. Qed.

Lemma count_of_cons k e' n rest :
  count_of k ((e', n) :: rest) = if edge_eqb e' k then n else count_of k rest.
Proof. unfold count_of. simpl. destruct (edge_eqb e' k); reflexivity. Qed.

Lemma count_of_incr k acc e :
  count_of k (incr acc e) = if edge_eqb e k then S (count_of k acc) else count_of k acc.
Proof.
  induction acc as [|[e' n] acc IH]; simpl incr.
  - rewrite count_of_cons. destruct (edge_eqb e k); reflexivity.
  - destruct (edge_eqb e' e) eqn:He; rewrite !count_of_cons.
    + rewrite (edge_eqb_trans_false _ _ k He). destruct (edge_eqb e k); reflexivity.
    + rewrite IH. destruct (edge_eqb e' k) eqn:Hk; [|reflexivity].
      destruct (edge_eqb e k) eqn:Hk'; [|reflexivity].
      apply edge_eqb_true in Hk, Hk'. subst. rewrite edge_eqb_refl in He. discriminate.
Qed.

Lemma count_of_fold k es acc :
  count_of k (fold_left incr es acc) = count_of k acc + occurrences k es.
Proof.
  revert acc. induction es as [|e es IH]; intros acc; simpl; [unfold occurrences; simpl; lia|].
  rewrite IH, count_of_incr. unfold occurrences. simpl. rewrite (edge_eqb_sym k e).
  destruct (edge_eqb e k); simpl; lia.
Qed.

Lemma incr_keys acc e k : In k (map fst (incr acc e)) -> In k (map fst acc) \/ k = e.
Proof.
  induction acc as [|[e' n] acc IH]; simpl.
  - intros [<-|[]]. right. reflexivity.
  - destruct (edge_eqb e' e); simpl; intros [<-|H]; auto.
    destruct (IH H); auto.
Qed.

Lemma incr_nodup acc e : NoDup (map fst acc) -> NoDup (map fst (incr acc e)).
Proof.
  induction acc as [|[e' n] acc IH]; simpl; intros H.
  - constructor; [intros []|constructor].
  - inversion H as [|? ? Hn Hnd]; subst. destruct (edge_eqb e' e) eqn:He; simpl.
    + constructor; assumption.
    + constructor; [|exact (IH Hnd)]. intros Hin. destruct (incr_keys _ _ _ Hin) as [Hin'|E].
      * exact (Hn Hin').
      * subst. rewrite edge_eqb_refl in He. discriminate.
Qed.

Lemma edge_counts_nodup paths : NoDup (map fst (edge_counts paths)).
Proof.
  unfold edge_counts. generalize (flat_map path_edges paths) as es.
  assert (H : forall es acc, NoDup (map fst acc) -> NoDup (map fst (fold_left incr es acc))).
  { induction es as [|e es IH]; intros acc Hacc; simpl; [exact Hacc|].
    apply IH, incr_nodup, Hacc. }
  intros es. apply H. constructor.
Qed.

Lemma count_of_in l k n : NoDup (map fst l) -> In (k, n) l -> count_of k l = n.
Proof.
  unfold count_of. induction l as [|[k' n'] l IH]; simpl; intros Hnd Hin; [destruct Hin|].
  inversion Hnd as [|? ? Hn Hnd']; subst.
  destruct Hin as [E|Hin].
  - inversion E; subst. rewrite edge_eqb_refl. reflexivity.
  - destruct (edge_eqb k' k) eqn:Hk.
    + apply edge_eqb_true in Hk. subst. exfalso. apply Hn. change k with (fst (k, n)). apply in_map. exact Hin.
    + exact (IH Hnd' Hin).
Qed.

Lemma count_of_pos l k : 0 < count_of k l -> In (k, count_of k l) l.
Proof.
  unfold count_of. destruct (find (fun kv => edge_eqb (fst kv) k) l) as [[k' n]|] eqn:Hf; [|lia].
  intros _. apply find_some in Hf as [Hin Hk]. simpl in Hk. apply edge_eqb_true in Hk. subst. exact Hin.
Qed.

Lemma path_edges_in p a b : In (a, b) (path_edges p) -> In a p.
Proof.
  induction p as [|x p IH]; simpl; [intros []|].
  destruct p as [|y p]; [intros []|]. intros [E|H]; [inversion E; left; reflexivity|].
  right. exact (IH H).
Qed.

Lemma path_edges_nodup p : NoDup p -> NoDup (path_edges p).
Proof.
  induction p as [|x p IH]; simpl; intros H; [constructor|].
  inversion H as [|? ? Hx Hnd]; subst.
  destruct p as [|y p]; [constructor|]. constructor; [|exact (IH Hnd)].
  intros Hin. apply Hx. exact (path_edges_in _ _ _ Hin).
Qed.

Lemma filter_all_false {A} (P : A -> bool) l : (forall x, In x l -> P x = false) -> filter P l = [].
Proof.
  induction l as [|a l IH]; simpl; intros H; [reflexivity|].
  rewrite (H a (or_introl eq_refl)). apply IH. intros x Hx. apply H. right. exact Hx.
Qed.

Lemma occurrences_nodup k l :
  NoDup l -> occurrences k l = if existsb (edge_eqb k) l then 1 else 0.
Proof.
  unfold occurrences. induction l as [|e l IH]; simpl; intros H; [reflexivity|].
  inversion H as [|? ? He Hnd]; subst. destruct (edge_eqb k e) eqn:Hk; simpl.
  - apply edge_eqb_true in Hk. subst.
    assert (filter (edge_eqb e) l = []) as ->; [|reflexivity].
    apply filter_all_false. intros x Hx. destruct (edge_eqb e x) eqn:Hex; [|reflexivity].
    apply edge_eqb_true in Hex. subst. contradiction.
  - exact (IH Hnd).
Qed.

Lemma occurrences_app k l1 l2 : occurrences k (l1 ++ l2) = occurrences k l1 + occurrences k l2.
Proof. unfold occurrences. rewrite filter_app, length_app. reflexivity. Qed.

(** On simple paths, counting occurrences of an edge counts the paths it is on. *)
Lemma occurrences_participation k paths :
  (forall p, In p paths -> NoDup p) ->
  occurrences k (flat_map path_edges paths) = participation k paths.
Proof.
  unfold participation. induction paths as [|p paths IH]; simpl; intros H; [reflexivity|].
  rewrite occurrences_app, (occurrences_nodup k _ (path_edges_nodup p (H p (or_introl eq_refl)))), IH.
  - destruct (existsb (edge_eqb k) (path_edges p)); reflexivity.
  - intros q Hq. apply H. right. exact Hq.
Qed.

Lemma edge_counts_count k paths : count_of k (edge_counts paths) = occurrences k (flat_map path_edges paths).
Proof. unfold edge_counts. rewrite count_of_fold. reflexivity. Qed.

Lemma edge_counts_in k n paths :
  In (k, n) (edge_counts paths) -> n = occurrences k (flat_map path_edges paths).
Proof.
  intros H. rewrite <- edge_counts_count. symmetry. apply count_of_in; [apply edge_counts_nodup|exact H].
Qed.

(** [max] returns the first entry of largest count. *)
Lemma max_by_count_spec counts m :
  max_by_count counts = Some m ->
  exists pre post, counts = (pre ++ m :: post)%list /\
    Forall (fun kv => snd kv < snd m) pre /\ Forall (fun kv => snd kv <= snd m) post.
Proof.
  unfold max_by_count. destruct counts as [|first rest]; [discriminate|]. intros H. injection H as Hm. subst m.
  assert (Gen : forall (rest pre0 : list ((string * string) * nat)) b mid,
             Forall (fun kv => snd kv < snd b) pre0 -> Forall (fun kv => snd kv <= snd b) mid ->
             let m := fold_left (fun best kv => if Nat.ltb (snd best) (snd kv) then kv else best) rest b in
             exists pre post, (pre0 ++ b :: mid ++ rest)%list = (pre ++ m :: post)%list /\
               Forall (fun kv => snd kv < snd m) pre /\ Forall (fun kv => snd kv <= snd m) post).
  { clear. induction rest as [|kv rest IH]; intros pre0 b mid Hpre Hmid; simpl.
    - exists pre0, mid. rewrite app_nil_r. auto.
    - destruct (Nat.ltb (snd b) (snd kv)) eqn:Hlt.
      + apply Nat.ltb_lt in Hlt.
        destruct (IH (pre0 ++ b :: mid)%list kv []) as [pre [post [E [Hp Hq]]]].
        * apply Forall_app. split; [|constructor; [exact Hlt|]].
          -- eapply Forall_impl; [|exact Hpre]. intros a Ha. simpl in Ha. lia.
          -- eapply Forall_impl; [|exact Hmid]. intros a Ha. simpl in Ha. lia.
        * constructor.
        * exists pre, post. rewrite <- E. rewrite <- app_assoc. simpl. auto.
      + apply Nat.ltb_ge in Hlt.
        destruct (IH pre0 b (mid ++ [kv])%list) as [pre [post [E [Hp Hq]]]]; [exact Hpre| |].
        * apply Forall_app. split; [exact Hmid|constructor; [exact Hlt|constructor]].
        * exists pre, post. rewrite <- E. rewrite <- app_assoc. simpl. auto. }
  destruct (Gen rest [] first [] (Forall_nil _) (Forall_nil _)) as [pre [post [E HH]]].
  exists pre, post. simpl in E. split; [exact E|exact HH].
Qed.

(** *** One round of the fix loop *)

Lemma fix_step_spec targets g k rem g' :
  fix_step targets g k = Some (rem, g') ->
  _find_all_paths targets g <> [] /\
  max_by_count (edge_counts (_find_all_paths targets g))
    = Some ((edge_source rem, edge_target rem), paths_blocked rem) /\
  g' = remove_edge g (edge_source rem) (edge_target rem).
Proof.
  unfold fix_step. destruct (_find_all_paths targets g) as [|p ps]; [discriminate|].
  destruct (max_by_count (edge_counts (p :: ps))) as [[[u v] count]|]; [|discriminate].
  destruct (edge_data g u v) as [[m r]|]; intros H; injection H as <- <-; simpl;
    repeat split; discriminate.
Qed.

Lemma participation_count k paths :
  (forall p, In p paths -> NoDup p) -> participation k paths = count_of k (edge_counts paths).
Proof. intros H. rewrite edge_counts_count, occurrences_participation; auto. Qed.

Lemma find_all_paths_nodup ts ag p : In p (_find_all_paths ts ag) -> NoDup p.
Proof. intros H. apply (find_all_paths_simple ts ag p H). Qed.

(** *** Each round removes a path; the loop ends with none left *)

Lemma fold_incr_keys k es acc :
  In k (map fst (fold_left incr es acc)) -> In k (map fst acc) \/ In k es.
Proof.
  revert acc. induction es as [|e es IH]; intros acc H; simpl in *; [left; exact H|].
  destruct (IH _ H) as [H'|H']; [|right; right; exact H'].
  destruct (incr_keys _ _ _ H') as [H''|<-]; [left; exact H''|right; left; reflexivity].
Qed.

Lemma edge_counts_key_on_path k n paths :
  In (k, n) (edge_counts paths) -> exists p, In p paths /\ existsb (edge_eqb k) (path_edges p) = true.
Proof.
  intros H. assert (Hk : In k (map fst (edge_counts paths))) by (change k with (fst (k, n)); apply in_map; exact H).
  unfold edge_counts in Hk. destruct (fold_incr_keys _ _ _ Hk) as [[]|Hin].
  apply in_flat_map in Hin as [p [Hp Hin]]. exists p. split; [exact Hp|].
  apply existsb_exists. exists k. split; [exact Hin|apply edge_eqb_refl].
Qed.

Lemma filter_length_lt {A} (P : A -> bool) l x : In x l -> P x = false -> length (filter P l) < length l.
Proof.
  induction l as [|a l IH]; simpl; intros Hx HP; [destruct Hx|].
  destruct Hx as [<-|Hx].
  - rewrite HP. pose proof (filter_length_le P l). lia.
  - specialize (IH Hx HP). destruct (P a); simpl; lia.
Qed.

Lemma fix_step_decreases targets g k rem g' :
  fix_step targets g k = Some (rem, g') ->
  g' = remove_edge g (edge_source rem) (edge_target rem) /\
  length (_find_all_paths targets g') < length (_find_all_paths targets g).
Proof.
  intros H. destruct (fix_step_spec _ _ _ _ _ H) as [_ [Hm ->]]. split; [reflexivity|].
  rewrite find_all_paths_remove.
  destruct (max_by_count_spec _ _ Hm) as [pre [post [E _]]].
  assert (Hin : In ((edge_source rem, edge_target rem), paths_blocked rem)
                   (edge_counts (_find_all_paths targets g)))
    by (rewrite E; apply in_or_app; right; left; reflexivity).
  destruct (edge_counts_key_on_path _ _ _ Hin) as [p [Hp Hu]].
  apply (filter_length_lt _ _ p Hp). rewrite Hu. reflexivity.
Qed.

Lemma incr_not_nil acc e : incr acc e <> [].
Proof. destruct acc as [|[e' n] acc]; simpl; [discriminate|destruct (edge_eqb e' e); discriminate]. Qed.

Lemma fold_incr_not_nil es acc : (es <> [] \/ acc <> []) -> fold_left incr es acc <> [].
Proof.
  revert acc. induction es as [|e es IH]; intros acc H; simpl.
  - destruct H as [H|H]; [congruence|exact H].
  - apply IH. right. apply incr_not_nil.
Qed.

Lemma fix_step_none targets g k :
  fix_step targets g k = None -> _find_all_paths targets g = [].
Proof.
  unfold fix_step. destruct (_find_all_paths targets g) as [|p ps] eqn:HP; [reflexivity|].
  destruct (max_by_count (edge_counts (p :: ps))) as [[[u v] count]|] eqn:Hm.
  - destruct (edge_data g u v) as [[m r]|]; discriminate.
  - intros _. exfalso.
    assert (Hp : In p (_find_all_paths targets g)) by (rewrite HP; left; reflexivity).
    destruct (find_all_paths_simple _ _ _ Hp) as [_ Hlen].
    assert (Hne : path_edges p <> []).
    { destruct p as [|a [|b p]]; simpl in Hlen; try lia. discriminate. }
    assert (edge_counts (p :: ps) <> []).
    { unfold edge_counts. apply fold_incr_not_nil. left. simpl.
      destruct (path_edges p); [congruence|discriminate]. }
    destruct (edge_counts (p :: ps)); [congruence|discriminate].
Qed.

Lemma fix_loop_closes targets fuel :
  forall g rems, length (_find_all_paths targets g) < fuel ->
  exists rems' g_final, fix_loop fuel targets g rems = Some (rems', g_final) /\
                        _find_all_paths targets g_final = [].
Proof.
  induction fuel as [|f IH]; intros g rems H; [lia|]. simpl.
  destruct (fix_step targets g (length rems)) as [[rem g']|] eqn:Hs.
  - destruct (fix_step_decreases _ _ _ _ _ Hs) as [_ Hlt]. apply IH. lia.
  - exists rems, g. split; [reflexivity|exact (fix_step_none _ _ _ Hs)].
Qed.

End Facts.

(* ================================================================= *)
(** ** Correctness of the bidirectional search of [nx.shortest_path]

    Each side of the search keeps a parent map and a fringe: after [d]
    levels its keys are the nodes within [d] steps of its end, the fringe
    those exactly [d] steps away, and following parents from a key gives a
    walk back to the end.  The two sides stay apart until they meet, so the
    joined walk is a shortest one. *)

Module Bfs.
Import Py PyStr Model NX Attack Engine SpecSide Facts.

Section Reach.
Variable sc : string -> list string.

(** [u :: p] follows [sc]; [tip u p] is its last node. *)
Fixpoint along (u : string) (p : list string) : Prop :=
  match p with
  | [] => True
  | v :: r => In v (sc u) /\ along v r
  end.

Fixpoint tip (u : string) (p : list string) : string :=
  match p with
  | [] => u
  | v :: r => tip v r
  end.

Definition reach_le (s v : string) (k : nat) : Prop :=
  exists p, along s p /\ tip s p = v /\ length p <= k.

Lemma along_app u p q : along u (p ++ q)%list <-> along u p /\ along (tip u p) q.
Proof.
  revert u; induction p as [|v p IH]; intros u; simpl; [tauto|].
  rewrite IH. tauto.
Qed.

Lemma tip_app u p q : tip u (p ++ q)%list = tip (tip u p) q.
Proof. revert u; induction p as [|v p IH]; intros u; simpl; auto. Qed.

Lemma tip_snoc u p w : tip u (p ++ [w])%list = w.
Proof. rewrite tip_app. reflexivity. Qed.

Lemma reach_mono s v k k' : reach_le s v k -> k <= k' -> reach_le s v k'.
Proof. intros [p [Hc [Ht Hl]]] Hk. exists p. repeat split; auto. lia. Qed.

Lemma reach_step s v w d : reach_le s v d -> In w (sc v) -> reach_le s w (S d).
Proof.
  intros [p [Hc [Ht Hl]]] Hw. exists (p ++ [w])%list.
  rewrite along_app, tip_snoc, length_app. simpl. rewrite Ht. repeat split; auto. lia.
Qed.

Lemma reach_zero s v : reach_le s v 0 <-> v = s.
Proof.
  split.
  - intros [[|x p] [_ [Ht Hl]]]; [auto|simpl in Hl; lia].
  - intros ->. exists []. simpl. auto.
Qed.

(** The last edge of a non-empty [along] walk. *)
Lemma along_last s p :
  along s p -> p <> [] ->
  exists p' u, p = (p' ++ [tip s p])%list /\ along s p' /\ tip s p' = u /\ In (tip s p) (sc u).
Proof.
  intros Hc Hne. destruct (exists_last Hne) as [p' [w E]]. subst p.
  rewrite tip_snoc. apply along_app in Hc as [Hc1 Hc2]. simpl in Hc2.
  exists p', (tip s p'). repeat split; tauto.
Qed.

(** A node first reached at [S d] edges has a predecessor first reached at
    [d] edges. *)
Lemma reach_split s w d :
  ~ reach_le s w d -> reach_le s w (S d) ->
  exists v, reach_le s v d /\ (forall k, k < d -> ~ reach_le s v k) /\ In w (sc v).
Proof.
  intros Hn [p [Hc [Ht Hl]]].
  destruct (le_lt_dec (length p) d) as [Hle|Hlt].
  - exfalso. apply Hn. exists p. auto.
  - assert (Hne : p <> []) by (intros ->; simpl in Hlt; lia).
    destruct (along_last s p Hc Hne) as [p' [u [E [Hc' [Hu Hw]]]]].
    rewrite Ht in E, Hw. rewrite E, length_app in Hl, Hlt. simpl in Hl, Hlt.
    exists u. split; [exists p'; repeat split; auto; lia|]. split; [|exact Hw].
    intros k Hk Hr. apply Hn. apply (reach_mono s w (S k)); [|lia].
    apply (reach_step s u w k Hr Hw).
Qed.

(** An [along] walk stays inside a set closed under [sc]. *)
Lemma along_closed (A : list string) s p :
  (forall u v, In v (sc u) -> In v A) -> In s A -> along s p -> In (tip s p) A.
Proof.
  intros Hcl. revert s; induction p as [|v p IH]; intros s Hs Hc; simpl; [exact Hs|].
  destruct Hc as [Hv Hc]. apply IH; [apply (Hcl s v Hv)|exact Hc].
Qed.

End Reach.

(** Chains of a relation and of its converse are each other's reversal. *)
Lemma along_converse (sc sc' : string -> list string) :
  (forall u v, In v (sc u) -> In u (sc' v)) ->
  forall p u, along sc u p ->
  exists r, rev (u :: p) = tip u p :: r /\ along sc' (tip u p) r /\ tip (tip u p) r = u /\
            length r = length p.
Proof.
  intros Hconv p. induction p as [|v p IH]; intros u Hc.
  - exists []. simpl. auto.
  - destruct Hc as [Hv Hc]. destruct (IH v Hc) as [r [E [Hc' [Ht Hl]]]].
    exists (r ++ [u])%list. cbn [tip]. split; [|split; [|split]].
    + change (rev (u :: v :: p)) with (rev (v :: p) ++ [u])%list. rewrite E. reflexivity.
    + apply along_app. split; [exact Hc'|]. rewrite Ht. simpl. split; [apply Hconv; exact Hv|exact I].
    + apply tip_snoc.
    + rewrite length_app. simpl. lia.
Qed.

(** *** Parent maps *)

Lemma has_key_in (m : parents) k : has_key m k = true <-> In k (map fst m).
Proof.
  unfold has_key. rewrite existsb_exists. split.
  - intros [[a b] [H E]]. apply String.eqb_eq in E. simpl in E. subst a. apply in_map_iff.
    exists (k, b). auto.
  - intros H. apply in_map_iff in H as [[a b] [E H]]. simpl in E. subst a.
    exists (k, b). split; [exact H|apply String.eqb_refl].
Qed.

Lemma has_key_app (m e : parents) k : has_key (m ++ e)%list k = has_key m k || has_key e k.
Proof. unfold has_key. apply existsb_app. Qed.

Lemma has_key_one w (o : option string) k : has_key [(w, o)] k = String.eqb w k.
Proof. unfold has_key. simpl. apply orb_false_r. Qed.

Lemma parent_app_old (m e : parents) k : has_key m k = true -> parent (m ++ e)%list k = parent m k.
Proof.
  unfold parent, has_key. induction m as [|[a b] m IH]; simpl; [discriminate|].
  destruct (String.eqb a k); simpl; auto.
Qed.

Lemma parent_app_new (m : parents) k o : has_key m k = false -> parent (m ++ [(k, o)])%list k = o.
Proof.
  unfold parent, has_key. induction m as [|[a b] m IH]; simpl.
  - rewrite String.eqb_refl. reflexivity.
  - destruct (String.eqb a k); simpl; [discriminate|exact IH].
Qed.

Lemma walk_app n (m e : parents) v :
  (forall x, In x (walk n m v) -> has_key m x = true) -> walk n (m ++ e)%list v = walk n m v.
Proof.
  revert v; induction n as [|n IH]; intros v H; simpl; [reflexivity|].
  rewrite parent_app_old by (apply H; left; reflexivity).
  destruct (parent m v) as [u|] eqn:Hp; [|reflexivity].
  rewrite IH; [reflexivity|]. intros x Hx. apply H. simpl. rewrite Hp. right. exact Hx.
Qed.

Section Side.
Variable sc : string -> list string.
Variable s : string.

(** The walk [walk] reads off [m] from [v] is an [along] walk from [s] of at most
    [d] edges, through keys of [m], without repetition. *)
Definition wk (m : parents) (d : nat) (v : string) : Prop :=
  exists p, along sc s p /\ tip s p = v /\ length p <= d /\ NoDup (s :: p) /\
            Forall (fun x => has_key m x = true) (s :: p) /\
            forall n, length p < n -> walk n m v = rev (s :: p).

Definition walks_ok (m : parents) (d : nat) : Prop :=
  forall v, has_key m v = true -> wk m d v.

Definition keys_ok (m : parents) (d : nat) : Prop :=
  forall v, has_key m v = true <-> reach_le sc s v d.

Definition fringe_ok (fr : list string) (d : nat) : Prop :=
  forall v, In v fr <-> reach_le sc s v d /\ forall k, k < d -> ~ reach_le sc s v k.

Definition side_ok (m : parents) (fr : list string) (d : nat) : Prop :=
  keys_ok m d /\ fringe_ok fr d /\ walks_ok m d /\ NoDup (map fst m).

Lemma wk_app m e d v : wk m d v -> wk (m ++ e)%list d v.
Proof.
  intros [p [Hc [Ht [Hl [Hnd [Hk Hw]]]]]]. exists p. repeat split; auto.
  - eapply Forall_impl; [|exact Hk]. intros x Hx. simpl in Hx. rewrite has_key_app, Hx. reflexivity.
  - intros n Hn. rewrite walk_app; [apply Hw; exact Hn|].
    intros x Hx. rewrite (Hw n Hn) in Hx. apply in_rev in Hx.
    rewrite Forall_forall in Hk. apply Hk. exact Hx.
Qed.

Lemma wk_mono m d d' v : wk m d v -> d <= d' -> wk m d' v.
Proof. intros [p [Hc [Ht [Hl H]]]] Hd. exists p. repeat split; auto; try lia; apply H. Qed.

Lemma nodup_snoc (l : list string) w : NoDup l -> ~ In w l -> NoDup (l ++ [w])%list.
Proof.
  intros Hnd Hw. rewrite <- (rev_involutive (l ++ [w])%list). apply NoDup_rev.
  rewrite rev_app_distr. simpl. constructor.
  - rewrite <- in_rev. exact Hw.
  - apply NoDup_rev. exact Hnd.
Qed.

Lemma wk_snoc m d v w : wk m d v -> has_key m w = false -> In w (sc v) ->
  wk (m ++ [(w, Some v)])%list (S d) w.
Proof.
  intros [p [Hc [Ht [Hl [Hnd [Hk Hw']]]]]] Hw Hs.
  assert (Hnot : ~ In w (s :: p)).
  { intros Hin. rewrite Forall_forall in Hk. rewrite (Hk w Hin) in Hw. discriminate. }
  exists (p ++ [w])%list. split; [|split; [|split; [|split; [|split]]]].
  - apply along_app. rewrite Ht. simpl. auto.
  - apply tip_snoc.
  - rewrite length_app. simpl. lia.
  - change (s :: (p ++ [w]))%list with ((s :: p) ++ [w])%list. apply nodup_snoc; assumption.
  - change (s :: (p ++ [w]))%list with ((s :: p) ++ [w])%list. apply Forall_app. split.
    + eapply Forall_impl; [|exact Hk]. intros x Hx. simpl in Hx. rewrite has_key_app, Hx. reflexivity.
    + constructor; [|constructor]. rewrite has_key_app, has_key_one, String.eqb_refl, orb_true_r.
      reflexivity.
  - intros n Hn. rewrite length_app in Hn. simpl in Hn. destruct n as [|n]; [lia|].
    cbn [walk]. rewrite parent_app_new by exact Hw. rewrite walk_app.
    + rewrite (Hw' n) by lia. change (s :: (p ++ [w]))%list with ((s :: p) ++ [w])%list.
      rewrite rev_app_distr. reflexivity.
    + intros x Hx. rewrite (Hw' n) in Hx by lia. apply in_rev in Hx.
      rewrite Forall_forall in Hk. apply Hk. exact Hx.
Qed.

Lemma walks_ok_snoc m0 added d v w :
  walks_ok m0 d -> walks_ok (m0 ++ added)%list (S d) -> has_key m0 v = true ->
  has_key (m0 ++ added)%list w = false -> In w (sc v) ->
  walks_ok ((m0 ++ added) ++ [(w, Some v)])%list (S d).
Proof.
  intros H0 H1 Hv Hw Hs x Hx. rewrite has_key_app, has_key_one in Hx.
  destruct (has_key (m0 ++ added)%list x) eqn:Hx'.
  - apply wk_app. apply H1. exact Hx'.
  - simpl in Hx. apply String.eqb_eq in Hx. subst x.
    apply wk_snoc; [apply wk_app; apply H0; exact Hv|exact Hw|exact Hs].
Qed.

End Side.

Section Scan.
Variable sc : string -> list string.
Variable s : string.
Variables (m0 : parents) (fr0 : list string) (d : nat).

(** The state of a forward scan after the pairs [done]. *)
Definition scan_inv (m : parents) (fr : list string) (done : list (string * string)) : Prop :=
  (exists added, m = (m0 ++ added)%list) /\
  (forall x, has_key m x = true <-> has_key m0 x = true \/ exists v, In (v, x) done) /\
  (forall x, In x fr <-> has_key m0 x = false /\ exists v, In (v, x) done) /\
  walks_ok sc s m (S d) /\ NoDup (map fst m) /\ length m = length m0 + length fr.

Lemma in_snoc_pair (done : list (string * string)) v w v' x :
  In (v', x) (done ++ [(v, w)])%list <-> In (v', x) done \/ (v' = v /\ x = w).
Proof.
  rewrite in_app_iff. simpl. split.
  - intros [H|[H|[]]]; [left; exact H|right; inversion H; auto].
  - intros [H|[-> ->]]; auto.
Qed.

Lemma scan_spec (other : parents) :
  walks_ok sc s m0 d -> keys_ok sc s m0 d -> fringe_ok sc s fr0 d ->
  forall rest m fr done,
  (forall v w, In (v, w) (done ++ rest)%list -> In v fr0 /\ In w (sc v)) ->
  scan_inv m fr done ->
  (forall v x, In (v, x) done -> has_key other x = false) ->
  match forward_scan rest m other fr with
  | (m', fr', None) =>
      scan_inv m' fr' (done ++ rest)%list /\
      forall v x, In (v, x) (done ++ rest)%list -> has_key other x = false
  | (m', fr', Some w) =>
      has_key other w = true /\ has_key m' w = true /\ walks_ok sc s m' (S d) /\ NoDup (map fst m')
  end.
Proof.
  intros Hw0 Hk0 Hf0. induction rest as [|[v w] rest IH]; intros m fr done Hp HJ Ho.
  - simpl. rewrite app_nil_r. auto.
  - destruct HJ as [[added Em] [Hk [Hf [Hw [Hnd Hlen]]]]].
    assert (Hvw : In v fr0 /\ In w (sc v)) by (apply Hp; apply in_or_app; right; left; reflexivity).
    assert (Hp' : forall v' w', In (v', w') ((done ++ [(v, w)]) ++ rest)%list -> In v' fr0 /\ In w' (sc v'))
      by (intros v' w' H; apply Hp; rewrite <- app_assoc in H; exact H).
    cbn [forward_scan]. destruct (has_key m w) eqn:Hmw.
    + destruct (has_key other w) eqn:How; [repeat split; auto|].
      specialize (IH m fr (done ++ [(v, w)])%list Hp').
      rewrite <- app_assoc in IH. apply IH.
      * split; [exists added; exact Em|]. split; [|split; [|auto]].
        -- intros x. rewrite Hk. split.
           ++ intros [H|[v' H]]; [left; exact H|right; exists v'; apply in_or_app; left; exact H].
           ++ intros [H|[v' H]]; [left; exact H|]. apply in_snoc_pair in H as [H|[-> ->]];
                [right; exists v'; exact H|]. apply Hk. rewrite Hmw. reflexivity.
        -- intros x. rewrite Hf. split.
           ++ intros [H [v' H']]. split; [exact H|exists v'; apply in_or_app; left; exact H'].
           ++ intros [H [v' H']]. split; [exact H|]. apply in_snoc_pair in H' as [H'|[-> ->]];
                [exists v'; exact H'|].
              apply Hk in Hmw as [Hmw|Hmw]; [congruence|exact Hmw].
      * intros v' x H. apply in_snoc_pair in H as [H|[-> ->]]; [apply (Ho v' x H)|exact How].
    + assert (Hm0w : has_key m0 w = false)
        by (rewrite Em, has_key_app in Hmw; apply orb_false_iff in Hmw; apply Hmw).
      assert (Hw' : walks_ok sc s (m ++ [(w, Some v)])%list (S d)).
      { rewrite Em in Hmw, Hw |- *.
        apply walks_ok_snoc; [exact Hw0|exact Hw|apply Hk0, Hf0, Hvw|exact Hmw|apply Hvw]. }
      assert (Hnd' : NoDup (map fst (m ++ [(w, Some v)])%list)).
      { rewrite map_app. apply nodup_snoc; [exact Hnd|]. intros H. apply has_key_in in H. simpl in H. congruence. }
      destruct (has_key other w) eqn:How.
      * repeat split; auto. rewrite has_key_app, has_key_one, String.eqb_refl, orb_true_r. reflexivity.
      * specialize (IH (m ++ [(w, Some v)])%list (fr ++ [w])%list (done ++ [(v, w)])%list Hp').
        rewrite <- app_assoc in IH. apply IH.
        -- split; [exists (added ++ [(w, Some v)])%list; rewrite Em, app_assoc; reflexivity|].
           split; [|split; [|split; [exact Hw'|split; [exact Hnd'|]]]].
           ++ intros x. rewrite has_key_app, has_key_one, orb_true_iff, Hk, String.eqb_eq. split.
              ** intros [[H|[v' H]]|<-]; [left; exact H| |right; exists v; apply in_snoc_pair; auto].
                 right. exists v'. apply in_or_app. left. exact H.
              ** intros [H|[v' H]]; [left; left; exact H|]. apply in_snoc_pair in H as [H|[-> ->]];
                   [left; right; exists v'; exact H|right; reflexivity].
           ++ intros x. rewrite in_app_iff, Hf. simpl. split.
              ** intros [[H [v' H']]|[<-|[]]]; (split; [auto|]).
                 --- exists v'. apply in_or_app. left. exact H'.
                 --- exists v. apply in_snoc_pair. auto.
              ** intros [H [v' H']]. apply in_snoc_pair in H' as [H'|[-> ->]];
                   [left; split; [exact H|exists v'; exact H']|right; left; reflexivity].
           ++ rewrite !length_app, Hlen. simpl. lia.
        -- intros v' x H. apply in_snoc_pair in H as [H|[-> ->]]; [apply (Ho v' x H)|exact How].
Qed.

End Scan.

Lemma pairs_in (sc : string -> list string) fr v x :
  In (v, x) (flat_map (fun v => map (pair v) (sc v)) fr) <-> In v fr /\ In x (sc v).
Proof.
  rewrite in_flat_map. split.
  - intros [v' [Hv' H]]. apply in_map_iff in H as [x' [E H]]. inversion E. subst. auto.
  - intros [Hv Hx]. exists v. split; [exact Hv|]. apply in_map. exact Hx.
Qed.

(** One level of the search from [s]: without a meeting the parents and the
    new fringe describe the next level; with one, the meeting node has a
    walk. *)
Lemma round_spec sc s m0 fr0 d (other : parents) :
  side_ok sc s m0 fr0 d ->
  match forward_scan (flat_map (fun v => map (pair v) (sc v)) fr0) m0 other [] with
  | (m', fr', None) =>
      side_ok sc s m' fr' (S d) /\ length m' = length m0 + length fr' /\
      (forall v x, In v fr0 -> In x (sc v) -> has_key other x = false)
  | (m', fr', Some w) =>
      has_key other w = true /\ has_key m' w = true /\ walks_ok sc s m' (S d) /\ NoDup (map fst m')
  end.
Proof.
  intros [Hk [Hf [Hw Hnd]]].
  assert (Hinit : scan_inv sc s m0 d m0 [] []).
  { split; [exists []; rewrite app_nil_r; reflexivity|]. split; [|split; [|split; [|split]]].
    - intros x. split; [auto|intros [H|[v []]]; exact H].
    - intros x. simpl. split; [intros []|intros [_ [v []]]].
    - intros x Hx. apply (wk_mono sc s m0 d); [apply Hw; exact Hx|lia].
    - exact Hnd.
    - simpl. lia. }
  pose proof (scan_spec sc s m0 fr0 d other Hw Hk Hf
                (flat_map (fun v => map (pair v) (sc v)) fr0) m0 [] []
                (fun v w H => proj1 (pairs_in sc fr0 v w) H) Hinit (fun v x H => match H with end)) as H.
  cbn [app] in H.
  destruct (forward_scan _ m0 other []) as [[m' fr'] [w|]]; [exact H|].
  destruct H as [[[added Em] [Hk' [Hf' [Hw' [Hnd' Hlen]]]]] Ho'].
  split; [|split; [exact Hlen|intros v x Hv Hx; apply (Ho' v x), pairs_in; auto]].
  split; [|split; [|split; [exact Hw'|exact Hnd']]].
  - intros x. rewrite Hk'. split.
    + intros [H|[v H]].
      * apply (reach_mono sc s x d); [apply Hk; exact H|lia].
      * apply pairs_in in H as [Hv Hx]. apply (reach_step sc s v x d); [apply Hf; exact Hv|exact Hx].
    + intros H. destruct (has_key m0 x) eqn:E; [left; reflexivity|right].
      assert (Hn : ~ reach_le sc s x d) by (intros Hr; apply Hk in Hr; congruence).
      destruct (reach_split sc s x d Hn H) as [v [Hv1 [Hv2 Hv3]]].
      exists v. apply pairs_in. split; [apply Hf; auto|exact Hv3].
  - intros x. rewrite Hf'. split.
    + intros [E [v H]]. apply pairs_in in H as [Hv Hx].
      split; [apply (reach_step sc s v x d); [apply Hf; exact Hv|exact Hx]|].
      intros k Hk1 Hr. assert (Hr' : reach_le sc s x d) by (apply (reach_mono sc s x k); [exact Hr|lia]).
      apply Hk in Hr'. congruence.
    + intros [H Hmin]. assert (Hn : ~ reach_le sc s x d) by (apply Hmin; lia).
      split; [destruct (has_key m0 x) eqn:E; [exfalso; apply Hn, Hk, E|reflexivity]|].
      destruct (reach_split sc s x d Hn H) as [v [Hv1 [Hv2 Hv3]]].
      exists v. apply pairs_in. split; [apply Hf; auto|exact Hv3].
Qed.

(** *** The level-by-level search from both ends *)

Definition disjoint (sc : string -> list string) (s : string) (d : nat)
           (sc' : string -> list string) (t : string) (d' : nat) : Prop :=
  forall v, reach_le sc s v d -> reach_le sc' t v d' -> False.

Lemma disjoint_sym sc s d sc' t d' : disjoint sc s d sc' t d' -> disjoint sc' t d' sc s d.
Proof. intros H v H1 H2. exact (H v H2 H1). Qed.

(** With an empty fringe every node reachable from [s] is already a key. *)
Lemma empty_fringe_closed sc s m d :
  side_ok sc s m [] d -> forall v k, reach_le sc s v k -> reach_le sc s v d.
Proof.
  intros [Hk [Hf _]] v k. revert v. induction k as [|k IH]; intros v Hr.
  - apply (reach_mono sc s v 0); [exact Hr|lia].
  - destruct Hr as [p [Hc [Ht Hl]]]. destruct (le_lt_dec (length p) k) as [Hle|Hlt].
    + apply IH. exists p. auto.
    + assert (Hne : p <> []) by (intros ->; simpl in Hlt; lia).
      destruct (along_last sc s p Hc Hne) as [p' [u [E [Hc' [Hu Hw]]]]].
      rewrite Ht in E, Hw. rewrite E, length_app in Hl. simpl in Hl.
      assert (Hu' : reach_le sc s u d) by (apply IH; exists p'; repeat split; auto; lia).
      destruct (has_key m v) eqn:Hm; [apply Hk; exact Hm|].
      assert (Hn : ~ reach_le sc s v d) by (intros H; apply Hk in H; congruence).
      destruct (reach_split sc s v d Hn (reach_step sc s u v d Hu' Hw)) as [x [Hx1 [Hx2 _]]].
      exfalso. apply (proj2 (Hf x)). auto.
Qed.

Lemma empty_fringe_unreachable sc s m d sc' t d' :
  side_ok sc s m [] d -> disjoint sc s d sc' t d' -> forall k, ~ reach_le sc s t k.
Proof.
  intros Hs Hd k Hr. apply (Hd t).
  - exact (empty_fringe_closed sc s m d Hs t k Hr).
  - apply (reach_mono sc' t t 0); [apply reach_zero; reflexivity|lia].
Qed.

(** A level without meeting keeps the two searched regions apart. *)
Lemma disjoint_step sc s m0 fr0 d sc' t m1 d' :
  keys_ok sc s m0 d -> fringe_ok sc s fr0 d -> keys_ok sc' t m1 d' ->
  disjoint sc s d sc' t d' ->
  (forall v x, In v fr0 -> In x (sc v) -> has_key m1 x = false) ->
  disjoint sc s (S d) sc' t d'.
Proof.
  intros Hk Hf Hk1 Hd Hno v Hr Hr'.
  destruct (has_key m0 v) eqn:Hm; [exact (Hd v (proj1 (Hk v) Hm) Hr')|].
  assert (Hn : ~ reach_le sc s v d) by (intros H; apply Hk in H; congruence).
  destruct (reach_split sc s v d Hn Hr) as [u [Hu1 [Hu2 Hu3]]].
  assert (E : has_key m1 v = false) by (apply (Hno u); [apply Hf; auto|exact Hu3]).
  apply Hk1 in Hr'. congruence.
Qed.

(** A walk of at most [d + d'] edges from [s] to [t] passes through a node
    within [d] of [s] and, backwards, within [d'] of [t]. *)
Lemma walk_split sc sc' s t d d' q :
  (forall u v, In v (sc u) -> In u (sc' v)) ->
  along sc s q -> tip s q = t -> length q <= d + d' ->
  exists v, reach_le sc s v d /\ reach_le sc' t v d'.
Proof.
  intros Hconv Hc Ht Hl. set (k := Nat.min d (length q)).
  rewrite <- (firstn_skipn k q) in Hc, Ht.
  apply along_app in Hc as [Hc1 Hc2]. rewrite tip_app in Ht.
  exists (tip s (firstn k q)). split.
  - exists (firstn k q). repeat split; auto. rewrite length_firstn. lia.
  - destruct (along_converse sc sc' Hconv _ _ Hc2) as [r [_ [Hr1 [Hr2 Hr3]]]].
    rewrite Ht in Hr1, Hr2. exists r. repeat split; auto.
    rewrite Hr3, length_skipn. lia.
Qed.

Lemma disjoint_bound sc sc' s t d d' q :
  (forall u v, In v (sc u) -> In u (sc' v)) ->
  disjoint sc s d sc' t d' -> along sc s q -> tip s q = t -> d + d' < length q.
Proof.
  intros Hconv Hd Hc Ht. destruct (le_lt_dec (length q) (d + d')) as [Hle|Hlt]; [|exact Hlt].
  destruct (walk_split sc sc' s t d d' q Hconv Hc Ht Hle) as [v [H1 H2]]. destruct (Hd v H1 H2).
Qed.

(** The keys of a side are nodes of a set closed under [sc] holding [s]. *)
Lemma side_length sc s m fr d (A : list string) :
  (forall u v, In v (sc u) -> In v A) -> In s A ->
  side_ok sc s m fr d -> length m <= length A.
Proof.
  intros Hcl Hs [Hk [_ [_ Hnd]]]. rewrite <- (length_map fst m).
  apply NoDup_incl_length; [exact Hnd|]. intros x Hx. apply has_key_in, Hk in Hx.
  destruct Hx as [p [Hc [Ht _]]]. rewrite <- Ht. exact (along_closed sc A s p Hcl Hs Hc).
Qed.

(** The walk read off a side at a key is no longer than the side. *)
Lemma wk_fuel sc s m d v :
  wk sc s m d v -> NoDup (map fst m) ->
  exists p, along sc s p /\ tip s p = v /\ length p <= d /\ walk (S (length m)) m v = rev (s :: p).
Proof.
  intros [p [Hc [Ht [Hl [Hnd [Hk Hw]]]]]] Hndm. exists p. repeat split; auto. apply Hw.
  assert (H : length (s :: p) <= length (map fst m)).
  { apply NoDup_incl_length; [exact Hnd|]. intros x Hx. apply has_key_in.
    rewrite Forall_forall in Hk. apply Hk. exact Hx. }
  rewrite length_map in H. simpl in H. lia.
Qed.

(** *** The attack graph's successor and predecessor lists *)

Lemma asucc_in ag u v : In v (asucc ag u) <-> exists e, In e (aedges ag) /\ src e = u /\ dst e = v.
Proof.
  unfold asucc. rewrite in_map_iff. split.
  - intros [e [E H]]. apply filter_In in H as [H Hs]. apply String.eqb_eq in Hs. eauto.
  - intros [e [H [Hs Hd]]]. exists e. split; [exact Hd|]. apply filter_In. split; [exact H|].
    apply String.eqb_eq. exact Hs.
Qed.

Lemma apred_in ag u v : In u (apred ag v) <-> exists e, In e (aedges ag) /\ src e = u /\ dst e = v.
Proof.
  unfold apred. rewrite in_map_iff. split.
  - intros [e [E H]]. apply filter_In in H as [H Hs]. apply String.eqb_eq in Hs. eauto.
  - intros [e [H [Hs Hd]]]. exists e. split; [exact Hs|]. apply filter_In. split; [exact H|].
    apply String.eqb_eq. exact Hd.
Qed.

Lemma asucc_apred ag u v : In v (asucc ag u) -> In u (apred ag v).
Proof. rewrite asucc_in, apred_in. exact (fun H => H). Qed.

Lemma apred_asucc ag u v : In v (apred ag u) -> In u (asucc ag v).
Proof. rewrite asucc_in, apred_in. exact (fun H => H). Qed.

Lemma reverse_forward l pred succ fr : reverse_scan l pred succ fr = forward_scan l succ pred fr.
Proof.
  revert pred succ fr; induction l as [|[v w] l IH]; intros pred succ fr; simpl; [reflexivity|].
  destruct (has_key succ w), (has_key pred w); try reflexivity; apply IH.
Qed.

Section Bidirectional.
Variable ag : agraph.
(** Every edge joins two nodes of the graph. *)
Hypothesis Hwf : forall e, In e (aedges ag) -> In (src e) (anodes ag) /\ In (dst e) (anodes ag).
Variables s t : string.
Hypotheses (Hs : In s (anodes ag)) (Ht : In t (anodes ag)).

Lemma asucc_closed u v : In v (asucc ag u) -> In v (anodes ag).
Proof. intros H. apply asucc_in in H as [e [He [_ <-]]]. apply Hwf, He. Qed.

Lemma apred_closed u v : In v (apred ag u) -> In v (anodes ag).
Proof. intros H. apply apred_in in H as [e [He [<- _]]]. apply Hwf, He. Qed.

(** What a meeting at [w] yields: the two halves of the path and its
    minimality. *)
Definition met (pred succ : parents) (w : string) : Prop :=
  exists p1 p2,
    along (asucc ag) s p1 /\ tip s p1 = w /\ walk (S (length pred)) pred w = rev (s :: p1) /\
    along (apred ag) t p2 /\ tip t p2 = w /\ walk (S (length succ)) succ w = rev (t :: p2) /\
    forall q, along (asucc ag) s q -> tip s q = t -> length p1 + length p2 <= length q.

Lemma met_intro pred succ w d1 d2 df dr :
  wk (asucc ag) s pred d1 w -> NoDup (map fst pred) ->
  wk (apred ag) t succ d2 w -> NoDup (map fst succ) ->
  disjoint (asucc ag) s df (apred ag) t dr -> d1 + d2 <= S (df + dr) ->
  met pred succ w.
Proof.
  intros H1 N1 H2 N2 Hd Hle.
  destruct (wk_fuel _ _ _ _ _ H1 N1) as [p1 [C1 [T1 [L1 W1]]]].
  destruct (wk_fuel _ _ _ _ _ H2 N2) as [p2 [C2 [T2 [L2 W2]]]].
  exists p1, p2. repeat split; auto. intros q Hc Htq.
  pose proof (disjoint_bound _ _ s t df dr q (asucc_apred ag) Hd Hc Htq). lia.
Qed.

Lemma no_walk_forward pred d sc' d' :
  side_ok (asucc ag) s pred [] d -> disjoint (asucc ag) s d sc' t d' ->
  forall q, along (asucc ag) s q -> tip s q = t -> False.
Proof.
  intros H Hd q Hc Htq. apply (empty_fringe_unreachable _ _ _ _ _ _ _ H Hd (length q)).
  exists q. auto.
Qed.

Lemma no_walk_backward succ d d' :
  side_ok (apred ag) t succ [] d' -> disjoint (asucc ag) s d (apred ag) t d' ->
  forall q, along (asucc ag) s q -> tip s q = t -> False.
Proof.
  intros H Hd q Hc Htq.
  apply (empty_fringe_unreachable _ _ _ _ _ _ _ H (disjoint_sym _ _ _ _ _ _ Hd) (length q)).
  destruct (along_converse _ _ (asucc_apred ag) q s Hc) as [r [_ [Hr1 [Hr2 Hr3]]]].
  rewrite Htq in Hr1, Hr2. exists r. repeat split; auto. lia.
Qed.

(** The loop of [_bidirectional_pred_succ]: with enough fuel it meets iff
    [t] is reachable from [s], and then at a node of a shortest path. *)
Lemma bidirectional_spec :
  forall fuel pred succ ff rf df dr,
  side_ok (asucc ag) s pred ff df -> side_ok (apred ag) t succ rf dr ->
  disjoint (asucc ag) s df (apred ag) t dr ->
  2 * length (anodes ag) < fuel + length pred + length succ ->
  match bidirectional fuel ag pred succ ff rf with
  | None => forall q, along (asucc ag) s q -> tip s q = t -> False
  | Some (pred', succ', w) => met pred' succ' w
  end.
Proof.
  induction fuel as [|f IH]; intros pred succ ff rf df dr Hf Hb Hd Hfuel.
  - exfalso. pose proof (side_length _ _ _ _ _ _ asucc_closed Hs Hf).
    pose proof (side_length _ _ _ _ _ _ apred_closed Ht Hb). lia.
  - destruct ff as [|v0 ff0]; [exact (no_walk_forward _ _ _ _ Hf Hd)|].
    destruct rf as [|x0 rf0]; [exact (no_walk_backward _ _ _ Hb Hd)|].
    cbn [bidirectional].
    destruct (Nat.leb (length (v0 :: ff0)) (length (x0 :: rf0))).
    + pose proof (round_spec (asucc ag) s pred (v0 :: ff0) df succ Hf) as R.
      destruct (forward_scan _ pred succ []) as [[pred' ff'] [w|]].
      * destruct R as [Hsw [Hpw [Hw' Hnd']]].
        destruct Hb as [Hkb [_ [Hwb Hndb]]].
        apply (met_intro _ _ _ (S df) dr df dr (Hw' w Hpw) Hnd' (Hwb w Hsw) Hndb Hd). lia.
      * destruct R as [Hf' [Hlen Hno]].
        assert (Hd' : disjoint (asucc ag) s (S df) (apred ag) t dr).
        { destruct Hf as [Hk [Hfr _]]. destruct Hb as [Hkb _].
          exact (disjoint_step _ _ _ _ _ _ _ _ _ Hk Hfr Hkb Hd Hno). }
        destruct ff' as [|y ff''].
        -- replace (bidirectional f ag pred' succ [] (x0 :: rf0)) with (@None (parents * parents * string))
             by (destruct f; reflexivity).
           exact (no_walk_forward _ _ _ _ Hf' Hd').
        -- apply (IH _ _ _ _ _ _ Hf' Hb Hd'). simpl in Hlen. lia.
    + rewrite reverse_forward.
      pose proof (round_spec (apred ag) t succ (x0 :: rf0) dr pred Hb) as R.
      destruct (forward_scan _ succ pred []) as [[succ' rf'] [w|]].
      * destruct R as [Hpw [Hsw [Hw' Hnd']]].
        destruct Hf as [Hkf [_ [Hwf0 Hndf]]].
        apply (met_intro _ _ _ df (S dr) df dr (Hwf0 w Hpw) Hndf (Hw' w Hsw) Hnd' Hd). lia.
      * destruct R as [Hb' [Hlen Hno]].
        assert (Hd' : disjoint (asucc ag) s df (apred ag) t (S dr)).
        { destruct Hb as [Hk [Hfr _]]. destruct Hf as [Hkf _].
          exact (disjoint_sym _ _ _ _ _ _
                   (disjoint_step _ _ _ _ _ _ _ _ _ Hk Hfr Hkf (disjoint_sym _ _ _ _ _ _ Hd) Hno)). }
        destruct rf' as [|y rf''].
        -- replace (bidirectional f ag pred succ' (v0 :: ff0) []) with (@None (parents * parents * string))
             by (destruct f; reflexivity).
           exact (no_walk_backward _ _ _ Hb' Hd').
        -- apply (IH _ _ _ _ _ _ Hf Hb' Hd'). simpl in Hlen. lia.
Qed.

End Bidirectional.

Lemma walk_root n s : 0 < n -> walk n [(s, None)] s = [s].
Proof.
  intros H. destruct n as [|n]; [lia|]. cbn [walk]. unfold parent. simpl.
  rewrite String.eqb_refl. reflexivity.
Qed.

(** The search starts from the level of [s] alone. *)
Lemma side_init sc s : side_ok sc s [(s, None)] [s] 0.
Proof.
  split; [|split; [|split]].
  - intros v. rewrite has_key_one, String.eqb_eq, reach_zero. split; auto.
  - intros v. simpl. rewrite reach_zero. split.
    + intros [<-|[]]. split; [reflexivity|intros k Hk; lia].
    + intros [-> _]. left. reflexivity.
  - intros v Hv. rewrite has_key_one in Hv. apply String.eqb_eq in Hv. subst v.
    exists []. split; [exact I|]. split; [reflexivity|]. split; [cbn; lia|].
    split; [constructor; [intros []|constructor]|].
    split; [constructor; [rewrite has_key_one; apply String.eqb_refl|constructor]|].
    intros n Hn. apply walk_root. exact Hn.
  - constructor; [intros []|constructor].
Qed.

Lemma is_edge_asucc ag u v : existsb (is_edge u v) (aedges ag) = true <-> In v (asucc ag u).
Proof.
  rewrite asucc_in, existsb_exists. unfold is_edge. split.
  - intros [e [He E]]. apply andb_true_iff in E as [E1 E2].
    apply String.eqb_eq in E1, E2. eauto.
  - intros [e [He [E1 E2]]]. exists e. split; [exact He|]. rewrite E1, E2, !String.eqb_refl. reflexivity.
Qed.

Lemma walk_from_along ag u q : walk_from ag u q = true <-> along (asucc ag) u q.
Proof.
  revert u; induction q as [|v q IH]; intros u; simpl; [tauto|].
  rewrite andb_true_iff, is_edge_asucc, IH. tauto.
Qed.

Lemma last_cons_default (v : string) q a b : last (v :: q) a = last (v :: q) b.
Proof. revert v; induction q as [|x q IH]; intros v; [reflexivity|]. apply IH. Qed.

Lemma last_tip u q : last (u :: q) u = tip u q.
Proof.
  revert u; induction q as [|v q IH]; intros u; [reflexivity|].
  cbn [tip]. rewrite <- IH. change (last (v :: q) u = last (v :: q) v). apply last_cons_default.
Qed.

Lemma walk_to_along ag u v q : walk_to ag u v q <-> along (asucc ag) u q /\ tip u q = v.
Proof. unfold walk_to. rewrite walk_from_along, last_tip. tauto. Qed.

Lemma amem_in ag x : amem ag x = true <-> In x (anodes ag).
Proof.
  unfold amem. rewrite existsb_exists. split.
  - intros [y [H E]]. apply String.eqb_eq in E. subst. exact H.
  - intros H. exists x. split; [exact H|apply String.eqb_refl].
Qed.

(** [nx.shortest_path] on a graph whose edges join nodes: [None] for a
    source that is a node only when no walk leads to the target; otherwise
    a walk from source to target of least length. *)
Lemma shortest_path_spec ag s t :
  (forall e, In e (aedges ag) -> In (src e) (anodes ag) /\ In (dst e) (anodes ag)) ->
  (shortest_path ag s t = None -> amem ag s = true -> forall q, ~ walk_to ag s t q) /\
  (forall P, shortest_path ag s t = Some P ->
     exists q, P = s :: q /\ walk_to ag s t q /\ forall q', walk_to ag s t q' -> length q <= length q').
Proof.
  intros Hwf. unfold shortest_path.
  destruct (amem ag s) eqn:Hs; cbn [andb].
  2:{ split; [discriminate|intros P H; discriminate]. }
  destruct (amem ag t) eqn:Ht; cbn [negb].
  2:{ split; [|intros P H; discriminate]. intros _ _ q Hq. apply walk_to_along in Hq as [Hc Htq].
      apply amem_in in Hs. pose proof (along_closed _ _ s q (asucc_closed ag Hwf) Hs Hc) as H.
      rewrite Htq in H. apply amem_in in H. congruence. }
  apply amem_in in Hs, Ht.
  destruct (String.eqb_spec s t) as [<-|Hne].
  - split; [discriminate|]. intros P HP.
    assert (E : walk 2 [(s, None)] s = [s])
      by (cbn [walk]; unfold parent; simpl; rewrite String.eqb_refl; reflexivity).
    cbn [length] in HP. rewrite E in HP. injection HP as <-. exists []. split; [reflexivity|]. split; [split; reflexivity|].
    intros. simpl. lia.
  - assert (Hd0 : disjoint (asucc ag) s 0 (apred ag) t 0).
    { intros v H1 H2. apply reach_zero in H1, H2. congruence. }
    pose proof (bidirectional_spec ag Hwf s t Hs Ht (2 * length (anodes ag) + 2) _ _ _ _ 0 0
                  (side_init (asucc ag) s) (side_init (apred ag) t) Hd0) as H.
    cbn [length] in H. specialize (H ltac:(lia)).
    destruct (bidirectional _ ag _ _ _ _) as [[[pred succ] w]|].
    + split; [discriminate|]. intros P HP.
      destruct H as [p1 [p2 [C1 [T1 [W1 [C2 [T2 [W2 Hmin]]]]]]]].
      destruct (along_converse _ _ (apred_asucc ag) p2 t C2) as [r [E [Cr [Tr Lr]]]].
      rewrite W1, W2, rev_involutive, E, T2 in HP. cbn [tl] in HP. injection HP as <-.
      exists (p1 ++ r)%list. split; [reflexivity|].
      rewrite T2 in Cr, Tr. split.
      * apply walk_to_along. rewrite along_app, tip_app, T1. auto.
      * intros q' Hq'. apply walk_to_along in Hq' as [Hc Htq]. rewrite length_app, Lr.
        apply Hmin; assumption.
    + split; [|intros P HP; discriminate]. intros _ _ q Hq. apply walk_to_along in Hq as [Hc Htq].
      exact (H q Hc Htq).
Qed.

(** *** The attack overlay is a graph whose edges join its nodes *)

Definition nodes_ok (ag : agraph) : Prop :=
  In "Internet" (anodes ag) /\
  forall e, In e (aedges ag) -> In (src e) (anodes ag) /\ In (dst e) (anodes ag).

Lemma add_node_nodes ag n x : In x (anodes ag) \/ x = n -> In x (anodes (add_node ag n)).
Proof.
  unfold add_node. destruct (amem ag n) eqn:E.
  - intros [H| ->]; [exact H|apply amem_in; exact E].
  - simpl. intros [H| ->]; apply in_or_app; [left; exact H|right; left; reflexivity].
Qed.

Lemma add_edge_nodes_ok ag e : nodes_ok ag -> nodes_ok (add_edge ag e).
Proof.
  intros [HI He].
  assert (Hsub : forall x, In x (anodes ag) -> In x (anodes (add_node (add_node ag (src e)) (dst e))))
    by (intros x Hx; apply add_node_nodes; left; apply add_node_nodes; left; exact Hx).
  assert (Hs : In (src e) (anodes (add_node (add_node ag (src e)) (dst e))))
    by (apply add_node_nodes; left; apply add_node_nodes; right; reflexivity).
  assert (Hd : In (dst e) (anodes (add_node (add_node ag (src e)) (dst e))))
    by (apply add_node_nodes; right; reflexivity).
  unfold add_edge. rewrite !aedges_add_node.
  destruct (existsb _ (aedges ag)); split; cbn [anodes aedges]; auto.
  - intros e' H. apply in_map_iff in H as [e'' [<- H]].
    destruct (is_edge (src e) (dst e) e''); [auto|]. destruct (He e'' H). auto.
  - intros e' H. apply in_app_or in H as [H|[<-|[]]]; [|auto]. destruct (He e' H). auto.
Qed.

Lemma overlay_nodes_ok g ag : _build_attack_overlay g = Ok ag -> nodes_ok ag.
Proof.
  unfold _build_attack_overlay. destruct (phase3_roles g (roles g)) as [p3|]; cbn [bind]; [|discriminate].
  intros H. injection H as <-. generalize (phase1 g ++ phase2 g ++ p3 ++ phase4 g)%list.
  intros es. assert (H0 : nodes_ok (mkAgraph ["Internet"] [])) by (split; [left; reflexivity|intros e []]).
  revert H0. generalize (mkAgraph ["Internet"] []). induction es as [|e es IH]; intros a Ha; [exact Ha|].
  apply IH. apply add_edge_nodes_ok. exact Ha.
Qed.

(** *** The paths [find_critical_path] obtains *)

Lemma path_to_none g ag t :
  nodes_ok ag -> path_to g ag t = None -> forall q, ~ walk_to ag "Internet" t q.
Proof.
  intros [HI Hwf] H q Hq. unfold path_to in H.
  destruct (amem ag t) eqn:Ht; cbn [negb] in H.
  - apply (proj1 (shortest_path_spec ag "Internet" t Hwf) H (proj2 (amem_in ag _) HI) q Hq).
  - apply walk_to_along in Hq as [Hc Htq].
    pose proof (along_closed _ _ "Internet" q (asucc_closed ag Hwf) HI Hc) as Hn.
    rewrite Htq in Hn. apply amem_in in Hn. congruence.
Qed.

Lemma path_to_some g ag t ids :
  nodes_ok ag -> path_to g ag t = Some ids ->
  exists q, ids = "Internet" :: q /\ walk_to ag "Internet" t q /\
            forall q', walk_to ag "Internet" t q' -> length q <= length q'.
Proof.
  intros [HI Hwf] H. unfold path_to in H. destruct (negb (amem ag t)); [discriminate|].
  exact (proj2 (shortest_path_spec ag "Internet" t Hwf) ids H).
Qed.

Lemma path_to_walk g ag t q :
  nodes_ok ag -> walk_to ag "Internet" t q ->
  exists q0, path_to g ag t = Some ("Internet" :: q0) /\ walk_to ag "Internet" t q0 /\ length q0 <= length q.
Proof.
  intros Hok Hq. destruct (path_to g ag t) as [ids|] eqn:E.
  - destruct (path_to_some g ag t ids Hok E) as [q0 [-> [Hq0 Hmin]]].
    exists q0. auto.
  - exfalso. exact (path_to_none g ag t Hok E q Hq).
Qed.

Lemma flat_map_opt_split (f : string -> option (list string)) ts pre x post :
  flat_map (fun t => match f t with Some ids => [ids] | None => [] end) ts = (pre ++ x :: post)%list ->
  exists tpre t tpost,
    ts = (tpre ++ t :: tpost)%list /\ f t = Some x /\
    flat_map (fun t => match f t with Some ids => [ids] | None => [] end) tpre = pre.
Proof.
  revert pre. induction ts as [|t0 ts IH]; intros pre H; simpl in H.
  - destruct pre; discriminate.
  - destruct (f t0) as [y|] eqn:E.
    + destruct pre as [|z pre]; simpl in H; injection H as H1 H2.
      * subst y. exists [], t0, ts. auto.
      * destruct (IH pre H2) as [tpre [t [tpost [-> [Hf Hp]]]]].
        exists (t0 :: tpre), t, tpost. simpl. rewrite E, Hp, H1. auto.
    + destruct (IH pre H) as [tpre [t [tpost [-> [Hf Hp]]]]].
      exists (t0 :: tpre), t, tpost. simpl. rewrite E. auto.
Qed.

Lemma candidates_in g ag ts t ids :
  In t ts -> path_to g ag t = Some ids -> In ids (candidates g ag ts).
Proof.
  intros Ht Hp. unfold candidates. apply in_flat_map. exists t. rewrite Hp. simpl. auto.
Qed.

(** The loop over the sinks keeps the first path of least length. *)
Lemma select_sinks g ag ts p :
  select_path g ag ts None = Some p ->
  exists tpre t tpost ids,
    ts = (tpre ++ t :: tpost)%list /\ path_to g ag t = Some ids /\ p = attack_path g ids /\
    (forall t' ids', In t' tpre -> path_to g ag t' = Some ids' -> length ids < length ids') /\
    (forall t' ids', In t' ts -> path_to g ag t' = Some ids' -> length ids <= length ids').
Proof.
  intros H. destruct (select_some g ag ts None p H) as [[E _]|[pre [ids [post [Hc [Hp [Hpre [Hpost _]]]]]]]];
    [discriminate|].
  unfold candidates in Hc.
  destruct (flat_map_opt_split (path_to g ag) ts pre ids post Hc) as [tpre [t [tpost [Ets [Ht Hpre']]]]].
  exists tpre, t, tpost, ids. repeat split; auto.
  - intros t' ids' Ht' Hp'. rewrite Forall_forall in Hpre. apply Hpre.
    rewrite <- Hpre'. apply (candidates_in g ag tpre t' ids' Ht' Hp').
  - intros t' ids' Ht' Hp'. pose proof (candidates_in g ag ts t' ids' Ht' Hp') as Hin.
    unfold candidates in Hin. rewrite Hc in Hin. apply in_app_or in Hin as [Hin|[<-|Hin]].
    + rewrite Forall_forall in Hpre. apply Nat.lt_le_incl, Hpre, Hin.
    + lia.
    + rewrite Forall_forall in Hpost. apply Hpost, Hin.
Qed.

Lemma select_all_none g ag ts :
  select_path g ag ts None = None <-> forall t, In t ts -> path_to g ag t = None.
Proof.
  split.
  - intros H t Ht. apply select_none in H as [_ Hc]. destruct (path_to g ag t) as [ids|] eqn:E; [|reflexivity].
    pose proof (candidates_in g ag ts t ids Ht E) as Hin. rewrite Hc in Hin. destruct Hin.
  - induction ts as [|t ts IH]; intros H; [reflexivity|]. simpl.
    rewrite (H t (or_introl eq_refl)). apply IH. intros t' Ht'. apply H. right. exact Ht'.
Qed.

Lemma within_walk ag k u v : In v (within ag k u) <-> exists q, walk_to ag u v q /\ length q <= k.
Proof.
  revert u; induction k as [|k IH]; intros u; cbn [within].
  - split.
    + intros [<-|[]]. exists []. split; [split; reflexivity|simpl; lia].
    + intros [[|x q] [[_ Hl] Hq]]; [left; exact Hl|simpl in Hq; lia].
  - split.
    + intros [<-|H]; [exists []; split; [split; reflexivity|simpl; lia]|].
      apply in_flat_map in H as [c [Hc H]]. apply IH in H as [q [Hq Hl]].
      exists (c :: q). split; [|simpl; lia].
      apply walk_to_along in Hq as [Ha Ht]. apply walk_to_along. simpl. auto.
    + intros [[|c q] [Hq Hl]].
      * left. apply Hq.
      * right. apply walk_to_along in Hq as [[Hc Ha] Ht]. apply in_flat_map. exists c.
        split; [exact Hc|]. apply IH. exists q. split; [apply walk_to_along; auto|simpl in Hl; lia].
Qed.

(** The simple paths found from [x] lead to [target] along edges. *)
Lemma paths_from_walk ag target f :
  forall vis x s, In s (paths_from ag target f vis x) -> walk_to ag x target s.
Proof.
  induction f as [|f IH]; intros vis x s Hs; cbn [paths_from] in Hs;
    apply in_flat_map in Hs as [c [Hc Hs]];
    destruct (existsb (String.eqb c) vis); try destruct Hs;
    destruct (String.eqb_spec c target) as [<-|_].
  - destruct Hs as [<-|[]]. apply walk_to_along. simpl. auto.
  - destruct Hs.
  - destruct Hs as [<-|[]]. apply walk_to_along. simpl. auto.
  - apply in_map_iff in Hs as [s' [<- Hs']]. apply IH in Hs'.
    apply walk_to_along in Hs' as [Ha Ht]. apply walk_to_along. simpl. auto.
Qed.

Lemma find_all_paths_walk ts ag p :
  In p (_find_all_paths ts ag) ->
  exists t q, In t ts /\ p = "Internet" :: q /\ walk_to ag "Internet" t q.
Proof.
  unfold _find_all_paths, NX.all_simple_paths. intros H. apply in_flat_map in H as [t [Ht H]].
  destruct (amem ag internet_node), (amem ag t), (String.eqb internet_node t);
    cbn -[paths_from] in H; try destruct H.
  apply in_map_iff in H as [s [<- Hs]]. exists t, s. split; [exact Ht|split; [reflexivity|]].
  exact (paths_from_walk _ _ _ _ _ _ Hs).
Qed.

Lemma engine_parts g rr eng :
  new_engine g rr = Ok eng ->
  engine_graph eng = g /\ _build_attack_overlay g = Ok (attack_graph eng).
Proof.
  unfold new_engine. destruct (_build_attack_overlay g) as [ag|e]; cbn [bind]; [|discriminate].
  intros H. injection H as <-. auto.
Qed.

End Bfs.


(* ================================================================= *)
(** ** The claims *)

Module Claims.
Import Py PyStr Model Policy Attack NX Engine SpecSide Scenarios Facts Bfs.

(** C1: a heredoc policy ([<<EOF] or [<<-EOF] after stripping) is not parsed:
    [clean.split("EOF")[0]] keeps only the introducer's [<<] or [<<-], which
    is no JSON, so the policy normalises to [{}] and grants nothing to any
    target, whatever JSON the heredoc holds. *)
Theorem C1_heredoc_policy_grants_nothing (s : string) (t : Resource) (ts : string) :
  index (split (type t) "_") 1 = Ok ts ->
  startswith (strip s) "<<EOF" = true \/ startswith (strip s) "<<-EOF" = true ->
  _check_permission [VStr s] t = Ok None.
Proof.
  intros Hts Hh. unfold _check_permission. rewrite Hts. cbn [bind check_policies].
  rewrite (normalize_heredoc s Hh). reflexivity.
Qed.

Lemma C1_heredoc_policy_grants_nothing_witness :
  _check_permission [VStr admin_json] bucket_data = Ok (Some "Full Admin Access") /\
  _check_permission [VStr heredoc_admin] bucket_data = Ok None.
Proof.
  split; [vm_compute; reflexivity|].
  apply (C1_heredoc_policy_grants_nothing heredoc_admin bucket_data "s3");
    [vm_compute; reflexivity | left; vm_compute; reflexivity].
Defined.

(** C2: the policy evaluator raises: [IndexError] on a target whose type has
    no underscore (even with no policy), [AttributeError] on a statement with
    a non-string action evaluated against a bucket, [TypeError] on a
    [Statement] that is a number, [AttributeError] on a string policy that
    parses to a JSON list. *)
Theorem C2_policy_evaluator_raises :
  _check_permission [] other_res = Raise IndexError /\
  _check_permission [doc [VDict [("Action", VList [VNum "1"])]]] bucket_data = Raise AttributeError /\
  _check_permission [VDict [("Statement", VNum "5")]] bucket_data = Raise TypeError /\
  _check_permission [VStr "[1]"] bucket_data = Raise AttributeError.
Proof. vm_compute. repeat split. Qed.

(** C3 (counterexample): a statement granting [s3:GetObject] on the bucket
    that comes before an admin statement decides the result: the evaluator
    returns ["S3 Data Access"], not ["Full Admin Access"]. *)
Lemma C3_earlier_s3_statement_wins :
  _check_permission [doc [s3_read_stmt; admin_stmt]] bucket_data = Ok (Some "S3 Data Access").
Proof. vm_compute. reflexivity. Qed.

(** C3 (amended): the statements of all attached policies are tried in
    document order, each with the ordered checks admin, service wildcard, S3,
    AI; the first statement that yields a capability decides, whatever later
    statements or later policies would grant (or raise). *)
Theorem C3_first_capable_statement_wins (ts : string) (t : Resource) (ps rest : list value)
    (pre : list value) (s : value) (post : list value) (c : string) :
  index (split (type t) "_") 1 = Ok ts ->
  all_statements ps = Ok (pre ++ s :: post)%list ->
  Forall (fun s' => statement_capability ts t s' = Ok None) pre ->
  statement_capability ts t s = Ok (Some c) ->
  _check_permission (ps ++ rest) t = Ok (Some c).
Proof.
  intros Hts Hd Hpre Hs. unfold _check_permission. rewrite Hts. cbn [bind].
  rewrite (check_policies_all_statements _ _ _ _ _ Hd).
  rewrite (check_statements_first ts t pre s post c Hpre Hs). reflexivity.
Qed.

(** An empty string policy, a document with a [Deny] admin statement, a JSON
    policy with [Version] and a single-object [Statement] granting S3 access,
    then an admin document and a policy that would raise. *)
Lemma C3_first_capable_statement_wins_witness :
  _check_permission ([VStr ""; doc [deny_admin_stmt]; VStr s3_dict_json; doc [admin_stmt]]
                       ++ [VStr "[1]"])%list bucket_data
  = Ok (Some "S3 Data Access").
Proof.
  apply (C3_first_capable_statement_wins "s3" bucket_data
           [VStr ""; doc [deny_admin_stmt]; VStr s3_dict_json; doc [admin_stmt]] [VStr "[1]"]
           [deny_admin_stmt] s3_read_stmt [admin_stmt] "S3 Data Access");
    [vm_compute; reflexivity | vm_compute; reflexivity
    | constructor; [vm_compute; reflexivity | constructor] | vm_compute; reflexivity].
Defined.

(** C9: the attack graph depends on the resource graph alone: it is
    [_build_attack_overlay] of it, whatever the rule results. *)
Theorem C9_attack_graph_ignores_rules (g : graph) (r1 r2 : list RuleResult) :
  (e <- new_engine g r1 ;; Ok (attack_graph e)) = (e <- new_engine g r2 ;; Ok (attack_graph e)) /\
  (e <- new_engine g r1 ;; Ok (attack_graph e)) = _build_attack_overlay g.
Proof.
  unfold new_engine. destruct (_build_attack_overlay g); simpl; split; reflexivity.
Qed.

(** C10: a statement without [Effect] is evaluated exactly as the same
    statement with [Effect: Allow]; a statement whose [Effect] is present and
    not the string [Allow] yields nothing. *)
Theorem C10_missing_effect_is_allow (ts : string) (t : Resource) (kv : list (string * value)) :
  (dict_has kv "Effect" = false ->
   statement_capability ts t (VDict kv) =
   statement_capability ts t (VDict (("Effect", VStr "Allow") :: kv))) /\
  (dict_has kv "Effect" = true -> is_str (dict_get kv "Effect" VNone) "Allow" = false ->
   statement_capability ts t (VDict kv) = Ok None).
Proof.
  split.
  - intros H. unfold statement_capability. rewrite (dict_get_absent kv "Effect" _ H).
    reflexivity.
  - intros H Hne. unfold statement_capability.
    rewrite (dict_get_present kv "Effect" (VStr "Allow") VNone H), Hne. reflexivity.
Qed.

Lemma C10_missing_effect_is_allow_witness :
  statement_capability "s3" bucket_data admin_stmt_no_effect = Ok (Some "Full Admin Access") /\
  statement_capability "s3" bucket_data admin_stmt_no_effect =
  statement_capability "s3" bucket_data (VDict (("Effect", VStr "Allow") ::
                                               [("Action", VStr "*"); ("Resource", VStr "*")])).
Proof.
  split; [vm_compute; reflexivity|].
  apply (proj1 (C10_missing_effect_is_allow "s3" bucket_data [("Action", VStr "*"); ("Resource", VStr "*")])).
  reflexivity.
Defined.

(** C4: for an instance [n] of the resource graph (node ids distinct, none of
    them [Internet]), the attack graph has an edge [Internet -> n] with method
    [Network Reachability] iff no [located_in] edge leads to a subnet whose
    [map_public_ip_on_launch] prints as [false] in any case, and some
    [protected_by] edge leads to a security group whose ingress (an object, a
    sequence of objects or a sequence of sequences of objects) has
    ["0.0.0.0/0"] in its [cidr_blocks], directly or one level nested. *)
Theorem C4_network_reachability_iff_exposed (g : graph) (ag : agraph) (r : Resource) :
  NoDup (map fst (nodes g)) ->
  ~ In "Internet" (map fst (nodes g)) ->
  In (id r, Some r) (nodes g) ->
  type r = "aws_instance" ->
  _build_attack_overlay g = Ok ag ->
  (exists risk, edge_data ag "Internet" (id r) = Some ("Network Reachability", risk)) <->
  ~ located_in_private g (id r) /\ protected_by_open g (id r).
Proof.
  intros Hnd HI Hin Ht Hb. unfold _build_attack_overlay in Hb.
  destruct (phase3_roles g (roles g)) as [p3|] eqn:H3; simpl in Hb; [|discriminate].
  inversion Hb; subst ag. clear Hb.
  rewrite edge_data_fold, !filter_app, (phase1_filter g (id r) r Hnd Hin Ht).
  rewrite (filter_not_from (phase2 g)), (filter_not_from p3), (filter_not_from (phase4 g)).
  - rewrite <- (exposed_spec g r (has_node_in g _ _ Hin)).
    destruct (_is_instance_publicly_exposed g r); simpl.
    + split; [reflexivity|]. intros _. eexists. reflexivity.
    + split; [intros [x Hx]; discriminate|discriminate].
  - intros e He E. apply HI. rewrite <- E. exact (phase4_src g e He).
  - intros e He E. apply HI. rewrite <- E. apply roles_in. exact (phase3_roles_src g _ _ H3 e He).
  - intros e He E. apply HI. rewrite <- E. exact (phase2_src g e He).
Qed.

Lemma C4_network_reachability_iff_exposed_witness :
  (exists risk, edge_data (overlay_of web_exposed) "Internet" "aws_instance.web"
                  = Some ("Network Reachability", risk)) <->
  ~ located_in_private web_exposed "aws_instance.web" /\ protected_by_open web_exposed "aws_instance.web".
Proof.
  apply (C4_network_reachability_iff_exposed web_exposed (overlay_of web_exposed)
           (res "aws_instance" "web" [])).
  - simpl. constructor; [simpl; intros [H|[]]; discriminate|].
    constructor; [intros []|constructor].
  - simpl. intros [H|[H|[]]]; discriminate.
  - left. reflexivity.
  - reflexivity.
  - vm_compute. reflexivity.
Defined.

(** C5 (counterexample): two public buckets, [zeta] listed before [alpha],
    are both one edge from [Internet]; [find_critical_path] returns the path
    to [zeta], although the path to [alpha] is as short and its node-id
    sequence is lexicographically smaller. *)
Lemma C5_tie_goes_to_first_sink :
  exists p,
    find_critical_path (engine_of two_buckets) = Some p /\
    map node_id (steps p) = ["Internet"; "aws_s3_bucket.zeta"] /\
    path_to two_buckets (overlay_of two_buckets) "aws_s3_bucket.alpha"
      = Some ["Internet"; "aws_s3_bucket.alpha"] /\
    seq_lt ["Internet"; "aws_s3_bucket.alpha"] ["Internet"; "aws_s3_bucket.zeta"] = true.
Proof. eexists. split; [vm_compute; reflexivity|]. vm_compute. repeat split. Qed.

(** C5 (amended): for an engine built from a graph [g], [find_critical_path]
    returns no path iff no sink of [g] can be reached from [Internet] along
    the edges of the attack graph.  Otherwise the path it returns is a walk
    from [Internet] to some sink [t] with the fewest edges among the walks to
    all sinks, and every sink listed before [t] in [sinks g] (the [logs_to]
    targets, then the buckets in node order) is strictly farther away: ties
    go to the first sink in that order, not to the lexicographically least
    path. *)
Theorem C5_first_shortest_sink (g : graph) (rr : list RuleResult) (eng : AttackEngine) :
  new_engine g rr = Ok eng ->
  (find_critical_path eng = None <->
   forall t q, In t (sinks g) -> ~ walk_to (attack_graph eng) "Internet" t q) /\
  (forall p, find_critical_path eng = Some p ->
   exists tpre t tpost q,
     sinks g = (tpre ++ t :: tpost)%list /\
     walk_to (attack_graph eng) "Internet" t q /\
     steps p = map (attack_node g) ("Internet" :: q) /\
     (forall t' q', In t' (sinks g) -> walk_to (attack_graph eng) "Internet" t' q' -> length q <= length q') /\
     (forall t' q', In t' tpre -> walk_to (attack_graph eng) "Internet" t' q' -> length q < length q')).
Proof.
  intros He. destruct (engine_parts g rr eng He) as [Eg Hb].
  pose proof (overlay_nodes_ok g _ Hb) as Hok.
  unfold find_critical_path. rewrite Eg. split.
  - split.
    + intros H t q Ht Hq. destruct (sinks g) as [|t0 ts]; [destruct Ht|].
      apply select_all_none with (t := t) in H; [|exact Ht].
      exact (path_to_none g _ t Hok H q Hq).
    + intros H. destruct (sinks g) as [|t0 ts] eqn:Es; [reflexivity|].
      apply select_all_none. intros t Ht. destruct (path_to g (attack_graph eng) t) as [ids|] eqn:E; [|reflexivity].
      exfalso. destruct (path_to_some g _ t ids Hok E) as [q [_ [Hq _]]].
      exact (H t q Ht Hq).
  - intros p Hp. destruct (sinks g) as [|t0 ts] eqn:Es; [discriminate|].
    destruct (select_sinks g _ _ p Hp) as [tpre [t [tpost [ids [Ets [Ht [-> [Hpre Hall]]]]]]]].
    destruct (path_to_some g _ t ids Hok Ht) as [q [-> [Hq Hmin]]].
    exists tpre, t, tpost, q. split; [exact Ets|]. split; [exact Hq|]. split; [reflexivity|]. split.
    + intros t' q' Ht' Hq'. destruct (path_to_walk g _ t' q' Hok Hq') as [q0 [E0 [_ L0]]].
      pose proof (Hall t' _ Ht' E0) as L. simpl in L. lia.
    + intros t' q' Ht' Hq'. destruct (path_to_walk g _ t' q' Hok Hq') as [q0 [E0 [_ L0]]].
      pose proof (Hpre t' _ Ht' E0) as L. simpl in L. lia.
Qed.

Lemma C5_first_shortest_sink_witness :
  (find_critical_path (engine_of two_buckets) = None <->
   forall t q, In t (sinks two_buckets) ->
     ~ walk_to (attack_graph (engine_of two_buckets)) "Internet" t q) /\
  (forall p, find_critical_path (engine_of two_buckets) = Some p ->
   exists tpre t tpost q,
     sinks two_buckets = (tpre ++ t :: tpost)%list /\
     walk_to (attack_graph (engine_of two_buckets)) "Internet" t q /\
     steps p = map (attack_node two_buckets) ("Internet" :: q) /\
     (forall t' q', In t' (sinks two_buckets) ->
        walk_to (attack_graph (engine_of two_buckets)) "Internet" t' q' -> length q <= length q') /\
     (forall t' q', In t' tpre ->
        walk_to (attack_graph (engine_of two_buckets)) "Internet" t' q' -> length q < length q')).
Proof.
  apply (C5_first_shortest_sink two_buckets [] (engine_of two_buckets)).
  vm_compute. reflexivity.
Defined.

(** C7 (counterexample): with the sinks [zeta] then [alpha], both one edge
    from [Internet], the first remediation cuts [Internet -> zeta]; the edge
    [Internet -> alpha] is on as many paths, of the same length, and comes
    first in [(source, target)] order. *)
Lemma C7_tie_goes_to_first_counted_edge :
  exists rem rest,
    calculate_fix_order (mkFixEngine (overlay_of two_buckets) bucket_targets) = Some (rem :: rest) /\
    (edge_source rem, edge_target rem) = ("Internet", "aws_s3_bucket.zeta") /\
    _find_all_paths bucket_targets (overlay_of two_buckets)
      = [["Internet"; "aws_s3_bucket.zeta"]; ["Internet"; "aws_s3_bucket.alpha"]] /\
    participation ("Internet", "aws_s3_bucket.alpha") (_find_all_paths bucket_targets (overlay_of two_buckets))
      = paths_blocked rem /\
    str_lt "aws_s3_bucket.alpha" "aws_s3_bucket.zeta" = true.
Proof. eexists. eexists. split; [vm_compute; reflexivity|]. vm_compute. repeat split. Qed.

(** C7 (amended): in every round the remediated edge is the first entry of
    largest count in [edge_counts], which lists the edges in the order they
    are first met along the enumerated paths: every entry before it has a
    smaller count, every entry after it at most the same.  Its
    [paths_blocked] is its count, which is the number of enumerated paths it
    lies on, and no edge lies on more. *)
Theorem C7_chosen_edge_first_max (targets : list string) (g g' : agraph) (k : nat) (rem : Remediation) :
  fix_step targets g k = Some (rem, g') ->
  (exists pre post,
     edge_counts (_find_all_paths targets g)
       = (pre ++ ((edge_source rem, edge_target rem), paths_blocked rem) :: post)%list /\
     Forall (fun kv => snd kv < paths_blocked rem) pre /\
     Forall (fun kv => snd kv <= paths_blocked rem) post) /\
  paths_blocked rem = participation (edge_source rem, edge_target rem) (_find_all_paths targets g) /\
  (forall e, participation e (_find_all_paths targets g) <= paths_blocked rem).
Proof.
  intros H. destruct (fix_step_spec _ _ _ _ _ H) as [_ [Hm _]].
  destruct (max_by_count_spec _ _ Hm) as [pre [post [E [Hpre Hpost]]]]. simpl in Hpre, Hpost.
  assert (Hin : In ((edge_source rem, edge_target rem), paths_blocked rem)
                   (edge_counts (_find_all_paths targets g)))
    by (rewrite E; apply in_or_app; right; left; reflexivity).
  split; [exists pre, post; auto|]. split.
  - rewrite participation_count by apply find_all_paths_nodup.
    symmetry. apply count_of_in; [apply edge_counts_nodup|exact Hin].
  - intros e. rewrite participation_count by apply find_all_paths_nodup.
    destruct (count_of e (edge_counts (_find_all_paths targets g))) as [|n] eqn:Hc; [lia|].
    assert (He : In (e, S n) (edge_counts (_find_all_paths targets g)))
      by (rewrite <- Hc; apply count_of_pos; lia).
    rewrite E in He. apply in_app_or in He as [He|[He|He]].
    + rewrite Forall_forall in Hpre. apply Hpre in He. simpl in He. lia.
    + inversion He. lia.
    + rewrite Forall_forall in Hpost. apply Hpost in He. simpl in He. lia.
Qed.

Lemma C7_chosen_edge_first_max_witness :
  (exists pre post,
     edge_counts (_find_all_paths bucket_targets (overlay_of two_buckets))
       = (pre ++ ((edge_source (fst (first_fix bucket_targets (overlay_of two_buckets))),
                   edge_target (fst (first_fix bucket_targets (overlay_of two_buckets)))),
                  paths_blocked (fst (first_fix bucket_targets (overlay_of two_buckets)))) :: post)%list /\
     Forall (fun kv => snd kv < paths_blocked (fst (first_fix bucket_targets (overlay_of two_buckets)))) pre /\
     Forall (fun kv => snd kv <= paths_blocked (fst (first_fix bucket_targets (overlay_of two_buckets)))) post) /\
  paths_blocked (fst (first_fix bucket_targets (overlay_of two_buckets)))
    = participation (edge_source (fst (first_fix bucket_targets (overlay_of two_buckets))),
                     edge_target (fst (first_fix bucket_targets (overlay_of two_buckets))))
                    (_find_all_paths bucket_targets (overlay_of two_buckets)) /\
  (forall e, participation e (_find_all_paths bucket_targets (overlay_of two_buckets))
             <= paths_blocked (fst (first_fix bucket_targets (overlay_of two_buckets)))).
Proof.
  apply (C7_chosen_edge_first_max bucket_targets (overlay_of two_buckets)
           (snd (first_fix bucket_targets (overlay_of two_buckets))) 0
           (fst (first_fix bucket_targets (overlay_of two_buckets)))).
  vm_compute. reflexivity.
Defined.

(** C6 (counterexample): on the chain of 12 edges from [Internet] to the
    bucket [logs], the enumeration with cutoff 10 finds no path and no
    remediation is produced, yet [find_critical_path], whose
    [nx.shortest_path] has no cutoff, reports the 13-node path. *)
Lemma C6_critical_path_ignores_cutoff :
  length (aedges (overlay_of chain)) = 12 /\
  _find_all_paths ["aws_s3_bucket.logs"] (overlay_of chain) = [] /\
  find_critical_path (engine_of chain) <> None.
Proof. vm_compute. split; [reflexivity|]. split; [reflexivity|discriminate]. Qed.

(** C6 (amended): every path the enumeration yields starts at [Internet],
    follows edges of the graph to one of the targets, repeats no node and has
    at most 11 nodes (10 edges).  When no target is within 10 edges of
    [Internet] the enumeration yields nothing and [calculate_fix_order]
    returns no remediation.  [find_critical_path] has no such bound: for an
    engine built from a graph, it returns a path whenever some sink can be
    reached from [Internet] at all, as on the 12-edge chain of the
    counterexample. *)
Theorem C6_cutoff_bounds_enumeration_only :
  (forall ts ag p, In p (_find_all_paths ts ag) ->
     exists t q, In t ts /\ p = "Internet" :: q /\ walk_to ag "Internet" t q /\
                 NoDup p /\ length p <= 11) /\
  (forall ts ag, (forall t, In t ts -> ~ In t (within ag 10 "Internet")) ->
     _find_all_paths ts ag = [] /\ calculate_fix_order (mkFixEngine ag ts) = Some []) /\
  (forall g rr eng t q, new_engine g rr = Ok eng -> In t (sinks g) ->
     walk_to (attack_graph eng) "Internet" t q -> exists p, find_critical_path eng = Some p).
Proof.
  assert (Hpaths : forall ts ag p, In p (_find_all_paths ts ag) ->
     exists t q, In t ts /\ p = "Internet" :: q /\ walk_to ag "Internet" t q /\
                 NoDup p /\ length p <= 11).
  { intros ts ag p H. destruct (find_all_paths_walk ts ag p H) as [t [q [Ht [Ep Hq]]]].
    destruct (find_all_paths_simple ts ag p H) as [Hnd Hl]. exists t, q. split; [exact Ht|]. split; [exact Ep|]. split; [exact Hq|]. split; [exact Hnd|lia]. }
  split; [exact Hpaths|]. split.
  - intros ts ag Hfar.
    assert (E : _find_all_paths ts ag = []).
    { destruct (_find_all_paths ts ag) as [|p ps] eqn:E; [reflexivity|exfalso].
      destruct (Hpaths ts ag p) as [t [q [Ht [Ep [Hq [_ Hl]]]]]]; [rewrite E; left; reflexivity|].
      apply (Hfar t Ht). apply within_walk. exists q. split; [exact Hq|]. subst p. simpl in Hl. lia. }
    split; [exact E|]. unfold calculate_fix_order. cbn [original_graph fix_targets].
    rewrite E. cbn [length fix_loop]. unfold fix_step. rewrite E. reflexivity.
  - intros g rr eng t q He Ht Hq. destruct (engine_parts g rr eng He) as [Eg Hb].
    pose proof (overlay_nodes_ok g _ Hb) as Hok.
    destruct (find_critical_path eng) as [p|] eqn:Ef; [exists p; reflexivity|exfalso].
    unfold find_critical_path in Ef. rewrite Eg in Ef.
    destruct (sinks g) as [|t0 ts] eqn:Es; [destruct Ht|].
    rewrite <- Es in Ef, Ht. apply select_all_none with (t := t) in Ef; [|exact Ht].
    exact (path_to_none g _ t Hok Ef q Hq).
Qed.

Lemma C6_cutoff_bounds_enumeration_only_witness :
  (exists t q, In t bucket_targets /\
     ["Internet"; "aws_s3_bucket.zeta"] = "Internet" :: q /\
     walk_to (overlay_of two_buckets) "Internet" t q /\
     NoDup ["Internet"; "aws_s3_bucket.zeta"] /\ length ["Internet"; "aws_s3_bucket.zeta"] <= 11) /\
  (_find_all_paths ["aws_s3_bucket.logs"] (overlay_of chain) = [] /\
   calculate_fix_order (mkFixEngine (overlay_of chain) ["aws_s3_bucket.logs"]) = Some []) /\
  (exists p, find_critical_path (engine_of chain) = Some p).
Proof.
  split; [|split].
  - apply (proj1 C6_cutoff_bounds_enumeration_only bucket_targets (overlay_of two_buckets)).
    vm_compute. left. reflexivity.
  - apply (proj1 (proj2 C6_cutoff_bounds_enumeration_only)).
    intros t [<-|[]]. vm_compute. intros H. repeat (destruct H as [H|H]; [discriminate H|]). exact H.
  - apply (proj2 (proj2 C6_cutoff_bounds_enumeration_only) chain [] (engine_of chain) "aws_s3_bucket.logs"
      ["aws_instance.web"; "aws_iam_instance_profile.p"; role 1; role 2; role 3; role 4; role 5;
       role 6; role 7; role 8; role 9; "aws_s3_bucket.logs"]);
      vm_compute; [reflexivity|left; reflexivity|split; reflexivity].
Defined.

(** C8: every round of the fix loop removes the remediated edge and leaves
    strictly fewer enumerated paths; hence the loop, run from the engine's
    graph, stops within one round more than the initial number of paths,
    [calculate_fix_order] returns its remediations, and on exit the
    enumeration finds no path to any target. *)
Theorem C8_fix_loop_disconnects (fe : FixEngine) :
  (forall g k rem g', fix_step (fix_targets fe) g k = Some (rem, g') ->
     g' = remove_edge g (edge_source rem) (edge_target rem) /\
     length (_find_all_paths (fix_targets fe) g') < length (_find_all_paths (fix_targets fe) g)) /\
  exists rems g_final,
    fix_loop (S (length (_find_all_paths (fix_targets fe) (original_graph fe))))
             (fix_targets fe) (original_graph fe) [] = Some (rems, g_final) /\
    calculate_fix_order fe = Some rems /\
    _find_all_paths (fix_targets fe) g_final = [].
Proof.
  split; [intros g k rem g' H; exact (fix_step_decreases _ _ _ _ _ H)|].
  destruct (fix_loop_closes (fix_targets fe) (S (length (_find_all_paths (fix_targets fe) (original_graph fe))))
              (original_graph fe) [] (Nat.lt_succ_diag_r _)) as [rems [gf [Hl Hc]]].
  exists rems, gf. split; [exact Hl|]. split; [|exact Hc].
  unfold calculate_fix_order. rewrite Hl. reflexivity.
Qed.

Lemma C8_fix_loop_disconnects_witness :
  snd (first_fix bucket_targets (overlay_of two_buckets))
    = remove_edge (overlay_of two_buckets) (edge_source (fst (first_fix bucket_targets (overlay_of two_buckets))))
                  (edge_target (fst (first_fix bucket_targets (overlay_of two_buckets)))) /\
  length (_find_all_paths bucket_targets (snd (first_fix bucket_targets (overlay_of two_buckets))))
    < length (_find_all_paths bucket_targets (overlay_of two_buckets)).
Proof.
  apply (proj1 (C8_fix_loop_disconnects (mkFixEngine (overlay_of two_buckets) bucket_targets))
           (overlay_of two_buckets) 0 (fst (first_fix bucket_targets (overlay_of two_buckets)))
           (snd (first_fix bucket_targets (overlay_of two_buckets)))).
  vm_compute. reflexivity.
Defined.

End Claims.

(* ================================================================= *)
(** ** Further properties of the rules engine, the graph builder and the
       fix engine *)

Module Extras.
Import Py PyStr Model Policy Attack NX Engine Rules Builder SpecSide Scenarios SpecExtra Samples Facts.

(** *** [RulesEngine] *)

Lemma run_app (a b : list Resource) :
  run (a ++ b) = (x <- run a ;; y <- run b ;; Ok (x ++ y)%list).
Proof.
  induction a as [|r a IH]; simpl.
  - destruct (run b); reflexivity.
  - destruct (check_resource r) as [here|e]; simpl; [|reflexivity].
    rewrite IH. destruct (run a) as [x|e]; simpl; [|reflexivity].
    destruct (run b) as [y|e]; simpl; [rewrite app_assoc|]; reflexivity.
Qed.

Lemma sg_findings_only res ings out :
  sg_findings res ings = Ok out -> forall f, In f out -> f = net_001 res.
Proof.
  revert out. induction ings as [|r ings IH]; simpl; intros out H f Hf.
  - injection H as <-. destruct Hf.
  - destruct (rule_cidrs r) as [c|e]; simpl in H; [|discriminate].
    destruct (sg_findings res ings) as [later|e]; simpl in H; [|discriminate].
    injection H as <-. apply in_app_or in Hf as [Hf|Hf]; [|exact (IH _ eq_refl f Hf)].
    destruct c; try destruct Hf. destruct (list_has_str l "0.0.0.0/0"); [|destruct Hf].
    destruct Hf as [<-|[]]. reflexivity.
Qed.

Lemma check_resource_findings res here :
  check_resource res = Ok here -> forall f, In f here ->
  is_compliant f = false /\ resource_id f = id res /\ In (type res, rule_id f) finding_kinds.
Proof.
  unfold check_resource. intros H f Hf.
  destruct (String.eqb (type res) "aws_security_group") eqn:E1.
  { apply String.eqb_eq in E1. rewrite (sg_findings_only _ _ _ H f Hf), E1.
    simpl. auto. }
  destruct (String.eqb (type res) "aws_s3_bucket") eqn:E2.
  { apply String.eqb_eq in E2. injection H as <-. unfold _check_s3_public in Hf.
    destruct (_ || _); [|destruct Hf]. destruct Hf as [<-|[]]. rewrite E2. simpl. auto 6. }
  destruct (String.eqb (type res) "aws_iam_policy") eqn:E3.
  { apply String.eqb_eq in E3. injection H as <-. unfold _check_iam_permissive in Hf.
    destruct (_ && _); [|destruct Hf]. destruct Hf as [<-|[]]. rewrite E3. simpl. auto 6. }
  destruct (String.eqb (type res) "aws_bedrock_model_invocation_logging_configuration") eqn:E4.
  { apply String.eqb_eq in E4. unfold _check_ai_logging_plaintext in H.
    destruct (py_contains _ _) as [[|]|e]; simpl in H; try discriminate; injection H as <-;
      [|destruct Hf]. destruct Hf as [<-|[]]. rewrite E4. simpl. auto 8. }
  injection H as <-. destruct Hf.
Qed.

(** Extra X1: every result of [RulesEngine.run] reports a non-compliance of
    one of the input resources, with the rule of that resource's type
    ([NET-001] for security groups, [STO-001] for buckets, [IAM-001] for
    policies, [AI-001] for invocation-logging configurations). *)
Theorem run_findings_of_inputs (rs : list Resource) (out : list RuleResult) :
  run rs = Ok out ->
  forall f, In f out ->
  is_compliant f = false /\
  exists r, In r rs /\ resource_id f = id r /\ In (type r, rule_id f) finding_kinds.
Proof.
  revert out. induction rs as [|r rs IH]; simpl; intros out H f Hf.
  - injection H as <-. destruct Hf.
  - destruct (check_resource r) as [here|e] eqn:Hc; simpl in H; [|discriminate].
    destruct (run rs) as [later|e]; simpl in H; [|discriminate]. injection H as <-.
    apply in_app_or in Hf as [Hf|Hf].
    + destruct (check_resource_findings _ _ Hc f Hf) as [Hcomp [Hid Hk]].
      split; [exact Hcomp|]. exists r. auto.
    + destruct (IH _ eq_refl f Hf) as [Hcomp [r' [Hin Hr]]].
      split; [exact Hcomp|]. exists r'. auto.
Qed.

Lemma check_cidrs_flat l :
  no_nested l = true -> _check_cidrs (VList l) = list_has_str l "0.0.0.0/0".
Proof.
  intros H. unfold _check_cidrs. destruct l as [|c l]; [reflexivity|]. simpl negb. cbv iota.
  unfold list_has_str. generalize (c :: l) H. clear. intros l H.
  induction l as [|x l IH]; [reflexivity|]. simpl in H |- *.
  apply andb_true_iff in H as [Hx H]. rewrite (IH H).
  destruct x; try reflexivity; discriminate.
Qed.

Lemma list_has_str_app a b s : list_has_str (a ++ b) s = list_has_str a s || list_has_str b s.
Proof. unfold list_has_str. apply existsb_app. Qed.

Lemma extend_cidrs_flat subs :
  forallb (fun sub => match sub with
                      | VDict kv => match dict_get kv "cidr_blocks" (VList []) with
                                    | VList l => no_nested l
                                    | _ => false
                                    end
                      | _ => true
                      end) subs = true ->
  forall acc, exists l, extend_cidrs subs acc = Ok (acc ++ l)%list /\
    list_has_str l "0.0.0.0/0" =
    existsb (fun sub => match sub with
                        | VDict kv => _check_cidrs (dict_get kv "cidr_blocks" (VList []))
                        | _ => false
                        end) subs.
Proof.
  induction subs as [|sub subs IH]; simpl; intros H acc.
  - exists []. rewrite app_nil_r. split; reflexivity.
  - apply andb_true_iff in H as [H1 H2]. destruct sub as [| | | | |kv];
      try (destruct (IH H2 acc) as [m [E1 E2]]; exists m; split; assumption).
    destruct (dict_get kv "cidr_blocks" (VList [])) as [| | | |c|] eqn:Ec; try discriminate.
    simpl. destruct (IH H2 (acc ++ c)%list) as [l [E1 E2]]. exists (c ++ l)%list.
    rewrite E1, app_assoc. split; [reflexivity|].
    rewrite list_has_str_app, E2, check_cidrs_flat by exact H1. reflexivity.
Qed.

Lemma sg_findings_flat res ings :
  forallb flat_rule ings = true ->
  exists out, sg_findings res ings = Ok out /\
    (out <> [] <->
     existsb (fun rule =>
                match rule with
                | VList subs =>
                    existsb (fun sub => match sub with
                                        | VDict kv => _check_cidrs (dict_get kv "cidr_blocks" (VList []))
                                        | _ => false
                                        end) subs
                | VDict kv => _check_cidrs (dict_get kv "cidr_blocks" (VList []))
                | _ => false
                end) ings = true).
Proof.
  induction ings as [|rule ings IH]; simpl; intros H.
  - exists []. split; [reflexivity|]. split; [congruence|discriminate].
  - apply andb_true_iff in H as [H1 H2]. destruct (IH H2) as [later [E1 E2]].
    assert (Hr : exists c, rule_cidrs rule = Ok c /\
               (match c with VList l => list_has_str l "0.0.0.0/0" | _ => false end) =
               match rule with
               | VList subs =>
                   existsb (fun sub => match sub with
                                       | VDict kv => _check_cidrs (dict_get kv "cidr_blocks" (VList []))
                                       | _ => false
                                       end) subs
               | VDict kv => _check_cidrs (dict_get kv "cidr_blocks" (VList []))
               | _ => false
               end).
    { destruct rule as [| | | |subs|kv]; simpl; try (eexists; split; reflexivity).
      - destruct (extend_cidrs_flat subs H1 []) as [l [F1 F2]]. rewrite F1. simpl.
        eexists; split; [reflexivity|exact F2].
      - simpl in H1. eexists; split; [reflexivity|].
        destruct (dict_get kv "cidr_blocks" (VList [])) eqn:Ec;
          try (unfold _check_cidrs; destruct (negb (truthy _)); reflexivity).
        symmetry. apply check_cidrs_flat. exact H1. }
    destruct Hr as [c [R1 R2]]. rewrite R1, E1. simpl. eexists; split; [reflexivity|].
    rewrite <- R2. destruct c; simpl; try exact E2.
    destruct (list_has_str l "0.0.0.0/0"); simpl.
    + split; [reflexivity|discriminate].
    + exact E2.
Qed.

(** Extra X2: when every [cidr_blocks] of a security group is a flat list,
    the rules engine reports [NET-001] for it exactly when the attack engine
    counts it as public ([_is_sg_public]); the check does not raise. *)
Theorem sg_rule_agrees_with_attack_engine (res : Resource) :
  flat_cidrs res = true ->
  exists out, _check_sg_public_exposure res = Ok out /\
              (out <> [] <-> _is_sg_public res = true).
Proof.
  unfold flat_cidrs, _check_sg_public_exposure, _is_sg_public. intros H.
  destruct (dict_get (attributes res) "ingress" (VList [])); apply sg_findings_flat; exact H.
Qed.

(** The first phase of the overlay adds, towards a bucket node, exactly the
    [Public ACL/Policy] edge from [Internet] when [STO-001] is reported. *)
Lemma phase1_bucket_filter (g : graph) (n : string) (r : Resource) :
  NoDup (map fst (nodes g)) -> In (n, Some r) (nodes g) -> type r = "aws_s3_bucket" ->
  filter (is_edge "Internet" n) (phase1 g) =
  match _check_s3_public r with
  | [] => []
  | _ => [mkEdge "Internet" n "Public ACL/Policy" "Data Leakage"]
  end.
Proof.
  intros Hnd Hin Ht. unfold phase1. rewrite filter_flat_map.
  rewrite (flat_map_single fst _ _ (n, Some r) Hnd Hin).
  - simpl. unfold ingress_edges, is_vector_store, _check_s3_public, _is_bucket_public. rewrite Ht.
    simpl. destruct (_ || _); simpl; [unfold is_edge; simpl; rewrite String.eqb_refl|]; reflexivity.
  - intros b Hb Hne. apply filter_not_to. intros e He. rewrite (ingress_dst _ _ _ _ He). exact Hne.
Qed.

(** Extra X3: for a bucket node [n] of a resource graph with distinct node
    ids, none of them [Internet], the attack overlay has an edge
    [Internet -> n] exactly when the rules engine reports [STO-001] for the
    bucket, and that edge is the [Public ACL/Policy] one: no later phase adds
    or relabels an edge from [Internet]. *)
Theorem bucket_rule_agrees_with_overlay (g : graph) (ag : agraph) (n : string) (r : Resource) :
  NoDup (map fst (nodes g)) ->
  ~ In "Internet" (map fst (nodes g)) ->
  In (n, Some r) (nodes g) -> type r = "aws_s3_bucket" ->
  _build_attack_overlay g = Ok ag ->
  edge_data ag "Internet" n =
  match _check_s3_public r with
  | [] => None
  | _ => Some ("Public ACL/Policy", "Data Leakage")
  end.
Proof.
  intros Hnd HI Hin Ht Hb. unfold _build_attack_overlay in Hb.
  destruct (phase3_roles g (roles g)) as [p3|] eqn:H3; simpl in Hb; [|discriminate].
  injection Hb as <-.
  rewrite edge_data_fold, !filter_app, (phase1_bucket_filter g n r Hnd Hin Ht).
  rewrite (filter_not_from (phase2 g)), (filter_not_from p3), (filter_not_from (phase4 g)).
  - destruct (_check_s3_public r); reflexivity.
  - intros e He E. apply HI. rewrite <- E. exact (phase4_src g e He).
  - intros e He E. apply HI. rewrite <- E. apply roles_in. exact (phase3_roles_src g _ _ H3 e He).
  - intros e He E. apply HI. rewrite <- E. exact (phase2_src g e He).
Qed.

(** Induction on values, with the hypothesis for the elements of lists
    and dicts. *)
Lemma value_ind' (P : value -> Prop)
  (HN : P VNone) (HB : forall b, P (VBool b)) (HNum : forall x, P (VNum x))
  (HS : forall s, P (VStr s)) (HL : forall l, Forall P l -> P (VList l))
  (HD : forall kv, Forall (fun p => P (snd p)) kv -> P (VDict kv)) :
  forall v, P v.
Proof.
  refine (fix F v := match v with
                     | VNone => HN
                     | VBool b => HB b
                     | VNum x => HNum x
                     | VStr s => HS s
                     | VList l => HL l _
                     | VDict kv => HD kv _
                     end).
  - induction l as [|x l IHl]; [constructor|]. exact (Forall_cons x (F x) IHl).
  - induction kv as [|p kv IHk]; [constructor|]. exact (Forall_cons p (F (snd p)) IHk).
Defined.

Lemma has_char_app c a b : has_char c (a ++ b) = has_char c a || has_char c b.
Proof. induction a as [|x a IH]; simpl; [reflexivity|]. rewrite IH, orb_assoc. reflexivity. Qed.

Lemma contains_char s c : contains s (String c EmptyString) = has_char c s.
Proof.
  induction s as [|x s IH]; simpl; [reflexivity|]. rewrite IH.
  destruct (ascii_dec c x) as [->|E]; [rewrite Ascii.eqb_refl; destruct s; reflexivity|].
  destruct (Ascii.eqb_spec x c) as [->|_]; [congruence|reflexivity].
Qed.

Lemma contains_split s sub : contains s sub = true -> exists a b, s = (a ++ sub ++ b)%string.
Proof.
  induction s as [|x s IH]; cbn [contains]; intros H.
  - apply orb_true_iff in H as [H|H]; [|discriminate].
    destruct (prefix_app _ _ H) as [r E]. exists EmptyString, r. exact E.
  - apply orb_true_iff in H as [H|H].
    + destruct (prefix_app _ _ H) as [r E]. exists EmptyString, r. exact E.
    + destruct (IH H) as [a [b ->]]. exists (String x a), b. reflexivity.
Qed.

Lemma contains_no_char s sub c :
  has_char c s = false -> has_char c sub = true -> contains s sub = false.
Proof.
  intros Hs Hsub. destruct (contains s sub) eqn:E; [|reflexivity].
  destruct (contains_split _ _ E) as [a [b ->]]. rewrite !has_char_app, Hsub in Hs.
  rewrite orb_true_r in Hs. discriminate.
Qed.

Lemma join_no_char c sep l :
  has_char c sep = false -> Forall (fun x => has_char c x = false) l -> has_char c (join sep l) = false.
Proof.
  intros Hsep H. induction H as [|x l Hx H IH]; [reflexivity|].
  destruct l as [|y l]; [exact Hx|]. change (join sep (x :: y :: l)) with (x ++ sep ++ join sep (y :: l))%string.
  rewrite !has_char_app, Hx, Hsep, IH. reflexivity.
Qed.

Lemma escape_no_dq c : Ascii.eqb c dq = false -> has_char dq (escape_char "'" c) = false.
Proof.
  intros H. destruct c as [[] [] [] [] [] [] [] []]; try reflexivity; discriminate.
Qed.

Lemma repr_str_no_dq s : clean_str s = true -> has_char dq (repr_str s) = false.
Proof.
  unfold clean_str, repr_str. intros H. apply andb_true_iff in H as [H1 H2].
  apply negb_true_iff in H1, H2. rewrite contains_char, H1. simpl.
  rewrite has_char_app. simpl. rewrite orb_false_r.
  induction s as [|x s IH]; [reflexivity|]. simpl in H1, H2 |- *.
  apply orb_false_iff in H1 as [_ H1], H2 as [Hx H2].
  rewrite has_char_app, escape_no_dq by exact Hx. apply IH; assumption.
Qed.

Lemma repr_no_dq v : quote_free v = true -> has_char dq (repr v) = false.
Proof.
  induction v as [| b | x | s | l IH | kv IH] using value_ind'; intros H; simpl in H; cbn [repr].
  - reflexivity.
  - destruct b; reflexivity.
  - unfold clean_str in H. apply andb_true_iff in H as [_ H]. apply negb_true_iff. exact H.
  - apply repr_str_no_dq. exact H.
  - rewrite !has_char_app. cbn [has_char].
    change (Ascii.eqb "[" dq) with false. change (Ascii.eqb "]" dq) with false.
    rewrite !orb_false_r, orb_false_l.
    apply join_no_char; [reflexivity|]. apply Forall_forall. intros y Hy.
    apply in_map_iff in Hy as [v [<- Hv]]. rewrite Forall_forall in IH. apply IH; [exact Hv|].
    rewrite forallb_forall in H. exact (H v Hv).
  - rewrite !has_char_app. cbn [has_char].
    change (Ascii.eqb "{" dq) with false. change (Ascii.eqb "}" dq) with false.
    rewrite !orb_false_r, orb_false_l.
    apply join_no_char; [reflexivity|]. apply Forall_forall. intros y Hy.
    apply in_map_iff in Hy as [p [<- Hp]]. rewrite forallb_forall in H.
    destruct (proj1 (andb_true_iff _ _) (H p Hp)) as [Hk Hv]. rewrite Forall_forall in IH.
    rewrite !has_char_app, (repr_str_no_dq _ Hk), (IH p Hp Hv). reflexivity.
Qed.

(** Extra X4: a policy given as an HCL object (a dict, or a list whose
    first element is a dict) whose keys and values hold no quote character
    is never reported as [IAM-001]: [str()] renders it with single quotes,
    so the double-quoted patterns never occur. *)
Theorem iam_rule_misses_object_policies (res : Resource) (kv : list (string * value)) :
  (dict_get (attributes res) "policy" (VStr "") = VDict kv \/
   exists rest, dict_get (attributes res) "policy" (VStr "") = VList (VDict kv :: rest)) ->
  quote_free (VDict kv) = true ->
  _check_iam_permissive res = [].
Proof.
  intros Hp Hq. unfold _check_iam_permissive.
  destruct Hp as [E | [rest E]]; rewrite E; cbv beta iota; unfold str;
    rewrite (contains_no_char _ _ dq (repr_no_dq _ Hq)); reflexivity.
Qed.

(** Extra X5: a model invocation logging configuration whose
    [logging_config] is [None], a bool or a number makes [RulesEngine.run]
    raise [TypeError] (at [in]) once the resources before it are checked,
    whatever follows; the graph builder's [_process_bedrock_logging] treats
    the same value as an empty config and adds no edge. *)
Theorem logging_rule_raises_on_scalar_config (rs1 rs2 : list Resource) (res : Resource)
        (out : list RuleResult) (lc : value) :
  run rs1 = Ok out ->
  type res = "aws_bedrock_model_invocation_logging_configuration" ->
  dict_get (attributes res) "logging_config" (VDict []) = lc ->
  (lc = VNone \/ (exists b, lc = VBool b) \/ (exists x, lc = VNum x)) ->
  run (rs1 ++ res :: rs2) = Raise TypeError /\
  forall num_eq self g, _process_bedrock_logging num_eq self res (attributes res) g = Ok g.
Proof.
  intros H1 Ht Hlc Hs. split.
  - rewrite run_app, H1. simpl. unfold check_resource. rewrite Ht. simpl.
    unfold _check_ai_logging_plaintext. rewrite Hlc.
    destruct Hs as [-> | [[b ->] | [x ->]]]; reflexivity.
  - intros num_eq self g. unfold _process_bedrock_logging.
    assert (E : dict_get (attributes res) "logging_config" (VList []) = lc).
    { rewrite <- Hlc. apply dict_get_present.
      destruct (dict_has (attributes res) "logging_config") eqn:Eh; [reflexivity|].
      rewrite dict_get_absent in Hlc by exact Eh. subst lc.
      destruct Hs as [E | [[b E] | [x E]]]; discriminate. }
    rewrite E. destruct Hs as [-> | [[b ->] | [x ->]]]; reflexivity.
Qed.

(** *** [GraphBuilder] *)

Section Builder_facts.
Variable num_eq : value -> value -> bool.

Lemma key_eq_str_trans k v x :
  key_eq num_eq k v = true -> key_eq num_eq k (VStr x) = key_eq num_eq v (VStr x).
Proof.
  destruct k, v; simpl; try discriminate; try reflexivity.
  intros E. apply String.eqb_eq in E. subst. reflexivity.
Qed.

Lemma key_eq_str v x : key_eq num_eq v (VStr x) = is_str v x.
Proof. destruct v; reflexivity. Qed.

Lemma bucket_find_set bi t' v i t x :
  option_map snd (find (fun p => String.eqb (fst (fst p)) t && key_eq num_eq (snd (fst p)) (VStr x))
                       (bucket_set num_eq bi (t', v) i)) =
  if String.eqb t' t && key_eq num_eq v (VStr x) then Some i
  else option_map snd (find (fun p => String.eqb (fst (fst p)) t && key_eq num_eq (snd (fst p)) (VStr x)) bi).
Proof.
  induction bi as [|[[t1 v1] i1] bi IH]; simpl.
  - destruct (String.eqb t' t && key_eq num_eq v (VStr x)); reflexivity.
  - destruct (String.eqb t1 t' && key_eq num_eq v1 v) eqn:Em; simpl.
    + apply andb_true_iff in Em as [Et Ek]. apply String.eqb_eq in Et. subst t1.
      rewrite (key_eq_str_trans _ _ _ Ek).
      destruct (String.eqb t' t && key_eq num_eq v (VStr x)); reflexivity.
    + destruct (String.eqb t1 t && key_eq num_eq v1 (VStr x)) eqn:Ep; simpl; [|exact IH].
      destruct (String.eqb t' t && key_eq num_eq v (VStr x)) eqn:Eq; [|reflexivity].
        exfalso. apply andb_true_iff in Ep as [Ep1 Ep2], Eq as [Eq1 Eq2].
        apply String.eqb_eq in Ep1, Eq1. subst.
        rewrite key_eq_str in Ep2, Eq2. destruct v1, v; try discriminate.
        simpl in Ep2, Eq2, Em. apply String.eqb_eq in Ep2, Eq2. subst.
        rewrite !String.eqb_refl in Em. discriminate.
Qed.

Lemma name_find_set ni t' n' i t x :
  option_map snd (find (fun p => String.eqb (fst (fst p)) t && is_str (VStr x) (snd (fst p)))
                       (name_set ni (t', n') i)) =
  if String.eqb t' t && String.eqb x n' then Some i
  else option_map snd (find (fun p => String.eqb (fst (fst p)) t && is_str (VStr x) (snd (fst p))) ni).
Proof.
  induction ni as [|[[t1 n1] i1] ni IH]; simpl.
  - destruct (String.eqb t' t && String.eqb x n'); reflexivity.
  - destruct (String.eqb t1 t' && String.eqb n1 n') eqn:Em; simpl.
    + apply andb_true_iff in Em as [Et En]. apply String.eqb_eq in Et, En. subst.
      destruct (String.eqb t' t && String.eqb x n'); reflexivity.
    + destruct (String.eqb t1 t && String.eqb x n1) eqn:Ep; simpl; [|exact IH].
      destruct (String.eqb t' t && String.eqb x n') eqn:Eq; [|reflexivity].
        exfalso. apply andb_true_iff in Ep as [Ep1 Ep2], Eq as [Eq1 Eq2].
        apply String.eqb_eq in Ep1, Ep2, Eq1, Eq2. subst.
        rewrite !String.eqb_refl in Em. discriminate.
Qed.

Lemma last_with_fold (p : Resource -> bool) rs acc :
  fold_left (fun acc r => if p r then Some r else acc) rs acc =
  match last_with p rs with Some r => Some r | None => acc end.
Proof.
  unfold last_with. revert acc. induction rs as [|r rs IH]; intros acc; simpl; [reflexivity|].
  rewrite (IH (if p r then Some r else acc)), (IH (if p r then Some r else None)).
  destruct (fold_left _ rs None); [reflexivity|]. destruct (p r); reflexivity.
Qed.

Lemma last_with_cons (p : Resource -> bool) r rs :
  last_with p (r :: rs) = match last_with p rs with Some r' => Some r' | None => if p r then Some r else None end.
Proof. unfold last_with at 1. simpl. apply last_with_fold. Qed.

Lemma build_indices_find rs : forall ni bi ni' bi' t x,
  build_indices num_eq rs ni bi = Ok (ni', bi') ->
  option_map snd (find (fun p => String.eqb (fst (fst p)) t && key_eq num_eq (snd (fst p)) (VStr x)) bi') =
    match last_with (by_bucket t x) rs with
    | Some r => Some (id r)
    | None => option_map snd (find (fun p => String.eqb (fst (fst p)) t && key_eq num_eq (snd (fst p)) (VStr x)) bi)
    end /\
  option_map snd (find (fun p => String.eqb (fst (fst p)) t && is_str (VStr x) (snd (fst p))) ni') =
    match last_with (by_name t x) rs with
    | Some r => Some (id r)
    | None => option_map snd (find (fun p => String.eqb (fst (fst p)) t && is_str (VStr x) (snd (fst p))) ni)
    end.
Proof.
  induction rs as [|r rs IH]; intros ni bi ni' bi' t x H; simpl in H.
  - injection H as <- <-. split; reflexivity.
  - rewrite !last_with_cons.
    destruct (truthy (dict_get (attributes r) "bucket" VNone)) eqn:Etr;
      [destruct (hashable (dict_get (attributes r) "bucket" VNone)) eqn:Eh; [|discriminate]|];
      simpl in H; destruct (IH _ _ _ _ t x H) as [IH1 IH2]; rewrite IH1, IH2;
      (split; [destruct (last_with (by_bucket t x) rs); [reflexivity|]
              |destruct (last_with (by_name t x) rs); [reflexivity|]]).
    + rewrite bucket_find_set. unfold by_bucket. rewrite key_eq_str.
      destruct (String.eqb (type r) t); [|reflexivity]. simpl.
      destruct (dict_get (attributes r) "bucket" VNone) as [|?|?|b|?|?]; simpl in Etr |- *;
        rewrite ?andb_false_r; try reflexivity.
      destruct (String.eqb_spec b x) as [->|]; [|rewrite andb_false_r; reflexivity].
      rewrite Etr. reflexivity.
    + rewrite name_find_set. unfold by_name. rewrite (String.eqb_sym x).
      destruct (_ && _); reflexivity.
    + unfold by_bucket.
      destruct (String.eqb (type r) t); [|reflexivity]. simpl.
      destruct (dict_get (attributes r) "bucket" VNone) as [|?|?|b|?|?]; simpl in Etr |- *;
        rewrite ?andb_false_r; try reflexivity.
      destruct (String.eqb_spec b x) as [->|]; [|rewrite andb_false_r; reflexivity].
      apply negb_false_iff in Etr. rewrite Etr. reflexivity.
    + rewrite name_find_set. unfold by_name. rewrite (String.eqb_sym x).
      destruct (_ && _); reflexivity.
Qed.

End Builder_facts.

Lemma find_by_name_lookup (num_eq : value -> value -> bool) (rs : list Resource)
        (self : GraphBuilder) (t x : string) :
  new_builder num_eq rs = Ok self ->
  _find_resource_by_name num_eq self t (VStr x) = Ok (lookup_spec rs t x).
Proof.
  unfold new_builder. destruct (build_indices num_eq rs [] []) as [[ni bi]|e] eqn:Hb; simpl; [|discriminate].
  intros H. injection H as <-. destruct (build_indices_find num_eq rs [] [] ni bi t x Hb) as [E1 E2].
  unfold _find_resource_by_name, lookup_spec. simpl.
  destruct (find _ bi) as [[k rid]|]; simpl in E1.
  - destruct (last_with (by_bucket t x) rs); simpl in E1; [congruence|discriminate].
  - destruct (last_with (by_bucket t x) rs); simpl in E1; [discriminate|].
    destruct (find _ ni) as [[k rid]|]; simpl in E2;
      destruct (last_with (by_name t x) rs); cbn [option_map] in *; congruence.
Qed.

(** Extra X6: on a builder made from [rs], looking a string name up for a
    type gives the last resource of that type whose [bucket] attribute is
    that (non-empty) string; failing that, the last resource of that type
    with that name; failing that, nothing.  The bucket attribute wins over
    the resource name. *)
Theorem find_resource_by_name_spec (num_eq : value -> value -> bool) (rs : list Resource)
        (self : GraphBuilder) (t x : string) :
  new_builder num_eq rs = Ok self ->
  _find_resource_by_name num_eq self t (VStr x) = Ok (lookup_spec rs t x).
Proof. exact (find_by_name_lookup num_eq rs self t x). Qed.

Lemma str_app_assoc (a b c : string) : (a ++ b) ++ c = a ++ (b ++ c).
Proof. induction a as [|x a IH]; simpl; [reflexivity|]. rewrite IH. reflexivity. Qed.

Lemma str_app_nil (a : string) : a ++ EmptyString = a.
Proof. induction a as [|x a IH]; simpl; [reflexivity|]. rewrite IH. reflexivity. Qed.

(** [replace] passes over text that holds no first character of [old]. *)
Lemma replace_go_skip_plain c o new p q :
  has_char c p = false ->
  replace_go (String c o) new 0 (p ++ q) = p ++ replace_go (String c o) new 0 q.
Proof.
  induction p as [|x p IH]; intros H; [reflexivity|].
  cbn [has_char] in H. apply orb_false_iff in H as [Hx Hp].
  cbn [String.append replace_go String.prefix].
  destruct (ascii_dec c x) as [->|_]; [rewrite Ascii.eqb_refl in Hx; discriminate|].
  rewrite IH by exact Hp. reflexivity.
Qed.

(** [split] reads text with no separator character into the current piece. *)
Lemma split_go_plain c p q cur :
  has_char c p = false ->
  split_go (String c EmptyString) 0 (p ++ q) cur = split_go (String c EmptyString) 0 q (cur ++ p).
Proof.
  revert cur. induction p as [|x p IH]; intros cur H; [rewrite str_app_nil; reflexivity|].
  cbn [has_char] in H. apply orb_false_iff in H as [Hx Hp].
  cbn [String.append split_go String.prefix].
  destruct (ascii_dec c x) as [->|_]; [rewrite Ascii.eqb_refl in Hx; discriminate|].
  rewrite IH by exact Hp. rewrite str_app_assoc. reflexivity.
Qed.

Lemma split_go_sep c q cur :
  split_go (String c EmptyString) 0 (String c q) cur = cur :: split_go (String c EmptyString) 0 q EmptyString.
Proof.
  cbn [split_go String.prefix]. destruct (ascii_dec c c) as [_|E]; [|congruence].
  destruct q; reflexivity.
Qed.

Lemma prefix_nil s : String.prefix EmptyString s = true.
Proof. destruct s; reflexivity. Qed.

Lemma replace_dollar w :
  replace_go "${" "" 0 (String "$" (String "{" w)) = replace_go "${" "" 0 w.
Proof. simpl. rewrite prefix_nil. reflexivity. Qed.

(** A reference with no [$] or [}] comes out of the two [replace] calls
    unchanged, also from its [${...}] form. *)
Lemma clean_tf_ref w body :
  has_char "$" body = false -> has_char "}" body = false ->
  replace (replace (tf_ref w body) "${" "") "}" "" = body.
Proof.
  intros Hd Hb. unfold replace.
  assert (Ed : forall q, replace_go "${" "" 0 (body ++ q) = body ++ replace_go "${" "" 0 q)
    by (intros q; apply replace_go_skip_plain; exact Hd).
  assert (Eb : forall q, replace_go "}" "" 0 (body ++ q) = body ++ replace_go "}" "" 0 q)
    by (intros q; apply replace_go_skip_plain; exact Hb).
  destruct w; cbn [tf_ref].
  - cbn [String.append]. rewrite replace_dollar, Ed, Eb.
    change (replace_go "}" "" 0 (replace_go "${" "" 0 "}")) with EmptyString.
    apply str_app_nil.
  - rewrite <- (str_app_nil body), Ed, Eb. reflexivity.
Qed.

Lemma plain_segment_chars s :
  plain_segment s = true ->
  has_char "." s = false /\ has_char "$" s = false /\ has_char "}" s = false.
Proof.
  unfold plain_segment. intros H.
  apply andb_true_iff in H as [H H3]. apply andb_true_iff in H as [H1 H2].
  apply negb_true_iff in H1, H2, H3. auto.
Qed.

Lemma ref_tail_chars a : ref_tail a = true -> has_char "$" a = false /\ has_char "}" a = false.
Proof.
  destruct a as [|c r]; cbn [ref_tail]; intros H; [split; reflexivity|].
  apply andb_true_iff in H as [H H3]. apply andb_true_iff in H as [H1 H2].
  apply Ascii.eqb_eq in H1. subst c. apply negb_true_iff in H2, H3.
  cbn [has_char]. rewrite H2, H3. split; reflexivity.
Qed.

Lemma ref_tail_split a n : ref_tail a = true -> exists rest, split_go "." 0 a n = n :: rest.
Proof.
  destruct a as [|c r]; cbn [ref_tail]; intros H; [exists []; reflexivity|].
  apply andb_true_iff in H as [H _]. apply andb_true_iff in H as [H _].
  apply Ascii.eqb_eq in H. subst c.
  exists (split_go "." 0 r EmptyString). apply split_go_sep.
Qed.


(** Extra X7: a reference [type.name], followed by nothing or by [.] and
    more text, resolves to [type.name] when a resource has that id and to
    nothing otherwise; a [data.type.name] reference resolves to
    [data.type.name] the same way. Both hold for the bare form and for the
    [${...}] form. *)
Theorem resolve_reference_roundtrip (self : GraphBuilder) (w : bool) (t n m a : string) :
  plain_segment t = true -> plain_segment n = true -> plain_segment m = true ->
  ref_tail a = true ->
  (t <> "data" ->
   _resolve_reference self (VStr (tf_ref w (t ++ "." ++ n ++ a))) =
   (if in_resource_map self (t ++ "." ++ n) then Some (t ++ "." ++ n) else None)) /\
  _resolve_reference self (VStr (tf_ref w ("data" ++ "." ++ n ++ "." ++ m ++ a))) =
  (if in_resource_map self ("data." ++ n ++ "." ++ m)
   then Some ("data." ++ n ++ "." ++ m) else None).
Proof.
  intros Ht Hn Hm Ha.
  destruct (plain_segment_chars _ Ht) as [Ht1 [Ht2 Ht3]].
  destruct (plain_segment_chars _ Hn) as [Hn1 [Hn2 Hn3]].
  destruct (plain_segment_chars _ Hm) as [Hm1 [Hm2 Hm3]].
  destruct (ref_tail_chars _ Ha) as [Ha2 Ha3].
  split.
  - intros Hnd. unfold _resolve_reference.
    rewrite clean_tf_ref
      by (rewrite !has_char_app; rewrite ?Ht2, ?Hn2, ?Ha2, ?Ht3, ?Hn3, ?Ha3; reflexivity).
    unfold split. rewrite split_go_plain by exact Ht1.
    cbn [String.append]. rewrite split_go_sep, split_go_plain by exact Hn1.
    cbn [String.append]. destruct (ref_tail_split a n Ha) as [rest ->].
    destruct (String.eqb_spec t "data") as [E|_]; [contradiction|reflexivity].
  - unfold _resolve_reference.
    rewrite clean_tf_ref
      by (rewrite !has_char_app; rewrite ?Hn2, ?Hm2, ?Ha2, ?Hn3, ?Hm3, ?Ha3; reflexivity).
    unfold split. rewrite (split_go_plain "."%char "data") by reflexivity.
    cbn [String.append]. rewrite split_go_sep, split_go_plain by exact Hn1. cbn [String.append].
    rewrite split_go_sep, split_go_plain by exact Hm1. cbn [String.append].
    destruct (ref_tail_split a m Ha) as [rest ->]. reflexivity.
Qed.


(** Nodes of the graph [build] makes. *)

Lemma existsb_find_none {A} (f : A -> bool) l : existsb f l = false -> find f l = None.
Proof.
  induction l as [|a l IH]; simpl; [reflexivity|].
  destruct (f a); [discriminate|exact IH].
Qed.

Lemma find_app_l {A} (f : A -> bool) l1 l2 :
  find f (l1 ++ l2)%list = match find f l1 with Some a => Some a | None => find f l2 end.
Proof. induction l1 as [|a l1 IH]; simpl; [reflexivity|]. destruct (f a); [reflexivity|exact IH]. Qed.

Lemma find_map_snd {B} (h : string * B -> string * B) (l : list (string * B)) x :
  (forall p, fst (h p) = fst p) ->
  find (fun p => String.eqb (fst p) x) (map h l) = option_map h (find (fun p => String.eqb (fst p) x) l).
Proof.
  intros Hh. induction l as [|p l IH]; simpl; [reflexivity|].
  rewrite Hh. destruct (String.eqb (fst p) x); [reflexivity|exact IH].
Qed.

Lemma map_fst_update {B} (n : string) (b : B) (l : list (string * B)) :
  map fst (map (fun p => if String.eqb (fst p) n then (fst p, b) else p) l) = map fst l.
Proof.
  induction l as [|p l IH]; simpl; [reflexivity|].
  rewrite IH. destruct (String.eqb (fst p) n); reflexivity.
Qed.

Lemma has_node_keys g x : has_node g x = true <-> In x (map fst (nodes g)).
Proof.
  unfold has_node. rewrite existsb_exists. split.
  - intros [p [Hp E]]. apply String.eqb_eq in E. subst x. apply in_map. exact Hp.
  - intros Hx. apply in_map_iff in Hx as [p [<- Hp]]. exists p. split; [exact Hp|apply String.eqb_refl].
Qed.

Lemma add_node_keys g n r :
  map fst (nodes (nx_add_node g n r)) =
  if has_node g n then map fst (nodes g) else (map fst (nodes g) ++ [n])%list.
Proof.
  unfold nx_add_node. destruct (has_node g n); cbn [nodes].
  - apply map_fst_update.
  - rewrite map_app. reflexivity.
Qed.

Lemma add_node_nodup g n r :
  NoDup (map fst (nodes g)) -> NoDup (map fst (nodes (nx_add_node g n r))).
Proof.
  intros H. rewrite add_node_keys. destruct (has_node g n) eqn:E; [exact H|].
  apply NoDup_app; [exact H|constructor; [intros []|constructor]|].
  intros x Hx [<-|[]]. apply has_node_keys in Hx. congruence.
Qed.

Lemma add_node_has g n r x : has_node (nx_add_node g n r) x = true <-> has_node g x = true \/ n = x.
Proof.
  rewrite !has_node_keys, add_node_keys. destruct (has_node g n) eqn:E.
  - split; [left; exact H|]. intros [H| <-]; [exact H|apply has_node_keys; exact E].
  - rewrite in_app_iff. simpl. split; intros [H|H]; auto; destruct H as [H|[]]; auto.
Qed.

Lemma add_node_resource g n r x :
  node_resource (nx_add_node g n r) x = if String.eqb n x then Some r else node_resource g x.
Proof.
  unfold nx_add_node, node_resource. destruct (has_node g n) eqn:E; cbn [nodes].
  - rewrite find_map_snd by (intros p; destruct (String.eqb (fst p) n); reflexivity).
    destruct (String.eqb_spec n x) as [<-|Ne].
    + destruct (find (fun p => String.eqb (fst p) n) (nodes g)) as [p|] eqn:F.
      * apply find_some in F as [_ F]. cbn [option_map]. rewrite F. reflexivity.
      * unfold has_node in E. apply existsb_exists in E as [p [Hp Ep]].
        apply (find_none _ _ F) in Hp. congruence.
    + destruct (find (fun p => String.eqb (fst p) x) (nodes g)) as [p|] eqn:F; [|reflexivity].
      apply find_some in F as [_ F]. apply String.eqb_eq in F. cbn [option_map].
      destruct (String.eqb_spec (fst p) n) as [E'|_]; [congruence|reflexivity].
  - rewrite find_app_l. destruct (String.eqb_spec n x) as [<-|Ne].
    + rewrite existsb_find_none by exact E. simpl. rewrite String.eqb_refl. reflexivity.
    + destruct (find (fun p => String.eqb (fst p) x) (nodes g)) as [[k v]|]; [reflexivity|].
      simpl. destruct (String.eqb_spec n x); [contradiction|reflexivity].
Qed.


Lemma add_node_succ_ok ids g n r : succ_ok ids g -> succ_ok ids (nx_add_node g n r).
Proof.
  unfold succ_ok, nx_add_node. intros H k l v rel Hk Hv.
  destruct (has_node g n); cbn [succ] in Hk; [exact (H _ _ _ _ Hk Hv)|].
  apply in_app_iff in Hk as [Hk|[E|[]]]; [exact (H _ _ _ _ Hk Hv)|].
  injection E as _ <-. destruct Hv.
Qed.

Lemma build_nodes_fold rs : forall g,
  NoDup (map fst (nodes g)) ->
  NoDup (map fst (nodes (fold_left (fun g res => nx_add_node g (id res) res) rs g))) /\
  (forall x, has_node (fold_left (fun g res => nx_add_node g (id res) res) rs g) x = true <->
             has_node g x = true \/ In x (map id rs)) /\
  (forall x, node_resource (fold_left (fun g res => nx_add_node g (id res) res) rs g) x =
             match last_with (fun r => String.eqb (id r) x) rs with
             | Some r => Some r
             | None => node_resource g x
             end).
Proof.
  induction rs as [|r rs IH]; intros g Hg; cbn [fold_left].
  - split; [exact Hg|]. split; [|reflexivity]. intros x. simpl. tauto.
  - destruct (IH _ (add_node_nodup g (id r) r Hg)) as [H1 [H2 H3]].
    split; [exact H1|]. split.
    + intros x. rewrite H2, add_node_has. simpl. tauto.
    + intros x. rewrite H3, add_node_resource, last_with_cons.
      destruct (last_with _ rs); [reflexivity|]. destruct (String.eqb (id r) x); reflexivity.
Qed.

Lemma build_succ_fold ids rs : forall g,
  succ_ok ids g -> succ_ok ids (fold_left (fun g res => nx_add_node g (id res) res) rs g).
Proof.
  induction rs as [|r rs IH]; intros g Hg; cbn [fold_left]; [exact Hg|].
  apply IH, add_node_succ_ok, Hg.
Qed.


(** Edges of the graph [build] makes. *)

Section Connect_facts.
Variable num_eq : value -> value -> bool.

Lemma name_set_vals ni k v i : In i (map snd (name_set ni k v)) -> In i (map snd ni) \/ i = v.
Proof.
  induction ni as [|[k' v'] ni IH]; cbn [name_set map snd]; [intros [<-|[]]; right; reflexivity|].
  destruct (_ && _); cbn [map snd In].
  - intros [<-|H]; [right; reflexivity|left; right; exact H].
  - intros [<-|H]; [left; left; reflexivity|]. destruct (IH H); [left; right|right]; assumption.
Qed.

Lemma bucket_set_vals bi k v i :
  In i (map snd (bucket_set num_eq bi k v)) -> In i (map snd bi) \/ i = v.
Proof.
  induction bi as [|[k' v'] bi IH]; cbn [bucket_set map snd]; [intros [<-|[]]; right; reflexivity|].
  destruct (_ && _); cbn [map snd In].
  - intros [<-|H]; [right; reflexivity|left; right; exact H].
  - intros [<-|H]; [left; left; reflexivity|]. destruct (IH H); [left; right|right]; assumption.
Qed.

(** Every id the indices hold is the id of a resource. *)
Lemma build_indices_vals ids rs : forall ni bi ni' bi',
  build_indices num_eq rs ni bi = Ok (ni', bi') ->
  (forall r, In r rs -> In (id r) ids) ->
  (forall i, In i (map snd ni) \/ In i (map snd bi) -> In i ids) ->
  forall i, In i (map snd ni') \/ In i (map snd bi') -> In i ids.
Proof.
  induction rs as [|r rs IH]; intros ni bi ni' bi' Hb Hrs Hix; cbn [build_indices] in Hb.
  - injection Hb as <- <-. exact Hix.
  - assert (Hr : In (id r) ids) by (apply Hrs; left; reflexivity).
    assert (Hrs' : forall r', In r' rs -> In (id r') ids) by (intros r' H; apply Hrs; right; exact H).
    destruct (truthy _); [destruct (hashable _)|]; cbn [bind] in Hb; try discriminate;
      (eapply IH; [exact Hb|exact Hrs'|]);
      intros i [H|H]; try (apply bucket_set_vals in H as [H| ->]); try (apply name_set_vals in H as [H| ->]);
      auto.
Qed.

Lemma in_resource_map_in self k : in_resource_map self k = true -> In k (map id (resources self)).
Proof.
  unfold in_resource_map. intros H. apply existsb_exists in H as [r [Hr E]].
  apply String.eqb_eq in E. subst k. apply in_map. exact Hr.
Qed.

Lemma resolve_in self ref c : _resolve_reference self ref = Some c -> In c (map id (resources self)).
Proof.
  unfold _resolve_reference. destruct ref; try discriminate.
  destruct (split _ _) as [|p0 [|p1 rest]]; try discriminate.
  destruct (String.eqb p0 "data"); [destruct rest as [|p2 rest]; [discriminate|]|];
    destruct (in_resource_map self _) eqn:E; intros H; try discriminate;
    injection H as <-; apply in_resource_map_in; exact E.
Qed.

Lemma find_resource_in self t v rid :
  _find_resource_by_name num_eq self t v = Ok (Some rid) ->
  In rid (map snd (name_index self)) \/ In rid (map snd (bucket_index self)).
Proof.
  unfold _find_resource_by_name. destruct (negb (hashable v)); [discriminate|].
  destruct (find _ (bucket_index self)) as [[k i]|] eqn:F1.
  - intros H. injection H as <-. apply find_some in F1 as [F1 _].
    right. apply (in_map snd) in F1. exact F1.
  - destruct (find _ (name_index self)) as [[k i]|] eqn:F2; intros H; [|discriminate].
    injection H as <-. apply find_some in F2 as [F2 _].
    left. apply (in_map snd) in F2. exact F2.
Qed.


Lemma ensure_node_has g n : has_node g n = true -> ensure_node g n = g.
Proof. unfold ensure_node. intros ->. reflexivity. Qed.

Lemma set_edge_in l v rel v' r' :
  In (v', r') (set_edge l v rel) -> In (v', r') l \/ (v' = v /\ r' = Some rel).
Proof.
  unfold set_edge. destruct (existsb _ l).
  - intros H. apply in_map_iff in H as [[a b] [E H]]. cbn [fst snd] in E.
    destruct (String.eqb_spec a v) as [<-|_].
    + injection E as <- <-. right. split; reflexivity.
    + left. rewrite <- E. exact H.
  - intros H. apply in_app_iff in H as [H|[E|[]]]; [left; exact H|].
    injection E as <- <-. right. split; reflexivity.
Qed.

Lemma add_edge_inv ids g u v rel :
  has_node g u = true -> has_node g v = true -> In v ids -> In rel rel_tags -> succ_ok ids g ->
  nodes (nx_add_edge g u v rel) = nodes g /\ succ_ok ids (nx_add_edge g u v rel).
Proof.
  intros Hu Hv Hvi Hrel Hs. unfold nx_add_edge.
  rewrite (ensure_node_has g u Hu), (ensure_node_has g v Hv). split; [reflexivity|].
  intros k l v' r' Hk Hl. cbn [succ] in Hk. apply in_map_iff in Hk as [[k0 l0] [E Hk]].
  cbn [fst snd] in E. destruct (String.eqb k0 u).
  - injection E as <- <-. apply set_edge_in in Hl as [Hl|[-> ->]].
    + exact (Hs _ _ _ _ Hk Hl).
    + split; [exact Hvi|exists rel; split; [reflexivity|exact Hrel]].
  - rewrite E in Hk. exact (Hs _ _ _ _ Hk Hl).
Qed.

Lemma registry_rels t rule : In rule (RELATIONSHIP_REGISTRY t) -> In (rel rule) rel_tags.
Proof.
  unfold RELATIONSHIP_REGISTRY.
  destruct (String.eqb t "aws_instance"); [|destruct (String.eqb t "aws_bedrock_agent");
    [|destruct (String.eqb t "aws_iam_instance_profile")]];
    cbn [In]; intros H; repeat destruct H as [<-|H]; try destruct H; simpl; tauto.
Qed.

Variable self : GraphBuilder.
Hypothesis Hidx : forall i, In i (map snd (name_index self)) \/ In i (map snd (bucket_index self)) ->
                  In i (map id (resources self)).
Variable N : list (string * option Resource).
Hypothesis HN : forall x, In x (map id (resources self)) -> In x (map fst N).

Lemma edge_inv g u v rel :
  nodes g = N -> succ_ok (map id (resources self)) g ->
  In u (map id (resources self)) -> In v (map id (resources self)) -> In rel rel_tags ->
  nodes (nx_add_edge g u v rel) = N /\ succ_ok (map id (resources self)) (nx_add_edge g u v rel).
Proof.
  intros Hn Hs Hu Hv Hr.
  destruct (add_edge_inv (map id (resources self)) g u v rel) as [E1 E2];
    try (apply has_node_keys; rewrite Hn; apply HN); auto.
  rewrite E1. auto.
Qed.

Lemma process_targets_inv res rule targets : forall g g',
  In (id res) (map id (resources self)) -> In (rel rule) rel_tags ->
  process_targets num_eq self res rule targets g = Ok g' ->
  nodes g = N -> succ_ok (map id (resources self)) g ->
  nodes g' = N /\ succ_ok (map id (resources self)) g'.
Proof.
  induction targets as [|ref targets IH]; intros g g' Hres Hrel H Hn Hs; cbn [process_targets] in H.
  - injection H as <-. auto.
  - destruct (_ && _ && _).
    + destruct (_find_resource_by_name num_eq self _ _) as [tid|e] eqn:F; cbn [bind] in H; [|discriminate].
      destruct tid as [x|]; [destruct (id_truthy (Some x))|]; eapply IH; try exact H; auto;
        apply edge_inv; auto; apply Hidx; eapply find_resource_in; exact F.
    + cbn [bind] in H.
      destruct (_resolve_reference self ref) as [x|] eqn:R; [destruct (id_truthy (Some x))|];
        eapply IH; try exact H; auto;
        apply edge_inv; auto; eapply resolve_in; exact R.
Qed.


Lemma process_rules_inv res attrs rules : forall g g',
  In (id res) (map id (resources self)) -> (forall rule, In rule rules -> In (rel rule) rel_tags) ->
  process_rules num_eq self res attrs rules g = Ok g' ->
  nodes g = N -> succ_ok (map id (resources self)) g ->
  nodes g' = N /\ succ_ok (map id (resources self)) g'.
Proof.
  induction rules as [|rule rules IH]; intros g g' Hres Hrel H Hn Hs; cbn [process_rules] in H.
  - injection H as <-. auto.
  - unfold _process_rule at 1 in H.
    destruct (negb (truthy _)); cbn [bind] in H.
    + eapply IH; eauto. intros r Hr. apply Hrel. right. exact Hr.
    + destruct (process_targets num_eq self res rule _ g) as [g1|e] eqn:P; cbn [bind] in H; [|discriminate].
      destruct (process_targets_inv res rule _ g g1 Hres (Hrel rule (or_introl eq_refl)) P Hn Hs).
      eapply IH; eauto. intros r Hr. apply Hrel. right. exact Hr.
Qed.

Lemma bedrock_inv res attrs g g' :
  In (id res) (map id (resources self)) ->
  _process_bedrock_logging num_eq self res attrs g = Ok g' ->
  nodes g = N -> succ_ok (map id (resources self)) g ->
  nodes g' = N /\ succ_ok (map id (resources self)) g'.
Proof.
  intros Hres H Hn Hs. unfold _process_bedrock_logging in H.
  match type of H with bind ?m _ = _ => destruct m as [s3|e]; cbn [bind] in H; [|discriminate] end.
  match type of H with (if ?c then _ else _) = _ => destruct c end; [injection H as <-; auto|].
  match type of H with bind ?m _ = _ => destruct m as [[b|]|e] eqn:F; cbn [bind] in H; [| |discriminate] end.
  - destruct (id_truthy (Some b)); injection H as <-; [|auto].
    apply edge_inv; auto;
      [apply Hidx; eapply find_resource_in; exact F|unfold rel_tags; cbn [In]; tauto].
  - injection H as <-. auto.
Qed.


Lemma connect_tail_inv res g2 g' :
  In (id res) (map id (resources self)) ->
  nodes g2 = N -> succ_ok (map id (resources self)) g2 ->
  (if String.eqb (type res) "aws_bedrock_model_invocation_logging_configuration"
   then _process_bedrock_logging num_eq self res (attributes res) g2 else Ok g2) = Ok g' ->
  nodes g' = N /\ succ_ok (map id (resources self)) g'.
Proof.
  intros Hres Hn Hs H. destruct (String.eqb _ _); [eapply bedrock_inv; eauto|].
  injection H as <-. auto.
Qed.

Lemma connect_inv res g g' :
  In (id res) (map id (resources self)) ->
  _connect_related_resources num_eq self res g = Ok g' ->
  nodes g = N -> succ_ok (map id (resources self)) g ->
  nodes g' = N /\ succ_ok (map id (resources self)) g'.
Proof.
  intros Hres H Hn Hs. unfold _connect_related_resources in H.
  destruct (process_rules num_eq self res _ _ g) as [g1|e] eqn:P; cbn [bind] in H; [|discriminate].
  destruct (process_rules_inv res _ _ g g1 Hres (registry_rels (type res)) P Hn Hs) as [Hn1 Hs1].
  refine (connect_tail_inv res _ g' Hres _ _ H);
    (destruct (String.eqb (type res) "aws_iam_role_policy_attachment"); [|assumption]);
    (destruct (_resolve_reference self (dict_get _ "role" _)) as [r|] eqn:R1; [|assumption]);
    (destruct (_resolve_reference self (dict_get _ "policy_arn" _)) as [p|] eqn:R2; [|assumption]);
    (destruct (_ && _); [|assumption]);
    (edestruct (edge_inv g1 r p "has_policy" Hn1 Hs1) as [E1 E2];
      [eapply resolve_in; exact R1|eapply resolve_in; exact R2|unfold rel_tags; cbn [In]; tauto|]);
    assumption.
Qed.

Lemma connect_all_inv rs' : forall g g',
  (forall r, In r rs' -> In (id r) (map id (resources self))) ->
  connect_all num_eq self rs' g = Ok g' ->
  nodes g = N -> succ_ok (map id (resources self)) g ->
  nodes g' = N /\ succ_ok (map id (resources self)) g'.
Proof.
  induction rs' as [|r rs' IH]; intros g g' Hr H Hn Hs; cbn [connect_all] in H.
  - injection H as <-. auto.
  - destruct (_connect_related_resources num_eq self r g) as [g1|e] eqn:C; cbn [bind] in H; [|discriminate].
    destruct (connect_inv r g g1 (Hr r (or_introl eq_refl)) C Hn Hs).
    eapply IH; eauto. intros r' H'. apply Hr. right. exact H'.
Qed.

End Connect_facts.


Lemma build_graph_inv num_eq rs g :
  build_graph num_eq rs = Ok g ->
  nodes g = nodes (fold_left (fun g res => nx_add_node g (id res) res) rs (mkGraph [] [])) /\
  succ_ok (map id rs) g.
Proof.
  unfold build_graph, new_builder.
  destruct (build_indices num_eq rs [] []) as [[ni bi]|e] eqn:Hb; cbn [bind]; [|discriminate].
  unfold build. cbn [resources fst snd].
  destruct (build_nodes_fold rs (mkGraph [] []) (NoDup_nil _)) as [_ [B _]].
  intros H. eapply (connect_all_inv num_eq (mkBuilder rs ni bi)); cbn [resources name_index bucket_index];
    [| |intros r Hr; apply in_map; exact Hr|exact H|reflexivity|].
  - apply (build_indices_vals num_eq (map id rs) rs [] [] ni bi Hb).
    + intros r Hr. apply in_map. exact Hr.
    + intros i [[]|[]].
  - intros x Hx. apply has_node_keys, B. right. exact Hx.
  - apply build_succ_fold. intros k l v rel [].
Qed.


Lemma build_graph_has num_eq rs g x :
  build_graph num_eq rs = Ok g -> has_node g x = true <-> In x (map id rs).
Proof.
  intros H. destruct (build_graph_inv num_eq rs g H) as [Hn _].
  destruct (build_nodes_fold rs (mkGraph [] []) (NoDup_nil _)) as [_ [B _]].
  unfold has_node. rewrite Hn.
  fold (has_node (fold_left (fun g res => nx_add_node g (id res) res) rs (mkGraph [] [])) x).
  rewrite B. split; [intros [E|Hx]; [discriminate E|exact Hx]|right; assumption].
Qed.

(** Extra X8: when [build_graph] succeeds, its nodes are exactly the
    resource ids, each once, and the [resource] attribute of a node is the
    last resource with that id; the edges add no node. *)
Theorem build_graph_nodes (num_eq : value -> value -> bool) (rs : list Resource) (g : graph) :
  build_graph num_eq rs = Ok g ->
  NoDup (map fst (nodes g)) /\
  (forall x, has_node g x = true <-> In x (map id rs)) /\
  (forall x, node_resource g x = last_with (fun r => String.eqb (id r) x) rs).
Proof.
  intros H. destruct (build_graph_inv num_eq rs g H) as [Hn _].
  destruct (build_nodes_fold rs (mkGraph [] []) (NoDup_nil _)) as [A [_ C]].
  split; [rewrite Hn; exact A|]. split; [intros x; exact (build_graph_has num_eq rs g x H)|].
  intros x. unfold node_resource. rewrite Hn.
  fold (node_resource (fold_left (fun g res => nx_add_node g (id res) res) rs (mkGraph [] [])) x).
  rewrite C. destruct (last_with _ rs); reflexivity.
Qed.

(** Extra X9: when [build_graph] succeeds, every edge links two resource
    ids and carries one of the seven relationships [protected_by],
    [assumes_role], [located_in], [uses_identity], [linked_role],
    [has_policy] and [logs_to]. *)
Theorem build_graph_edges (num_eq : value -> value -> bool) (rs : list Resource) (g : graph) u v rel :
  build_graph num_eq rs = Ok g -> In (u, v, rel) (edges g) ->
  In u (map id rs) /\ In v (map id rs) /\ exists tag, rel = Some tag /\ In tag rel_tags.
Proof.
  intros H He. destruct (build_graph_inv num_eq rs g H) as [Hn Hs].
  unfold edges in He. apply in_flat_map in He as [p [Hp He]].
  apply in_map_iff in He as [q [E Hq]]. injection E as <- <- <-.
  split; [apply (build_graph_has num_eq rs g _ H), has_node_keys, in_map, Hp|].
  unfold adj in Hq. destruct (find _ (succ g)) as [[k l]|] eqn:F; [|destruct Hq].
  apply find_some in F as [F _]. destruct q as [q1 q2]. exact (Hs _ _ _ _ F Hq).
Qed.


(** The remediations of [calculate_fix_order]. *)

Lemma filter_split_length {A} (f : A -> bool) l :
  length l = length (filter f l) + length (filter (fun x => negb (f x)) l).
Proof. induction l as [|a l IH]; simpl; [reflexivity|]. destruct (f a); simpl; lia. Qed.

Lemma in_length_pos {A} (x : A) l : In x l -> 1 <= length l.
Proof. destruct l as [|a l]; [intros []|intros _; cbn [length]; lia]. Qed.

Lemma fix_step_round targets g k rem g' :
  fix_step targets g k = Some (rem, g') ->
  rem_id rem = fix_id (k + 1) /\
  paths_blocked rem = participation (fix_edge rem) (_find_all_paths targets g) /\
  (exists p, In p (_find_all_paths targets g) /\
             existsb (edge_eqb (fix_edge rem)) (path_edges p) = true) /\
  _find_all_paths targets g' =
  filter (fun p => negb (existsb (edge_eqb (fix_edge rem)) (path_edges p))) (_find_all_paths targets g).
Proof.
  intros H. destruct (fix_step_spec _ _ _ _ _ H) as [_ [Hm ->]].
  split.
  { revert H. unfold fix_step. destruct (_find_all_paths targets g) as [|p ps]; [discriminate|].
    destruct (max_by_count (edge_counts (p :: ps))) as [[[u v] count]|]; [|discriminate].
    destruct (edge_data g u v) as [[m r]|]; intros H; injection H as <- _; reflexivity. }
  destruct (max_by_count_spec _ _ Hm) as [pre [post [E _]]].
  assert (Hin : In (fix_edge rem, paths_blocked rem) (edge_counts (_find_all_paths targets g)))
    by (rewrite E; apply in_or_app; right; left; reflexivity).
  split; [|split; [exact (edge_counts_key_on_path _ _ _ Hin)|apply find_all_paths_remove]].
  rewrite (edge_counts_in _ _ _ Hin). apply occurrences_participation.
  intros p Hp. exact (find_all_paths_nodup _ _ _ Hp).
Qed.

Lemma fix_loop_inv targets fuel : forall g rems rems' gf,
  fix_loop fuel targets g rems = Some (rems', gf) ->
  NoDup (map fix_edge rems) ->
  (forall r p, In r rems -> In p (_find_all_paths targets g) ->
               existsb (edge_eqb (fix_edge r)) (path_edges p) = false) ->
  map rem_id rems = map fix_id (seq 1 (length rems)) ->
  Forall (fun r => 1 <= paths_blocked r) rems ->
  NoDup (map fix_edge rems') /\ map rem_id rems' = map fix_id (seq 1 (length rems')) /\
  Forall (fun r => 1 <= paths_blocked r) rems' /\
  list_sum (map paths_blocked rems') = list_sum (map paths_blocked rems) + length (_find_all_paths targets g).
Proof.
  induction fuel as [|f IH]; intros g rems rems' gf H Hnd Hoff Hid Hpos; cbn [fix_loop] in H; [discriminate|].
  destruct (fix_step targets g (length rems)) as [[rem g']|] eqn:Hs.
  - destruct (fix_step_round _ _ _ _ _ Hs) as [Hr [Hb [[p0 [Hp0 Hon]] Hg']]].
    assert (Hnew : ~ In (fix_edge rem) (map fix_edge rems)).
    { intros Hx. apply in_map_iff in Hx as [r [Er Hr0]].
      rewrite <- Er, (Hoff r p0 Hr0 Hp0) in Hon. discriminate. }
    destruct (IH g' (rems ++ [rem])%list rems' gf H) as [A [B [C D]]].
    + rewrite map_app. apply NoDup_app; [exact Hnd|constructor; [intros []|constructor]|].
      intros x Hx [<-|[]]. exact (Hnew Hx).
    + intros r p Hr0 Hp. rewrite Hg' in Hp. apply filter_In in Hp as [Hp Hneg].
      apply in_app_iff in Hr0 as [Hr0|[<-|[]]]; [exact (Hoff r p Hr0 Hp)|].
      apply negb_true_iff in Hneg. exact Hneg.
    + rewrite length_app, map_app, Hid. cbn [map length]. rewrite Hr, Nat.add_1_r, seq_S, map_app.
      reflexivity.
    + apply Forall_app. split; [exact Hpos|constructor; [|constructor]].
      rewrite Hb. unfold participation.
      assert (In p0 (filter (fun p => existsb (edge_eqb (fix_edge rem)) (path_edges p))
                            (_find_all_paths targets g))) by (apply filter_In; auto).
      exact (in_length_pos _ _ H0).
    + split; [exact A|]. split; [exact B|]. split; [exact C|]. rewrite D, map_app, list_sum_app.
      cbn [map list_sum]. rewrite Hg', Hb. unfold participation.
      rewrite (filter_split_length (fun p => existsb (edge_eqb (fix_edge rem)) (path_edges p))
                                   (_find_all_paths targets g)).
      cbn [list_sum fold_right]. lia.
  - injection H as <- <-. rewrite (fix_step_none _ _ _ Hs). cbn [length].
    split; [exact Hnd|]. split; [exact Hid|]. split; [exact Hpos|]. lia.
Qed.

(** Extra X10: [calculate_fix_order] always returns a list. Its
    remediations are numbered [FIX-001], [FIX-002], ... in order, each cuts a
    different edge, each blocks at least one path, and their [paths_blocked]
    counts add up to the number of paths [_find_all_paths] enumerates in the
    original graph. *)
Theorem calculate_fix_order_accounting (fe : FixEngine) :
  exists rems, calculate_fix_order fe = Some rems /\
    map rem_id rems = map fix_id (seq 1 (length rems)) /\
    NoDup (map fix_edge rems) /\
    Forall (fun r => 1 <= paths_blocked r) rems /\
    list_sum (map paths_blocked rems) = length (_find_all_paths (fix_targets fe) (original_graph fe)).
Proof.
  unfold calculate_fix_order.
  destruct (fix_loop_closes (fix_targets fe) (S (length (_find_all_paths (fix_targets fe) (original_graph fe))))
              (original_graph fe) [] (Nat.lt_succ_diag_r _)) as [rems [gf [E _]]].
  rewrite E. exists rems. split; [reflexivity|].
  destruct (fix_loop_inv _ _ _ _ _ _ E (NoDup_nil _)) as [A [B [C D]]];
    [intros r p []|reflexivity|constructor|].
  split; [exact B|]. split; [exact A|]. split; [exact C|]. exact D.
Qed.


(** [_build_indices] raises on an unhashable bucket. *)

Lemma build_indices_raise num_eq r rs : forall ni bi,
  In r rs -> truthy (dict_get (attributes r) "bucket" VNone) = true ->
  hashable (dict_get (attributes r) "bucket" VNone) = false ->
  build_indices num_eq rs ni bi = Raise TypeError.
Proof.
  induction rs as [|r' rs IH]; intros ni bi Hin Ht Hh; [destruct Hin|].
  cbn [build_indices]. destruct Hin as [->|Hin].
  - rewrite Ht, Hh. reflexivity.
  - destruct (truthy (dict_get (attributes r') "bucket" VNone));
      [destruct (hashable (dict_get (attributes r') "bucket" VNone))|]; cbn [bind];
      [apply IH; assumption|reflexivity|apply IH; assumption].
Qed.

(** Extra X11: [build_graph] raises [TypeError] when some resource has a
    [bucket] attribute that is a non-empty list or dict, whatever the other
    resources are. *)
Theorem build_graph_unhashable_bucket (num_eq : value -> value -> bool) (rs : list Resource) (r : Resource) :
  In r rs -> truthy (dict_get (attributes r) "bucket" VNone) = true ->
  hashable (dict_get (attributes r) "bucket" VNone) = false ->
  build_graph num_eq rs = Raise TypeError.
Proof.
  intros Hin Ht Hh. unfold build_graph, new_builder.
  rewrite (build_indices_raise num_eq r rs [] [] Hin Ht Hh). reflexivity.
Qed.

(** Extra X12: for a logging configuration whose [logging_config] is a dict
    (or a list starting with one) whose [s3_config] is a dict (or a list
    starting with one) with a non-empty string [bucket_name],
    [_process_bedrock_logging] adds a [logs_to] edge to the bucket that
    [_find_resource_by_name] finds under that name (bucket attribute first,
    then resource name, the last match winning), and leaves the graph as it
    is when there is none. *)
Theorem bedrock_logging_edge (num_eq : value -> value -> bool) (rs : list Resource) (self : GraphBuilder)
        (res : Resource) (attrs : list (string * value)) (g : graph) (kv s3 : list (string * value)) (x : string) :
  new_builder num_eq rs = Ok self ->
  (dict_get attrs "logging_config" (VList []) = VDict kv \/
   exists rest, dict_get attrs "logging_config" (VList []) = VList (VDict kv :: rest)) ->
  (dict_get kv "s3_config" (VList []) = VDict s3 \/
   exists rest, dict_get kv "s3_config" (VList []) = VList (VDict s3 :: rest)) ->
  dict_get s3 "bucket_name" (VStr "") = VStr x -> x <> "" ->
  _process_bedrock_logging num_eq self res attrs g =
  Ok (match lookup_spec rs "aws_s3_bucket" x with
      | Some b => if String.eqb b "" then g else nx_add_edge g (id res) b "logs_to"
      | None => g
      end).
Proof.
  intros Hb Hl Hs Hx Hne. unfold _process_bedrock_logging.
  assert (Hl' : match dict_get attrs "logging_config" (VList []) with
                | VList (c :: _) => c | VDict _ => dict_get attrs "logging_config" (VList []) | _ => VDict []
                end = VDict kv) by (destruct Hl as [E|[rest E]]; rewrite E; reflexivity).
  rewrite Hl'. cbn [bind].
  assert (Hs' : match dict_get kv "s3_config" (VList []) with
                | VList (c :: _) => c | _ => dict_get kv "s3_config" (VList [])
                end = VDict s3) by (destruct Hs as [E|[rest E]]; rewrite E; reflexivity).
  rewrite Hs', Hx. cbn [truthy].
  destruct (String.eqb_spec x "") as [E|_]; [contradiction|]. cbn [negb].
  rewrite (find_by_name_lookup num_eq rs self "aws_s3_bucket" x Hb). cbn [bind].
  destruct (lookup_spec rs "aws_s3_bucket" x) as [b|]; [|reflexivity].
  unfold id_truthy. destruct (String.eqb b ""); reflexivity.
Qed.


(** ** Witnesses *)

Lemma run_findings_of_inputs_witness :
  exists out, run [sg_open; bucket_pub; policy_obj; logging_ok] = Ok out /\ out <> [] /\
  forall f, In f out ->
  is_compliant f = false /\
  exists r, In r [sg_open; bucket_pub; policy_obj; logging_ok] /\ resource_id f = id r /\
            In (type r, rule_id f) finding_kinds.
Proof.
  eexists. split; [reflexivity|]. split; [discriminate|].
  apply run_findings_of_inputs. reflexivity.
Defined.

Lemma sg_rule_agrees_with_attack_engine_witness :
  flat_cidrs sg_open = true /\
  exists out, _check_sg_public_exposure sg_open = Ok out /\ (out <> [] <-> _is_sg_public sg_open = true).
Proof.
  split; [reflexivity|]. apply sg_rule_agrees_with_attack_engine. reflexivity.
Defined.

Lemma bucket_rule_agrees_with_overlay_witness :
  edge_data (overlay_of two_buckets) "Internet" "aws_s3_bucket.zeta" =
  match _check_s3_public (res "aws_s3_bucket" "zeta" [("acl", VStr "public-read")]) with
  | [] => None
  | _ => Some ("Public ACL/Policy", "Data Leakage")
  end.
Proof.
  apply (bucket_rule_agrees_with_overlay two_buckets (overlay_of two_buckets)).
  - constructor; [cbn; intros [E|[]]; discriminate E|constructor; [intros []|constructor]].
  - cbn. intros [E|[E|[]]]; discriminate E.
  - left. reflexivity.
  - reflexivity.
  - vm_compute. reflexivity.
Defined.

Lemma iam_rule_misses_object_policies_witness : _check_iam_permissive policy_obj = [].
Proof.
  apply (iam_rule_misses_object_policies policy_obj [("Effect", VStr "Allow"); ("Action", VStr "*")]).
  - left. reflexivity.
  - reflexivity.
Defined.

Lemma logging_rule_raises_on_scalar_config_witness :
  exists out, run [sg_open] = Ok out /\
  run ([sg_open] ++ logging_scalar :: [bucket_pub]) = Raise TypeError /\
  forall num_eq self g, _process_bedrock_logging num_eq self logging_scalar (attributes logging_scalar) g = Ok g.
Proof.
  eexists. split; [reflexivity|].
  eapply (logging_rule_raises_on_scalar_config [sg_open] [bucket_pub] logging_scalar _ (VBool true));
    [reflexivity|reflexivity|reflexivity|right; left; exists true; reflexivity].
Defined.

Lemma find_resource_by_name_spec_witness :
  _find_resource_by_name no_num_eq sample_builder "aws_s3_bucket" (VStr "corp-data") =
  Ok (lookup_spec sample_rs "aws_s3_bucket" "corp-data") /\
  lookup_spec sample_rs "aws_s3_bucket" "corp-data" = Some "aws_s3_bucket.data".
Proof.
  split; [|reflexivity].
  apply find_resource_by_name_spec. reflexivity.
Defined.

Lemma resolve_reference_roundtrip_witness :
  ("aws_security_group" <> "data" ->
   _resolve_reference sample_builder (VStr (tf_ref true ("aws_security_group" ++ "." ++ "open" ++ ".id"))) =
   (if in_resource_map sample_builder ("aws_security_group" ++ "." ++ "open")
    then Some ("aws_security_group" ++ "." ++ "open") else None)) /\
  _resolve_reference sample_builder (VStr (tf_ref true ("data" ++ "." ++ "open" ++ "." ++ "x" ++ ".id"))) =
  (if in_resource_map sample_builder ("data." ++ "open" ++ "." ++ "x")
   then Some ("data." ++ "open" ++ "." ++ "x") else None).
Proof.
  apply (resolve_reference_roundtrip sample_builder true "aws_security_group" "open" "x" ".id");
    reflexivity.
Defined.

Lemma build_graph_nodes_witness :
  NoDup (map fst (nodes sample_graph)) /\
  (forall x, has_node sample_graph x = true <-> In x (map id sample_rs)) /\
  (forall x, node_resource sample_graph x = last_with (fun r => String.eqb (id r) x) sample_rs).
Proof.
  apply (build_graph_nodes no_num_eq). reflexivity.
Defined.

Lemma build_graph_edges_witness :
  In "aws_instance.web" (map id sample_rs) /\ In "aws_security_group.open" (map id sample_rs) /\
  exists tag, Some "protected_by" = Some tag /\ In tag rel_tags.
Proof.
  apply (build_graph_edges no_num_eq sample_rs sample_graph); [reflexivity|].
  vm_compute. left. reflexivity.
Defined.

Lemma build_graph_unhashable_bucket_witness :
  build_graph no_num_eq (sample_rs ++ [bucket_listed]) = Raise TypeError.
Proof.
  apply (build_graph_unhashable_bucket _ _ bucket_listed); [|reflexivity|reflexivity].
  apply in_or_app. right. left. reflexivity.
Defined.

Lemma bedrock_logging_edge_witness :
  _process_bedrock_logging no_num_eq sample_builder logging_ok (attributes logging_ok) (mkGraph [] []) =
  Ok (match lookup_spec sample_rs "aws_s3_bucket" "corp-data" with
      | Some b => if String.eqb b "" then mkGraph [] [] else nx_add_edge (mkGraph [] []) (id logging_ok) b "logs_to"
      | None => mkGraph [] []
      end).
Proof.
  apply (bedrock_logging_edge no_num_eq sample_rs sample_builder logging_ok (attributes logging_ok)
           (mkGraph [] []) [("s3_config", VDict [("bucket_name", VStr "corp-data")])]
           [("bucket_name", VStr "corp-data")] "corp-data").
  - reflexivity.
  - left. reflexivity.
  - left. reflexivity.
  - reflexivity.
  - discriminate.
Defined.

End Extras.
